(** * DARC (Distributed Access Right Control): a shallow embedding of
      package [darc] of cothority (ocs/darc) and the properties of its
      identity hash, rules, evolution, verification and request check.

    Conventions of the embedding.
    - A Go [[]byte] is a [list byte]; where the code tests a slice against
      [nil] (darc IDs, the digest handed to [Sign]) it is a [slice], an
      [option] whose [None] is the nil slice.
    - A Go pointer that the code may find nil is an [option].
    - A Go [error] is an [option error], [None] being the nil error; a
      function returning [(T, error)] returns a pair.
    - A call either returns or panics: [Outcome].  Methods with a pointer
      receiver that mutate it return the receiver's new value as well.
    - [uint64] is a [Z] with the wrap-around written out.
    - [map[Action]expression.Expr] is a [gmap string Expr], an allocated
      map; a value of the type, which may also be the nil map, is a
      [RulesValue].  The receiver of [Evolve] is not aliased by an element
      of its path. *)

From Stdlib Require Import ZArith Strings.String Strings.Ascii Strings.Byte List Lia.
From stdpp Require Import base option list strings gmap sorting.

#[local] Set Warnings "-clear-no-such-hyp".

Local Open Scope Z_scope.
Local Open Scope string_scope.
Local Open Scope list_scope.

(** ** Go values *)

Definition bytes := list byte.
Definition slice := option bytes.

#[global] Instance byte_eq_decision : EqDecision byte := Byte.byte_eq_dec.

(** The bytes of a slice: a nil slice has none. *)
Definition slice_bytes (s : slice) : bytes :=
  match s with
  | Some b => b
  | None => []
  end.

(** [len(s)] *)
Definition slice_len (s : slice) : nat := length (slice_bytes s).

(** [append([]byte(nil), b...)]: appending nothing to nil leaves nil. *)
Definition append_nil (b : bytes) : slice :=
  match b with
  | [] => None
  | _ :: _ => Some b
  end.

(** [bytes.Equal]: a nil slice equals an empty one. *)
Definition bytes_Equal (a b : slice) : bool :=
  bool_decide (slice_bytes a = slice_bytes b).

(** [byte(v)]: conversion of an integer to a byte keeps the low 8 bits. *)
Definition byte_of_Z (v : Z) : byte :=
  match Byte.of_N (Z.to_N (Z.land v 255)) with
  | Some b => b
  | None => x00
  end.

(** [uint64] arithmetic wraps. *)
Definition wrap64 (v : Z) : Z := v mod 2 ^ 64.

(** [binary.LittleEndian.PutUint64]: byte [i] is [byte(v >> (8*i))]. *)
Definition PutUint64 (v : Z) : bytes :=
  map (fun i : nat => byte_of_Z (Z.shiftr v (8 * Z.of_nat i))) (seq 0 8).

(** The number that [n] bytes hold in little-endian order. *)
Definition Uint64_of_le (b : bytes) : Z :=
  foldr (fun x acc => Z.of_N (Byte.to_N x) + 256 * acc)%Z 0%Z b.

(** [fmt.Sprintf("%x", b)] on a byte slice: two lower-case hex digits per byte. *)
Definition hex_digit (n : N) : ascii :=
  if (n <? 10)%N then ascii_of_N (48 + n) else ascii_of_N (87 + n).

Fixpoint hex (b : bytes) : string :=
  match b with
  | [] => EmptyString
  | x :: rest =>
      let n := Byte.to_N x in
      String (hex_digit (n / 16)) (String (hex_digit (n mod 16)) (hex rest))
  end.

(** [sort.Strings]: increasing order of [String.compare], the byte-wise
    lexicographic order of Go's [<] on strings. *)
Definition sort_Strings (l : list string) : list string :=
  merge_sort String.le l.

(** ** Errors, panics and outcomes *)

Inductive error :=
| errors_New (msg : string)
| errors_New_cat (msg : string) (cause : error)
| fmt_Errorf (format : string) (args : list fmt_arg)
with fmt_arg :=
| arg_uint (v : Z)
| arg_error (e : error)
| arg_bytes (b : bytes)
| arg_string (s : string)
| arg_strings (l : list string).

Inductive panic :=
| IndexOutOfRange
| NilDereference
| InterfaceConversion
| NilMapAssignment.

(** What a call does: it returns a value or it panics.  [OutOfFuel] is the
    embedding's own mark for a recursion cut short (see [VerifyWithCB_fuel]);
    no Go run ends in it. *)
Inductive Outcome (A : Type) :=
| Returns (a : A)
| Panics (p : panic)
| OutOfFuel.
Arguments Returns {A} a.
Arguments Panics {A} p.
Arguments OutOfFuel {A}.

#[global] Instance Outcome_bind : MBind Outcome := fun A B k m =>
  match m with
  | Returns a => k a
  | Panics p => Panics p
  | OutOfFuel => OutOfFuel
  end.

(** [*p]: dereferencing nil panics. *)
Definition deref {A} (p : option A) : Outcome A :=
  match p with
  | Some a => Returns a
  | None => Panics NilDereference
  end.

(** [l[i]]: an index below zero or past the end panics. *)
Definition index {A} (l : list A) (i : Z) : Outcome A :=
  if (i <? 0)%Z then Panics IndexOutOfRange
  else match l !! Z.to_nat i with
       | Some a => Returns a
       | None => Panics IndexOutOfRange
       end.

(** [len(l)] as a Go [int]. *)
Definition len {A} (l : list A) : Z := Z.of_nat (length l).

(** ** External collaborators *)

Definition Expr := bytes.
Definition Action := string.
Abbreviation Rules := (gmap string Expr).
Abbreviation ID := slice.

(** What [x509.ParsePKIXPublicKey] hands back as an [interface{}]. *)
Inductive any_PublicKey (K : Type) :=
| ecdsa_PublicKey (k : K)
| other_PublicKey.
Arguments ecdsa_PublicKey {K} k.
Arguments other_PublicKey {K}.

(** The primitives of the Go library and of kyber that the package calls. *)
Class Suite := {
  sha256_Sum : bytes -> bytes;
  sha512_Sum384 : bytes -> bytes;
  Point : Type;
  Scalar : Type;
  Point_String : Point -> string;
  schnorr_Sign : Scalar -> bytes -> bytes * option error;
  schnorr_Verify : Point -> bytes -> bytes -> option error;
  ecdsa_Key : Type;
  x509_ParsePKIXPublicKey : bytes -> any_PublicKey ecdsa_Key * option error;
  asn1_Unmarshal : bytes -> (Z * Z) * option error;
  ecdsa_Verify : ecdsa_Key -> bytes -> Z -> Z -> bool
}.

(** Package [expression] is not among the sources: its evaluator is taken as
    it is called, [ParseExpr(InitParser(oracle), expr)], the oracle deciding
    one term. *)
Class Engine := {
  expression_ParseExpr :
    (string -> Outcome bool) -> Expr -> Outcome (bool * option error)
}.

(** Modelled from the spec: [expression.DefaultParser], which is not among
    the sources; "[DefaultParser(expr, ids...)] evaluates with the oracle
    term is in ids". *)
Definition DefaultParser `{Engine} (expr : Expr) (ids : list string)
  : Outcome (bool * option error) :=
  expression_ParseExpr (fun s => Returns (bool_decide (s ∈ ids))) expr.

(** ** State of a hash being written ([hash.Hash]) *)

Definition sha256_New : bytes := [].
Definition h_Write (h : bytes) (p : bytes) : bytes := h ++ p.
Definition h_Sum `{Suite} (h : bytes) : slice := append_nil (sha256_Sum h).

(** ** Rules (darc.go, [Rules] methods)

    A method that writes the map returns the map it leaves behind.  [Rules]
    is the allocated map, and the functions that follow are the methods on
    a value that refers to one; the methods on any value of the type, the
    nil map included, are those of [RulesValue] further down, which agree
    with these on an allocated map ([RulesValue_allocated]). *)

Definition evolve : Action := "_evolve".

Definition isEvolution (action : Action) : bool :=
  if decide (action = evolve) then true else false.

Definition Rules_updateRule (r : Rules) (a : Action) (expr : Expr)
  : Rules * option error :=
  match r !! a with
  | None => (r, Some (errors_New "action does not exist"))
  | Some _ => (<[a := expr]> r, None)
  end.

Definition Rules_AddRule (r : Rules) (a : Action) (expr : Expr)
  : Rules * option error :=
  match r !! a with
  | Some _ => (r, Some (errors_New "action already exists"))
  | None => (<[a := expr]> r, None)
  end.

Definition Rules_UpdateRule (r : Rules) (a : Action) (expr : Expr)
  : Rules * option error :=
  if isEvolution a then (r, Some (errors_New "cannot update evolution"))
  else Rules_updateRule r a expr.

Definition Rules_DeleteRules (r : Rules) (a : Action) : Rules * option error :=
  if isEvolution a then (r, Some (errors_New "cannot delete evolution"))
  else match r !! a with
       | None => (r, Some (errors_New "action does not exist"))
       | Some _ => (delete a r, None)
       end.

Definition Rules_Contains (r : Rules) (a : Action) : bool :=
  match r !! a with
  | Some _ => true
  | None => false
  end.

(** [r[a]]: a missing key reads as the zero value, the nil expression. *)
Definition Rules_get (r : Rules) (a : Action) : Expr :=
  match r !! a with
  | Some e => e
  | None => []
  end.

Definition Rules_GetEvolutionExpr (r : Rules) : Expr := Rules_get r evolve.

Definition Rules_UpdateEvolution (r : Rules) (expr : Expr)
  : Rules * option error :=
  Rules_updateRule r evolve expr.

(** The keys in the order one [for k := range r] may visit them; Go fixes
    no order, so any permutation of it is as good. *)
Definition Rules_range (r : Rules) : list string := (map_to_list r).*1.

(** *** A [Rules] value that may be nil

    A value of a Go map type is nil or refers to an allocated map.  Reading
    the nil map finds no entry, deleting from it does nothing, and assigning
    to an entry of it panics. *)
Definition RulesValue := option Rules.

(** [e, ok := r[a]] *)
Definition RulesValue_lookup (r : RulesValue) (a : Action) : option Expr :=
  match r with
  | None => None
  | Some m => m !! a
  end.

(** [r[a] = expr] *)
Definition RulesValue_assign (r : RulesValue) (a : Action) (expr : Expr)
  : Outcome RulesValue :=
  match r with
  | None => Panics NilMapAssignment
  | Some m => Returns (Some (<[a := expr]> m))
  end.

(** [delete(r, a)] *)
Definition RulesValue_delete (r : RulesValue) (a : Action) : RulesValue :=
  match r with
  | None => None
  | Some m => Some (delete a m)
  end.

(** [r[a] = expr; return nil]: the value the statements leave behind, and
    what the method does. *)
Definition RulesValue_store (r : RulesValue) (a : Action) (expr : Expr)
  : RulesValue * Outcome (option error) :=
  match RulesValue_assign r a expr with
  | Returns r' => (r', Returns None)
  | Panics p => (r, Panics p)
  | OutOfFuel => (r, OutOfFuel)
  end.

Definition RulesValue_updateRule (r : RulesValue) (a : Action) (expr : Expr)
  : RulesValue * Outcome (option error) :=
  match RulesValue_lookup r a with
  | None => (r, Returns (Some (errors_New "action does not exist")))
  | Some _ => RulesValue_store r a expr
  end.

Definition RulesValue_AddRule (r : RulesValue) (a : Action) (expr : Expr)
  : RulesValue * Outcome (option error) :=
  match RulesValue_lookup r a with
  | Some _ => (r, Returns (Some (errors_New "action already exists")))
  | None => RulesValue_store r a expr
  end.

Definition RulesValue_UpdateRule (r : RulesValue) (a : Action) (expr : Expr)
  : RulesValue * Outcome (option error) :=
  if isEvolution a
  then (r, Returns (Some (errors_New "cannot update evolution")))
  else RulesValue_updateRule r a expr.

Definition RulesValue_DeleteRules (r : RulesValue) (a : Action)
  : RulesValue * Outcome (option error) :=
  if isEvolution a
  then (r, Returns (Some (errors_New "cannot delete evolution")))
  else match RulesValue_lookup r a with
       | None => (r, Returns (Some (errors_New "action does not exist")))
       | Some _ => (RulesValue_delete r a, Returns None)
       end.

Definition RulesValue_Contains (r : RulesValue) (a : Action) : bool :=
  match RulesValue_lookup r a with
  | Some _ => true
  | None => false
  end.

(** [r[a]]: a missing key reads as the zero value, the nil expression. *)
Definition RulesValue_get (r : RulesValue) (a : Action) : Expr :=
  match RulesValue_lookup r a with
  | Some e => e
  | None => []
  end.

Definition RulesValue_GetEvolutionExpr (r : RulesValue) : Expr :=
  RulesValue_get r evolve.

Definition RulesValue_UpdateEvolution (r : RulesValue) (expr : Expr)
  : RulesValue * Outcome (option error) :=
  RulesValue_updateRule r evolve expr.

Section darc.
Context `{Suite} `{Engine}.

(** ** Data model (struct.go) *)

Record IdentityDarc := { IdentityDarc_ID : ID }.
Record IdentityEd25519 := { IdentityEd25519_Point : Point }.
Record IdentityX509EC := { IdentityX509EC_Public : bytes }.

Record Identity := {
  Identity_Darc : option IdentityDarc;
  Identity_Ed25519 : option IdentityEd25519;
  Identity_X509EC : option IdentityX509EC
}.

Record SignerEd25519 := {
  SignerEd25519_Point : Point;
  SignerEd25519_Secret : Scalar
}.
Record SignerX509EC := {
  SignerX509EC_Point : bytes;
  SignerX509EC_secret : bytes
}.
Record Signer := {
  Signer_Ed25519 : option SignerEd25519;
  Signer_X509EC : option SignerX509EC
}.

Inductive Darc := Build_Darc {
  Darc_Version : Z;
  Darc_Description : bytes;
  Darc_BaseID : ID;
  Darc_Rules : Rules;
  Darc_Signature : option Signature
}
with Signature := Build_Signature {
  Signature_Signature : bytes;
  Signature_Signer : Identity;
  Signature_Path : list (option Darc)
}.

Record Request := {
  Request_ID : ID;
  Request_Action : Action;
  Request_Msg : bytes;
  Request_Identities : list (option Identity);
  Request_Signatures : list bytes
}.

(** ** Identities and signers *)

(** The first non-nil field of an identity, which is what the [switch] of
    [Identity.Type] selects. *)
Inductive Identity_kind :=
| kind_Darc (idd : IdentityDarc)
| kind_Ed25519 (ide : IdentityEd25519)
| kind_X509EC (idkc : IdentityX509EC)
| kind_none.

Definition Identity_switch (id : Identity) : Identity_kind :=
  match Identity_Darc id with
  | Some idd => kind_Darc idd
  | None =>
      match Identity_Ed25519 id with
      | Some ide => kind_Ed25519 ide
      | None =>
          match Identity_X509EC id with
          | Some idkc => kind_X509EC idkc
          | None => kind_none
          end
      end
  end.

Definition Identity_Type (id : Identity) : Z :=
  match Identity_switch id with
  | kind_Darc _ => 0
  | kind_Ed25519 _ => 1
  | kind_X509EC _ => 2
  | kind_none => -1
  end.

Definition Identity_TypeString (id : Identity) : string :=
  match Identity_switch id with
  | kind_Darc _ => "darc"
  | kind_Ed25519 _ => "ed25519"
  | kind_X509EC _ => "x509ec"
  | kind_none => "No identity"
  end.

Definition Identity_String (id : Identity) : string :=
  match Identity_switch id with
  | kind_Darc idd =>
      Identity_TypeString id +:+ ":" +:+ hex (slice_bytes (IdentityDarc_ID idd))
  | kind_Ed25519 ide =>
      Identity_TypeString id +:+ ":" +:+ Point_String (IdentityEd25519_Point ide)
  | kind_X509EC idkc =>
      Identity_TypeString id +:+ ":" +:+ hex (IdentityX509EC_Public idkc)
  | kind_none => "No identity"
  end.

Definition IdentityEd25519_Verify (ide : IdentityEd25519) (msg sig : bytes)
  : option error :=
  schnorr_Verify (IdentityEd25519_Point ide) msg sig.

(** The type assertion of the parsed key to an ECDSA public key panics when
    the key is of another algorithm. *)
Definition IdentityX509EC_Verify (idkc : IdentityX509EC) (msg s : bytes)
  : Outcome (option error) :=
  let '(public, err) := x509_ParsePKIXPublicKey (IdentityX509EC_Public idkc) in
  match err with
  | Some e => Returns (Some e)
  | None =>
      let hash := sha512_Sum384 msg in
      let '((sig_R, sig_S), err) := asn1_Unmarshal s in
      match err with
      | Some e => Returns (Some e)
      | None =>
          match public with
          | ecdsa_PublicKey k =>
              if ecdsa_Verify k hash sig_R sig_S then Returns None
              else Returns (Some (errors_New "Wrong signature"))
          | other_PublicKey => Panics InterfaceConversion
          end
      end
  end.

Definition Identity_Verify (id : Identity) (msg sig : bytes)
  : Outcome (option error) :=
  match Identity_switch id with
  | kind_Darc _ => Returns (Some (errors_New "cannot verify a darc-signature"))
  | kind_Ed25519 ide => Returns (IdentityEd25519_Verify ide msg sig)
  | kind_X509EC idkc => IdentityX509EC_Verify idkc msg sig
  | kind_none => Returns (Some (errors_New "unknown identity"))
  end.

Definition NewIdentityDarc (id : ID) : Identity :=
  {| Identity_Darc := Some {| IdentityDarc_ID := id |};
     Identity_Ed25519 := None;
     Identity_X509EC := None |}.

Definition NewIdentityEd25519 (point : Point) : Identity :=
  {| Identity_Darc := None;
     Identity_Ed25519 := Some {| IdentityEd25519_Point := point |};
     Identity_X509EC := None |}.

Definition NewIdentityX509EC (public : bytes) : Identity :=
  {| Identity_Darc := None;
     Identity_Ed25519 := None;
     Identity_X509EC := Some {| IdentityX509EC_Public := public |} |}.

Definition Signer_Type (s : Signer) : Z :=
  match Signer_Ed25519 s with
  | Some _ => 1
  | None =>
      match Signer_X509EC s with
      | Some _ => 2
      | None => -1
      end
  end.

(** A nil result for a signer holding no key. *)
Definition Signer_Identity (s : Signer) : option Identity :=
  match Signer_Ed25519 s with
  | Some eds => Some (NewIdentityEd25519 (SignerEd25519_Point eds))
  | None =>
      match Signer_X509EC s with
      | Some kcs => Some (NewIdentityX509EC (SignerX509EC_Point kcs))
      | None => None
      end
  end.

Definition SignerEd25519_Sign (eds : SignerEd25519) (msg : bytes)
  : bytes * option error :=
  schnorr_Sign (SignerEd25519_Secret eds) msg.

Definition SignerX509EC_Sign (kcs : SignerX509EC) (msg : bytes)
  : bytes * option error :=
  ([], Some (errors_New "not yet implemented")).

Definition Signer_Sign (s : Signer) (msg : slice) : bytes * option error :=
  match msg with
  | None => ([], Some (errors_New "nothing to sign, message is empty"))
  | Some m =>
      match Signer_Ed25519 s with
      | Some eds => SignerEd25519_Sign eds m
      | None =>
          match Signer_X509EC s with
          | Some kcs => SignerX509EC_Sign kcs m
          | None => ([], Some (errors_New "unknown signer type"))
          end
      end
  end.

(** ** The darc and its identity hash *)

Definition NewDarc (rules : Rules) (desc : bytes) : Darc :=
  {| Darc_Version := 0;
     Darc_Description := desc;
     Darc_BaseID := None;
     Darc_Rules := rules;
     Darc_Signature := None |}.

(** [GetID] when the [range] over the rules visits the keys in the order
    [keys]. *)
Definition Darc_GetID_ranging (keys : list string) (d : Darc) : ID :=
  let h := sha256_New in
  let verBytes := PutUint64 (Darc_Version d) in
  let h := h_Write h verBytes in
  let h := h_Write h (Darc_Description d) in
  let h := h_Write h (slice_bytes (Darc_BaseID d)) in
  let actions := sort_Strings keys in
  let h :=
    fold_left
      (fun h a =>
         h_Write (h_Write h (list_byte_of_string a)) (Rules_get (Darc_Rules d) a))
      actions h in
  h_Sum h.

Definition Darc_GetID (d : Darc) : ID :=
  Darc_GetID_ranging (Rules_range (Darc_Rules d)) d.

Definition Darc_GetIdentityString (d : Darc) : string :=
  Identity_String (NewIdentityDarc (Darc_GetID d)).

Definition Darc_GetBaseID (d : Darc) : ID :=
  if (Darc_Version d =? 0)%Z then Darc_GetID d else Darc_BaseID d.

Definition Darc_Equal (d d2 : Darc) : bool :=
  bytes_Equal (Darc_GetID d) (Darc_GetID d2).

(** ** Signatures (darc.go) *)

Definition hashAll (msgs : list bytes) : slice * option error :=
  (h_Sum (fold_left h_Write msgs sha256_New), None).

Fixpoint darcsMsg_loop (path : bytes) (darcs : list (option Darc))
  : Outcome bytes :=
  match darcs with
  | [] => Returns path
  | darc :: rest =>
      d ← deref darc;
      darcsMsg_loop (path ++ slice_bytes (Darc_GetID d)) rest
  end.

Definition darcsMsg (darcs : list (option Darc)) : Outcome bytes :=
  if (len darcs =? 0)%Z then Returns [] else darcsMsg_loop [] darcs.

Definition NewDarcSignature (signer : option Signer) (id : ID)
    (path : list (option Darc)) : Outcome (option Signature * option error) :=
  match signer with
  | None => Returns (None, Some (errors_New "signer missing"))
  | Some sg =>
      if (Z.of_nat (slice_len id) =? 0)%Z
      then Returns (None, Some (errors_New "id missing"))
      else if (len path =? 0)%Z
      then Returns (None, Some (errors_New "path missing"))
      else
        pathMsg ← darcsMsg path;
        let '(hash, err) := hashAll [slice_bytes id; pathMsg] in
        match err with
        | Some e => Returns (None, Some e)
        | None =>
            let '(sig, err) := Signer_Sign sg hash in
            match err with
            | Some e => Returns (None, Some e)
            | None =>
                idy ← deref (Signer_Identity sg);
                Returns (Some {| Signature_Signature := sig;
                                 Signature_Signer := idy;
                                 Signature_Path := path |}, None)
            end
        end
  end.

Definition Signature_GetPathMsg (s : Signature) : Outcome bytes :=
  darcsMsg (Signature_Path s).

(** [PathContains]: the callback is a closure; [st] is the variable it
    captures and may write. *)
Fixpoint PathContains_loop {St} (cb : St -> option Darc -> Outcome (St * bool))
    (st : St) (path : list (option Darc)) : Outcome bool :=
  match path with
  | [] => Returns false
  | d :: rest =>
      '(st', found) ← cb st d;
      if found : bool then Returns true else PathContains_loop cb st' rest
  end.

Definition Signature_PathContains {St} (s : option Signature)
    (cb : St -> option Darc -> Outcome (St * bool)) (st : St) : Outcome bool :=
  sig ← deref s;
  PathContains_loop cb st (Signature_Path sig).

Definition Signature_verify (s : Signature) (msg : ID) (base : ID)
  : Outcome (option error) :=
  match base with
  | None => Returns (Some (errors_New "base-darc is missing"))
  | Some _ =>
      if (len (Signature_Path s) =? 0)%Z
      then Returns (Some (errors_New "no path stored in signaturepath"))
      else
        first ← index (Signature_Path s) 0;
        d0 ← deref first;
        let sigBase := Darc_GetID d0 in
        if negb (bytes_Equal sigBase base)
        then Returns (Some (errors_New "Base-darc is not at root of path"))
        else
          pathMsg ← Signature_GetPathMsg s;
          let '(hash, err) := hashAll [slice_bytes msg; pathMsg] in
          match err with
          | Some e => Returns (Some e)
          | None =>
              Identity_Verify (Signature_Signer s) (slice_bytes hash)
                (Signature_Signature s)
          end
  end.

(** ** Evolution *)

Definition Darc_Evolve (d : Darc) (path : list (option Darc))
    (prevOwner : option Signer) : Darc * Outcome (option error) :=
  let d := {| Darc_Version := Darc_Version d;
              Darc_Description := Darc_Description d;
              Darc_BaseID := Darc_BaseID d;
              Darc_Rules := Darc_Rules d;
              Darc_Signature := None |} in
  match (p ← index path (len path - 1); deref p) with
  | Panics p => (d, Panics p)
  | OutOfFuel => (d, OutOfFuel)
  | Returns prevDarc =>
      let d := {| Darc_Version := wrap64 (Darc_Version prevDarc + 1);
                  Darc_Description := Darc_Description d;
                  Darc_BaseID := Darc_BaseID d;
                  Darc_Rules := Darc_Rules d;
                  Darc_Signature := Darc_Signature d |} in
      if (len path =? 0)%Z
      then (d, Returns (Some (errors_New "path should not be empty")))
      else
        let d := {| Darc_Version := Darc_Version d;
                    Darc_Description := Darc_Description d;
                    Darc_BaseID := Darc_GetBaseID prevDarc;
                    Darc_Rules := Darc_Rules d;
                    Darc_Signature := Darc_Signature d |} in
        match NewDarcSignature prevOwner (Darc_GetID d) path with
        | Panics p => (d, Panics p)
        | OutOfFuel => (d, OutOfFuel)
        | Returns (_, Some err) =>
            (d, Returns (Some (errors_New_cat
                   "error creating a darc signature for evolution: " err)))
        | Returns (None, None) =>
            (d, Returns (Some (errors_New "the resulting signature is nil")))
        | Returns (Some sig, None) =>
            ({| Darc_Version := Darc_Version d;
                Darc_Description := Darc_Description d;
                Darc_BaseID := Darc_BaseID d;
                Darc_Rules := Darc_Rules d;
                Darc_Signature := Some sig |}, Returns None)
        end
  end.

Definition Darc_IncrementVersion (d : Darc) : Darc :=
  {| Darc_Version := wrap64 (Darc_Version d + 1);
     Darc_Description := Darc_Description d;
     Darc_BaseID := Darc_BaseID d;
     Darc_Rules := Darc_Rules d;
     Darc_Signature := Darc_Signature d |}.

Definition Darc_GetSignerDarc (d : Darc) : Outcome (option Darc * option error) :=
  match Darc_Signature d with
  | None => Returns (None, None)
  | Some sig =>
      if (len (Signature_Path sig) =? 0)%Z
      then Returns (None, Some (errors_New "signature but no darcs"))
      else
        let n := len (Signature_Path sig) in
        prev ← index (Signature_Path sig) (n - 1);
        p ← deref prev;
        if negb (wrap64 (Darc_Version p + 1) =? Darc_Version d)%Z
        then Returns (None, Some (errors_New "not clean evolution - version mismatch"))
        else Returns (prev, None)
  end.

(** ** Verification

    [Verify] calls [VerifyWithCB], which reaches [Verify] again through the
    oracle of [checkEvolutionPermission].  The functions below take that
    inner [Verify] as the argument [Verify_]; [VerifyWithCB_fuel] ties the
    knot. *)

Section verify.
Variable Verify_ : option Darc -> Outcome (option error).

(** The first [PathContains] of the oracle: is [s] the identity string of a
    darc of the path? *)
Definition isPathMember (s : string) (_ : unit) (d : option Darc)
  : Outcome (unit * bool) :=
  x ← deref d;
  Returns (tt, bool_decide (Darc_GetIdentityString x = s)).

(** The second one; [pathSearchStart] is the captured variable. *)
Definition searchOlder (s : string) (ids : list string)
    (pathSearchStart : bool) (d : option Darc) : Outcome (bool * bool) :=
  x ← deref d;
  let pathSearchStart :=
    if bool_decide (Darc_GetIdentityString x = s) then true
    else pathSearchStart in
  if negb pathSearchStart then Returns (pathSearchStart, false)
  else
    '(ok, err) ← DefaultParser (Rules_GetEvolutionExpr (Darc_Rules x)) ids;
    match err with
    | Some _ => Returns (pathSearchStart, false)
    | None => Returns (pathSearchStart, ok)
    end.

(** The closure that [checkEvolutionPermission] hands to [InitParser]. *)
Definition evolutionOracle (getDarc : string -> option Darc)
    (ids : list string) (s : string) : Outcome bool :=
  if String.prefix "darc" s then
    let d := getDarc s in
    verr ← Verify_ d;
    match verr with
    | Some _ => Returns false
    | None =>
        dd ← deref d;
        found ← Signature_PathContains (Darc_Signature dd) (isPathMember s) tt;
        if negb found then Returns false
        else
          '(ok, err) ← DefaultParser (Rules_GetEvolutionExpr (Darc_Rules dd)) ids;
          match err, ok with
          | None, true => Returns true
          | _, _ =>
              Signature_PathContains (Darc_Signature dd) (searchOlder s ids) false
          end
    end
  else Returns (existsb (fun id => if decide (id = s) then true else false) ids).

Definition checkEvolutionPermission (expr : Expr)
    (getDarc : string -> option Darc) (ids : list string)
  : Outcome (option error) :=
  '(res, err) ← expression_ParseExpr (evolutionOracle getDarc ids) expr;
  match err with
  | Some e =>
      Returns (Some (fmt_Errorf "evaluation failed on '%s' with error: %v"
                       [arg_bytes expr; arg_error e]))
  | None =>
      if negb res
      then Returns (Some (fmt_Errorf "expression '%s' evaluated to false"
                            [arg_bytes expr]))
      else Returns None
  end.

Definition verifyOneEvolution (newDarc prevDarc : option Darc)
    (getDarc : string -> option Darc) : Outcome (option error) :=
  nd ← deref newDarc;
  match Darc_BaseID nd with
  | None => Returns (Some (errors_New "nil base ID"))
  | Some _ =>
      pd ← deref prevDarc;
      if negb (bytes_Equal (Darc_GetBaseID nd) (Darc_GetBaseID pd))
      then Returns (Some (errors_New "base IDs are not equal"))
      else if negb (Darc_Version nd =? wrap64 (Darc_Version pd + 1))%Z
      then Returns (Some (fmt_Errorf
             "incorrect version, new version should be %d but it is %d"
             [arg_uint (wrap64 (Darc_Version pd + 1)); arg_uint (Darc_Version nd)]))
      else
        sig ← deref (Darc_Signature nd);
        let signer := Identity_String (Signature_Signer sig) in
        err ← checkEvolutionPermission
                (Rules_GetEvolutionExpr (Darc_Rules pd)) getDarc [signer];
        match err with
        | Some e => Returns (Some e)
        | None => Signature_verify sig (Darc_GetID nd) (Darc_GetBaseID pd)
        end
  end.

(** The loop of [VerifyWithCB] over the path, at index [i] with [prev]. *)
Fixpoint VerifyWithCB_loop (getDarc : string -> option Darc) (i : nat)
    (prev : option Darc) (path : list (option Darc)) : Outcome (option error) :=
  match path with
  | [] => Returns None
  | dPath :: rest =>
      isRoot ← match prev with
               | None => x ← deref dPath; Returns (Darc_Version x =? 0)%Z
               | Some _ => Returns false
               end;
      if isRoot : bool then VerifyWithCB_loop getDarc (S i) dPath rest
      else
        err ← verifyOneEvolution dPath prev getDarc;
        match err with
        | Some e =>
            Returns (Some (fmt_Errorf
              "verification failed on index %d with error: %v"
              [arg_uint (Z.of_nat i); arg_error e]))
        | None => VerifyWithCB_loop getDarc (S i) dPath rest
        end
  end.

Definition VerifyWithCB_body (d : option Darc)
    (getDarc : string -> option Darc) : Outcome (option error) :=
  match d with
  | None => Returns (Some (errors_New "darc is nil"))
  | Some dd =>
      if (Darc_Version dd =? 0)%Z then Returns None
      else
        match Darc_Signature dd with
        | None => Returns (Some (errors_New "signature missing"))
        | Some sig =>
            if (len (Signature_Path sig) =? 0)%Z
            then Returns (Some (errors_New "signature missing"))
            else
              err ← VerifyWithCB_loop getDarc 0 None (Signature_Path sig);
              match err with
              | Some e => Returns (Some e)
              | None =>
                  '(signer, err) ← Darc_GetSignerDarc dd;
                  match err with
                  | Some e => Returns (Some e)
                  | None => verifyOneEvolution d signer getDarc
                  end
              end
        end
  end.

End verify.

(** The callback of [Verify]. *)
Definition noDarc (s : string) : option Darc := None.

(** [fuel] bounds the depth of the calls of [Verify] inside one another.
    Three levels are all a run has ([VerifyWithCB_fuel_enough]): the inner
    [Verify] runs with the callback [noDarc], whose nil result the next
    [Verify] rejects at once. *)
Fixpoint VerifyWithCB_fuel (fuel : nat) (d : option Darc)
    (getDarc : string -> option Darc) : Outcome (option error) :=
  match fuel with
  | O => OutOfFuel
  | S fuel' =>
      VerifyWithCB_body (fun d' => VerifyWithCB_fuel fuel' d' noDarc) d getDarc
  end.

Definition Darc_Verify (d : option Darc) : Outcome (option error) :=
  VerifyWithCB_fuel 2 d noDarc.

Definition Darc_VerifyWithCB (d : option Darc)
    (getDarc : string -> option Darc) : Outcome (option error) :=
  VerifyWithCB_body Darc_Verify d getDarc.

(** ** Requests *)

Definition Request_Hash (r : Request) : slice * option error :=
  let h := sha256_New in
  let h := h_Write h (slice_bytes (Request_ID r)) in
  let h := h_Write h (list_byte_of_string (Request_Action r)) in
  let h := h_Write h (Request_Msg r) in
  (h_Sum h, None).

Fixpoint GetIdentityStrings_loop (ids : list (option Identity))
  : Outcome (list string) :=
  match ids with
  | [] => Returns []
  | id :: rest =>
      x ← deref id;
      res ← GetIdentityStrings_loop rest;
      Returns (Identity_String x :: res)
  end.

Definition Request_GetIdentityStrings (r : Request) : Outcome (list string) :=
  GetIdentityStrings_loop (Request_Identities r).

(** The loop of [CheckRequest] over [r.Identities], at index [i]. *)
Fixpoint CheckRequest_loop (digest : bytes) (signatures : list bytes)
    (i : nat) (ids : list (option Identity)) : Outcome (option error) :=
  match ids with
  | [] => Returns None
  | id :: rest =>
      sig ← index signatures (Z.of_nat i);
      x ← deref id;
      err ← Identity_Verify x digest sig;
      match err with
      | Some e => Returns (Some e)
      | None => CheckRequest_loop digest signatures (S i) rest
      end
  end.

Definition Darc_CheckRequest (d : Darc) (r : Request) : Outcome (option error) :=
  if negb (bytes_Equal (Darc_GetID d) (Request_ID r))
  then Returns (Some (fmt_Errorf "darc id mismatch" []))
  else if negb (Rules_Contains (Darc_Rules d) (Request_Action r))
  then Returns (Some (fmt_Errorf "%v does not exist"
                        [arg_string (Request_Action r)]))
  else
    let '(digest, err) := Request_Hash r in
    match err with
    | Some e => Returns (Some e)
    | None =>
        err ← CheckRequest_loop (slice_bytes digest) (Request_Signatures r) 0
                (Request_Identities r);
        match err with
        | Some e => Returns (Some e)
        | None =>
            validIDs ← Request_GetIdentityStrings r;
            '(ok, err) ← DefaultParser
                           (Rules_get (Darc_Rules d) (Request_Action r)) validIDs;
            match err with
            | Some e => Returns (Some e)
            | None =>
                if negb ok
                then Returns (Some (fmt_Errorf
                  "expression '%s' for the keys '%v' evaluated to false"
                  [arg_bytes (Rules_get (Darc_Rules d) (Request_Action r));
                   arg_strings validIDs]))
                else Returns None
            end
        end
    end.

End darc.

(** ** Vocabulary of the properties *)

Section vocabulary.
Context `{Suite} `{Engine}.

(** The evaluator reads its oracle through its answers only. *)
Definition Engine_extensional : Prop :=
  ∀ (o1 o2 : string → Outcome bool) (expr : Expr),
    (∀ s, o1 s = o2 s) →
    expression_ParseExpr o1 expr = expression_ParseExpr o2 expr.

(** [ids] satisfy the evolution rule of [x], as [DefaultParser] decides it. *)
Definition admits (ids : list string) (x : Darc) : Prop :=
  DefaultParser (Rules_GetEvolutionExpr (Darc_Rules x)) ids
  = Returns (true, None).

(** Some darc of [path], at or after one whose identity string is [s],
    admits [ids]. *)
Definition admitted_from (ids : list string) (s : string)
    (path : list (option Darc)) : Prop :=
  ∃ pre x post y,
    path = pre ++ Some x :: post
    ∧ Darc_GetIdentityString x = s
    ∧ Some y ∈ Some x :: post
    ∧ admits ids y.

(** The same with the darc of identity string [s] left out, which is how
    the specification words the scan: "starting only after the element whose
    identity string equals [s]". *)
Definition admitted_after (ids : list string) (s : string)
    (path : list (option Darc)) : Prop :=
  ∃ pre x post y,
    path = pre ++ Some x :: post
    ∧ Darc_GetIdentityString x = s
    ∧ Some y ∈ post
    ∧ admits ids y.


End vocabulary.

(** ** The rest of the package (darc.go) *)

Section package.
Context `{Suite} `{Engine}.

(** [copyBytes]: [make([]byte, len(a))] is never nil, also for a nil [a]. *)
Definition copyBytes (a : slice) : slice := Some (slice_bytes a).

(** [Copy] when the [range] over the rules yields the entries in the order
    [entries]. *)
Definition Darc_Copy_ranging (entries : list (string * Expr)) (d : Darc)
  : Darc :=
  let newRules :=
    fold_left (fun (m : Rules) kv => <[kv.1 := kv.2]> m) entries
      (∅ : Rules) in
  {| Darc_Version := Darc_Version d;
     Darc_Description := slice_bytes (copyBytes (Some (Darc_Description d)));
     Darc_BaseID := copyBytes (Darc_BaseID d);
     Darc_Rules := newRules;
     Darc_Signature := None |}.

Definition Darc_Copy (d : Darc) : Darc :=
  Darc_Copy_ranging (map_to_list (Darc_Rules d)) d.

(** [EvolveOnline]: its body is commented out. *)
Definition Darc_EvolveOnline (d : Darc) (prevd : option Darc)
    (prevOwner : option Signer) : Darc * Outcome (option error) :=
  (d, Returns None).

Definition ID_IsNull (di : ID) : bool :=
  match di with
  | None => true
  | Some _ => false
  end.

Definition ID_Equal (di other : ID) : bool := bytes_Equal di other.

(** [GetPrivate]: [Signer.Type] is 1, 2 or -1. *)
Definition Signer_GetPrivate (s : Signer) : option Scalar * option error :=
  match Signer_Ed25519 s with
  | Some eds => (Some (SignerEd25519_Secret eds), None)
  | None =>
      match Signer_X509EC s with
      | Some _ => (None, Some (errors_New "signer lacks a private key"))
      | None => (None, Some (errors_New "signer is of unknown type"))
      end
  end.

(** [bytes.Compare(a, b) == 0] *)
Definition IdentityDarc_Equal (idd idd2 : IdentityDarc) : bool :=
  bool_decide (slice_bytes (IdentityDarc_ID idd)
               = slice_bytes (IdentityDarc_ID idd2)).

Definition IdentityX509EC_Equal (idkc idkc2 : IdentityX509EC) : bool :=
  bool_decide (IdentityX509EC_Public idkc = IdentityX509EC_Public idkc2).

Section identity_equal.
(** [p.Equal(q)] of [kyber.Point], an interface: what the call does, which
    for a nil point is a panic. *)
Variable Point_Equal : Point -> Point -> Outcome bool.

Definition IdentityEd25519_Equal (ide ide2 : IdentityEd25519)
  : Outcome bool :=
  Point_Equal (IdentityEd25519_Point ide) (IdentityEd25519_Point ide2).

(** [Identity.Equal].  Both identities are pointers: [id.Type()] and
    [id2.Type()] read their fields, and so do the calls on the fields of
    [id2]. *)
Definition Identity_Equal (id id2 : option Identity) : Outcome bool :=
  x ← deref id;
  x2 ← deref id2;
  if negb (Identity_Type x =? Identity_Type x2)%Z then Returns false
  else
    match Identity_switch x with
    | kind_Darc idd =>
        idd2 ← deref (Identity_Darc x2);
        Returns (IdentityDarc_Equal idd idd2)
    | kind_Ed25519 ide =>
        ide2 ← deref (Identity_Ed25519 x2);
        IdentityEd25519_Equal ide ide2
    | kind_X509EC idkc =>
        idkc2 ← deref (Identity_X509EC x2);
        Returns (IdentityX509EC_Equal idkc idkc2)
    | kind_none => Returns false
    end.

End identity_equal.

Section init_rules.
(** [expression.InitOrExpr], of the package that is not among the sources. *)
Variable InitOrExpr : list string -> Expr.



End init_rules.

(** The loop of [NewRequest] over the signers: the identities and
    signatures it fills in, or the error of the first signer that fails. *)
Fixpoint NewRequest_loop (digest : slice) (signers : list (option Signer))
  : Outcome (list (option Identity) * list bytes * option error) :=
  match signers with
  | [] => Returns ([], [], None)
  | signer :: rest =>
      sg ← deref signer;
      let identity := Signer_Identity sg in
      let '(sig, err) := Signer_Sign sg digest in
      match err with
      | Some e => Returns ([], [], Some e)
      | None =>
          '(ids, sigs, err) ← NewRequest_loop digest rest;
          match err with
          | Some e => Returns ([], [], Some e)
          | None => Returns (identity :: ids, sig :: sigs, None)
          end
      end
  end.

Definition NewRequest (darcID : ID) (action : Action) (msg : bytes)
    (signers : list (option Signer)) : Outcome (option Request * option error) :=
  let r := {| Request_ID := darcID;
              Request_Action := action;
              Request_Msg := msg;
              Request_Identities := [];
              Request_Signatures := [] |} in
  let '(digest, err) := Request_Hash r in
  match err with
  | Some e => Returns (None, Some e)
  | None =>
      '(ids, sigs, err) ← NewRequest_loop digest signers;
      match err with
      | Some e => Returns (None, Some e)
      | None =>
          Returns (Some {| Request_ID := darcID;
                           Request_Action := action;
                           Request_Msg := msg;
                           Request_Identities := ids;
                           Request_Signatures := sigs |}, None)
      end
  end.

(** A sequence of calls of the methods of [Rules] that take an action. *)
Inductive Rules_call :=
| call_AddRule (a : Action) (expr : Expr)
| call_UpdateRule (a : Action) (expr : Expr)
| call_DeleteRules (a : Action).

Definition Rules_do (r : Rules) (c : Rules_call) : Rules :=
  match c with
  | call_AddRule a expr => (Rules_AddRule r a expr).1
  | call_UpdateRule a expr => (Rules_UpdateRule r a expr).1
  | call_DeleteRules a => (Rules_DeleteRules r a).1
  end.

(** The path to hand to [Evolve] for a successor of [d]: the path by which
    [d] itself is verified, if it is not a genesis darc, and then [d]. *)
Definition Darc_chain (d : Darc) : list (option Darc) :=
  (if (Darc_Version d =? 0)%Z then []
   else match Darc_Signature d with
        | Some s => Signature_Path s
        | None => []
        end) ++ [Some d].

(** The value of a hex digit. *)
Definition unhex_digit (c : ascii) : N :=
  let n := N_of_ascii c in
  if (n <? 58)%N then (n - 48)%N else (n - 87)%N.

End package.

(** ** Elections (package [lib], election.go)

    The types of the skipchain and of the transactions are declared in files
    that are not among the sources; they are taken here with the fields that
    the functions below read.  The skipchain client and [UnmarshalTransaction]
    are parameters; a fetch is a function of the block ID. *)

Module lib.
Section election.

Variables Ballot Mix Partial : Type.
(** [ballot.User] *)
Variable Ballot_User : Ballot -> Z.

Definition SkipBlockID := bytes.

Record Transaction := {
  Transaction_Ballot : option Ballot;
  Transaction_Mix : option Mix;
  Transaction_Partial : option Partial;
  Transaction_User : Z
}.

Record ForwardLink := { ForwardLink_To : SkipBlockID }.

Record SkipBlock := {
  SkipBlock_Data : bytes;
  SkipBlock_ForwardLink : list (option ForwardLink);
  SkipBlock_Hash : SkipBlockID
}.

(** The fields of [Election] that the methods below read. *)
Record Election := {
  Election_Creator : Z;
  Election_Users : list Z;
  Election_ID : SkipBlockID;
  Election_Voted : SkipBlockID
}.

Record Box := { Box_Ballots : list Ballot }.

Variable UnmarshalTransaction : bytes -> option Transaction.
(** [client.GetSingleBlockByIndex(e.Roster, id, index)] *)
Variable GetSingleBlockByIndex :
  SkipBlockID -> Z -> option SkipBlock * option error.
(** [client.GetSingleBlock(e.Roster, id)] *)
Variable GetSingleBlock : SkipBlockID -> option SkipBlock * option error.
(** [s.GetDB().GetByID(id)], of a service that is not nil *)
Variable GetByID : SkipBlockID -> option SkipBlock.

(** [l[i], l[j] = l[j], l[i]], for indices within the list. *)
Definition swap {A} (l : list A) (i j : nat) : list A :=
  match l !! i, l !! j with
  | Some a, Some b => <[j := a]> (<[i := b]> l)
  | _, _ => l
  end.

(** [for i, j := 0, len(l)-1; i < j; i, j = i+1, j-1 { swap }]; the loop
    makes at most [len(l)] rounds, which is the fuel. *)
Fixpoint reverse_loop {A} (fuel : nat) (i j : Z) (l : list A) : list A :=
  match fuel with
  | O => l
  | S fuel' =>
      if (i <? j)%Z
      then reverse_loop fuel' (i + 1) (j - 1) (swap l (Z.to_nat i) (Z.to_nat j))
      else l
  end.

Definition reverse_in_place {A} (l : list A) : list A :=
  reverse_loop (length l) 0 (len l - 1) l.

(** The loop that keeps the first ballot of each user it meets; [mapping] is
    the [map[uint32]bool]. *)
Fixpoint unique_loop (mapping : gmap Z bool) (unique : list Ballot)
    (ballots : list Ballot) : list Ballot :=
  match ballots with
  | [] => unique
  | ballot :: rest =>
      match mapping !! Ballot_User ballot with
      | Some _ => unique_loop mapping unique rest
      | None =>
          unique_loop (<[Ballot_User ballot := true]> mapping)
            (unique ++ [ballot]) rest
      end
  end.

(** What [Box] makes of the ballots it has collected. *)
Definition Box_unique (ballots : list Ballot) : list Ballot :=
  let ballots := reverse_in_place ballots in
  let unique := unique_loop ∅ [] ballots in
  reverse_in_place unique.

(** The loop of [Box] over the chain.  [fuel] bounds the blocks visited: a
    chain whose links go round makes the Go loop run for ever. *)
Fixpoint Box_loop (fuel : nat) (block : option SkipBlock)
    (ballots : list Ballot) : Outcome (list Ballot) :=
  match fuel with
  | O => OutOfFuel
  | S fuel' =>
      b ← deref block;
      let transaction := UnmarshalTransaction (SkipBlock_Data b) in
      let ballots :=
        match transaction with
        | Some t =>
            match Transaction_Ballot t with
            | Some ballot => ballots ++ [ballot]
            | None => ballots
            end
        | None => ballots
        end in
      if (len (SkipBlock_ForwardLink b) <=? 0)%Z then Returns ballots
      else
        link ← index (SkipBlock_ForwardLink b) 0;
        fl ← deref link;
        let '(block, _) := GetSingleBlock (ForwardLink_To fl) in
        Box_loop fuel' block ballots
  end.

Definition Election_Box (fuel : nat) (e : Election)
  : Outcome (option Box * option error) :=
  let '(block, err) := GetSingleBlockByIndex (Election_ID e) 0 in
  match err with
  | Some e => Returns (None, Some e)
  | None =>
      ballots ← Box_loop fuel block [];
      Returns (Some {| Box_Ballots := Box_unique ballots |}, None)
  end.

(** The loop of [Partials]: it stops at a nil block and at a failed fetch. *)
Fixpoint Partials_loop (fuel : nat) (block : option SkipBlock)
    (partials : list Partial) : Outcome (list Partial) :=
  match fuel with
  | O => OutOfFuel
  | S fuel' =>
      match block with
      | None => Returns partials
      | Some b =>
          let transaction := UnmarshalTransaction (SkipBlock_Data b) in
          let partials :=
            match transaction with
            | Some t =>
                match Transaction_Partial t with
                | Some partial => partials ++ [partial]
                | None => partials
                end
            | None => partials
            end in
          if (len (SkipBlock_ForwardLink b) <=? 0)%Z then Returns partials
          else
            link ← index (SkipBlock_ForwardLink b) 0;
            fl ← deref link;
            let '(block, err) := GetSingleBlock (ForwardLink_To fl) in
            match err with
            | Some _ => Returns partials
            | None => Partials_loop fuel' block partials
            end
      end
  end.

Definition Election_Partials (fuel : nat) (e : Election)
  : Outcome (list Partial * option error) :=
  let '(block, err) := GetSingleBlockByIndex (Election_ID e) 0 in
  match err with
  | Some e => Returns ([], Some e)
  | None =>
      partials ← Partials_loop fuel block [];
      Returns (partials, None)
  end.

(** The loop of [Mixes], which is the loop of [Box] on the mixes. *)
Fixpoint Mixes_loop (fuel : nat) (block : option SkipBlock)
    (mixes : list Mix) : Outcome (list Mix) :=
  match fuel with
  | O => OutOfFuel
  | S fuel' =>
      b ← deref block;
      let transaction := UnmarshalTransaction (SkipBlock_Data b) in
      let mixes :=
        match transaction with
        | Some t =>
            match Transaction_Mix t with
            | Some mix => mixes ++ [mix]
            | None => mixes
            end
        | None => mixes
        end in
      if (len (SkipBlock_ForwardLink b) <=? 0)%Z then Returns mixes
      else
        link ← index (SkipBlock_ForwardLink b) 0;
        fl ← deref link;
        let '(block, _) := GetSingleBlock (ForwardLink_To fl) in
        Mixes_loop fuel' block mixes
  end.

Definition Election_Mixes (fuel : nat) (e : Election)
  : Outcome (list Mix * option error) :=
  let '(block, err) := GetSingleBlockByIndex (Election_ID e) 0 in
  match err with
  | Some e => Returns ([], Some e)
  | None =>
      mixes ← Mixes_loop fuel block [];
      Returns (mixes, None)
  end.

(** [e.Voted = voted] *)
Definition Election_set_Voted (e : Election) (voted : SkipBlockID)
  : Election :=
  {| Election_Creator := Election_Creator e;
     Election_Users := Election_Users e;
     Election_ID := Election_ID e;
     Election_Voted := voted |}.

(** The loop of [setVoted].  It writes [e.Voted] as it goes, so the election
    is handed on, and handed back also when the loop panics: the transaction
    and the block are read through their pointers without a test. *)
Fixpoint setVoted_loop (fuel : nat) (user : Z) (block : option SkipBlock)
    (e : Election) : Election * Outcome unit :=
  match fuel with
  | O => (e, OutOfFuel)
  | S fuel' =>
      match block with
      | None => (e, Panics NilDereference)
      | Some b =>
          match UnmarshalTransaction (SkipBlock_Data b) with
          | None => (e, Panics NilDereference)
          | Some transaction =>
              let e :=
                if bool_decide (is_Some (Transaction_Ballot transaction))
                   && (Transaction_User transaction =? user)%Z
                then Election_set_Voted e (SkipBlock_Hash b)
                else e in
              if bool_decide (is_Some (Transaction_Mix transaction))
                 || bool_decide (is_Some (Transaction_Partial transaction))
              then (e, Returns tt)
              else if (len (SkipBlock_ForwardLink b) =? 0)%Z
              then (e, Returns tt)
              else
                match index (SkipBlock_ForwardLink b) 0 with
                | Returns (Some fl) =>
                    setVoted_loop fuel' user (GetByID (ForwardLink_To fl)) e
                | Returns None => (e, Panics NilDereference)
                | Panics p => (e, Panics p)
                | OutOfFuel => (e, OutOfFuel)
                end
          end
      end
  end.

Definition Election_setVoted (fuel : nat) (e : Election) (user : Z)
  : Election * Outcome (option error) :=
  match GetByID (Election_ID e) with
  | None => (e, Returns (Some (errors_New "Election skipchain empty")))
  | Some b =>
      let '(e, o) := setVoted_loop fuel user (Some b) e in
      (e, _ ← o; Returns None)
  end.

Definition Election_IsUser (e : Election) (user : Z) : bool :=
  existsb (fun u => (u =? user)%Z) (Election_Users e).

Definition Election_IsCreator (e : Election) (user : Z) : bool :=
  (user =? Election_Creator e)%Z.

(** The ballots of a list that no later ballot of the same user follows. *)
Fixpoint last_ballots (ballots : list Ballot) : list Ballot :=
  match ballots with
  | [] => []
  | b :: rest =>
      if bool_decide (Ballot_User b ∈ Ballot_User <$> rest)
      then last_ballots rest
      else b :: last_ballots rest
  end.

(** A chain as the client serves it: each block but the last links through
    its first forward link to the next, which the fetch by that link hands
    out without error; the last has no forward link. *)
Fixpoint served (blocks : list SkipBlock) : Prop :=
  match blocks with
  | [] => False
  | b :: rest =>
      match rest with
      | [] => SkipBlock_ForwardLink b = []
      | b' :: _ =>
          (∃ fl links, SkipBlock_ForwardLink b = Some fl :: links
             ∧ GetSingleBlock (ForwardLink_To fl) = (Some b', None))
          ∧ served rest
      end
  end.

(** The ballots, respectively partials, in the transactions of blocks. *)
Definition ballots_of (blocks : list SkipBlock) : list Ballot :=
  omap (fun b => UnmarshalTransaction (SkipBlock_Data b)
                 ≫= Transaction_Ballot) blocks.

Definition partials_of (blocks : list SkipBlock) : list Partial :=
  omap (fun b => UnmarshalTransaction (SkipBlock_Data b)
                 ≫= Transaction_Partial) blocks.

Definition mixes_of (blocks : list SkipBlock) : list Mix :=
  omap (fun b => UnmarshalTransaction (SkipBlock_Data b)
                 ≫= Transaction_Mix) blocks.

(** A chain as the database holds it: each block but the last links through
    its first forward link to the next, which is in the database; the last
    has no forward link. *)
Fixpoint stored (blocks : list SkipBlock) : Prop :=
  match blocks with
  | [] => False
  | b :: rest =>
      match rest with
      | [] => SkipBlock_ForwardLink b = []
      | b' :: _ =>
          (∃ fl links, SkipBlock_ForwardLink b = Some fl :: links
             ∧ GetByID (ForwardLink_To fl) = Some b')
          ∧ stored rest
      end
  end.

(** The block carries a mix or a partial: the vote is over. *)
Definition closes (b : SkipBlock) : bool :=
  match UnmarshalTransaction (SkipBlock_Data b) with
  | Some t =>
      bool_decide (is_Some (Transaction_Mix t))
      || bool_decide (is_Some (Transaction_Partial t))
  | None => false
  end.

(** The blocks up to the first that closes the vote, that one included. *)
Fixpoint voting_blocks (blocks : list SkipBlock) : list SkipBlock :=
  match blocks with
  | [] => []
  | b :: rest => if closes b then [b] else b :: voting_blocks rest
  end.

(** The block carries a ballot in a transaction of [user]. *)
Definition votes (user : Z) (b : SkipBlock) : bool :=
  match UnmarshalTransaction (SkipBlock_Data b) with
  | Some t =>
      bool_decide (is_Some (Transaction_Ballot t))
      && (Transaction_User t =? user)%Z
  | None => false
  end.

(** The hash of the last block in which [user] votes while the vote is
    open. *)
Definition last_vote (user : Z) (blocks : list SkipBlock)
  : option SkipBlockID :=
  last (SkipBlock_Hash <$> filter (fun b => votes user b = true)
                             (voting_blocks blocks)).

End election.

Arguments Transaction_Ballot {Ballot Mix Partial} t.
Arguments Transaction_Mix {Ballot Mix Partial} t.
Arguments Transaction_Partial {Ballot Mix Partial} t.
Arguments Transaction_User {Ballot Mix Partial} t.
Arguments Box_Ballots {Ballot} b.
Arguments unique_loop {Ballot} Ballot_User mapping unique ballots.
Arguments Box_unique {Ballot} Ballot_User ballots.
Arguments Box_loop {Ballot Mix Partial} UnmarshalTransaction GetSingleBlock
  fuel block ballots.
Arguments Election_Box {Ballot Mix Partial} Ballot_User UnmarshalTransaction
  GetSingleBlockByIndex GetSingleBlock fuel e.
Arguments Partials_loop {Ballot Mix Partial} UnmarshalTransaction
  GetSingleBlock fuel block partials.
Arguments Election_Partials {Ballot Mix Partial} UnmarshalTransaction
  GetSingleBlockByIndex GetSingleBlock fuel e.
Arguments last_ballots {Ballot} Ballot_User ballots.
Arguments ballots_of {Ballot Mix Partial} UnmarshalTransaction blocks.
Arguments partials_of {Ballot Mix Partial} UnmarshalTransaction blocks.
Arguments Mixes_loop {Ballot Mix Partial} UnmarshalTransaction GetSingleBlock
  fuel block mixes.
Arguments Election_Mixes {Ballot Mix Partial} UnmarshalTransaction
  GetSingleBlockByIndex GetSingleBlock fuel e.
Arguments setVoted_loop {Ballot Mix Partial} UnmarshalTransaction GetByID
  fuel user block e.
Arguments Election_setVoted {Ballot Mix Partial} UnmarshalTransaction GetByID
  fuel e user.
Arguments mixes_of {Ballot Mix Partial} UnmarshalTransaction blocks.
Arguments closes {Ballot Mix Partial} UnmarshalTransaction b.
Arguments voting_blocks {Ballot Mix Partial} UnmarshalTransaction blocks.
Arguments votes {Ballot Mix Partial} UnmarshalTransaction user b.
Arguments last_vote {Ballot Mix Partial} UnmarshalTransaction user blocks.

End lib.

(** ** An instance of the collaborators

    Stand-ins that compute, for running the functions above on concrete
    darcs: a 32-byte digest that is no hash, a signature scheme whose public
    and secret keys coincide, and an evaluator of the disjunctions
    [a | b | c] that [InitOrExpr] builds.  Theorems never depend on them;
    they serve the closed examples. *)

Module demo.

Definition digest (n : nat) (m : bytes) : bytes := take n (m ++ replicate n x00).

Definition sign (secret : string) (msg : bytes) : bytes * option error :=
  (list_byte_of_string secret ++ msg, None).

Definition verify (point : string) (msg sig : bytes) : option error :=
  if bool_decide (sig = list_byte_of_string point ++ msg) then None
  else Some (errors_New "schnorr: invalid signature").

#[export] Instance suite : Suite := {|
  sha256_Sum := digest 32;
  sha512_Sum384 := digest 48;
  Point := string;
  Scalar := string;
  Point_String := fun p => p;
  schnorr_Sign := sign;
  schnorr_Verify := verify;
  ecdsa_Key := bytes;
  x509_ParsePKIXPublicKey := fun der =>
    match der with
    | [] => (other_PublicKey, Some (errors_New "x509: malformed key"))
    | _ :: _ => (ecdsa_PublicKey der, None)
    end;
  asn1_Unmarshal := fun s => ((Z.of_nat (length s), 0%Z), None);
  ecdsa_Verify := fun k hash r s => bool_decide (r = Z.of_nat (length k))
|}.

(** The terms of [a | b | c]; blanks are dropped. *)
Fixpoint terms (acc : string) (s : string) : list string :=
  match s with
  | EmptyString => [acc]
  | String c rest =>
      if Ascii.eqb c "|" then acc :: terms EmptyString rest
      else if Ascii.eqb c " " then terms acc rest
      else terms (acc +:+ String c EmptyString) rest
  end.

Fixpoint any (oracle : string -> Outcome bool) (ts : list string)
  : Outcome bool :=
  match ts with
  | [] => Returns false
  | t :: rest =>
      b ← oracle t;
      b' ← any oracle rest;
      Returns (b || b')
  end.

Definition ParseExpr (oracle : string -> Outcome bool) (expr : Expr)
  : Outcome (bool * option error) :=
  let ts := terms EmptyString (string_of_list_byte expr) in
  if existsb (String.eqb EmptyString) ts
  then Returns (false, Some (errors_New "parse error"))
  else b ← any oracle ts; Returns (b, None).

#[export] Instance engine : Engine := {| expression_ParseExpr := ParseExpr |}.

Definition expr_of (s : string) : Expr := list_byte_of_string s.

(** A key pair and its signer. *)
Definition alice : Signer :=
  {| Signer_Ed25519 := Some {| SignerEd25519_Point := "alice";
                                SignerEd25519_Secret := "alice" |};
     Signer_X509EC := None |}.

Definition bob : Signer :=
  {| Signer_Ed25519 := Some {| SignerEd25519_Point := "bob";
                                SignerEd25519_Secret := "bob" |};
     Signer_X509EC := None |}.

(** A genesis darc that [alice] may evolve, and its successor. *)
Definition d0 : Darc :=
  NewDarc {[ evolve := expr_of "ed25519:alice" ]} (list_byte_of_string "d0").

Definition d1_draft : Darc :=
  NewDarc {[ evolve := expr_of "ed25519:bob" ]} (list_byte_of_string "d1").

Definition d1 : Darc := (Darc_Evolve d1_draft [Some d0] (Some alice)).1.

(** The store of a series whose latest darc is [d1]: asked for the series by
    the identity string of its base [d0], it hands out [d1]. *)
Definition latest (s : string) : option Darc :=
  if String.eqb s (Darc_GetIdentityString d0) then Some d1 else None.

Definition alice_identity : Identity := NewIdentityEd25519 "alice".

Definition alice_ids : list string := [Identity_String alice_identity].

(** A darc with two rules. *)
Definition two_rules : Rules :=
  <[ "read" := expr_of "ed25519:bob" ]> {[ evolve := expr_of "ed25519:alice" ]}.

Definition d_two : Darc := NewDarc two_rules (list_byte_of_string "two").

(** A request on [d0] signed by [alice], and the same without signature. *)
Definition request (signatures : list bytes) : Request :=
  {| Request_ID := Darc_GetID d0;
     Request_Action := evolve;
     Request_Msg := list_byte_of_string "hello";
     Request_Identities := [Signer_Identity alice];
     Request_Signatures := signatures |}.

Definition signed_request : Request :=
  request [(Signer_Sign alice (Request_Hash (request [])).1).1].

Definition unsigned_request : Request := request [].

(** The same collaborators with an injective stand-in for SHA-256. *)
Definition suite_inj : Suite := {|
  sha256_Sum := fun m => m;
  sha512_Sum384 := digest 48;
  Point := string;
  Scalar := string;
  Point_String := fun p => p;
  schnorr_Sign := sign;
  schnorr_Verify := verify;
  ecdsa_Key := bytes;
  x509_ParsePKIXPublicKey := fun der => (ecdsa_PublicKey der, None);
  asn1_Unmarshal := fun s => ((Z.of_nat (length s), 0%Z), None);
  ecdsa_Verify := fun k hash r s => bool_decide (r = Z.of_nat (length k))
|}.



End demo.

(** ** Further inputs for the closed instances

    A third darc of the series of [demo], darcs under an injective digest,
    and a small election chain with a client that serves it. *)

Module scenario.
Import demo.

(** The successor of [d1], which [bob] may evolve. *)
Definition d2_draft : Darc :=
  NewDarc {[ evolve := expr_of "ed25519:alice | ed25519:bob" ]}
    (list_byte_of_string "d2").

Definition d2 : Darc := (Darc_Evolve d2_draft (Darc_chain d1) (Some bob)).1.

Definition bob_identity : Identity := NewIdentityEd25519 "bob".

(** A darc evolved from [d1] over a path that leaves out [d0]. *)
Definition d2_short : Darc := (Darc_Evolve d2_draft [Some d1] (Some bob)).1.


(** The signature that [alice] makes for [d1] over the path [d0]. *)
Definition d1_signature : Signature :=
  {| Signature_Signature :=
       (Signer_Sign alice
          (hashAll [slice_bytes (Darc_GetID d1);
                    slice_bytes (Darc_GetID d0)]).1).1;
     Signature_Signer := alice_identity;
     Signature_Path := [Some d0] |}.

(** Equality of the points of [suite]. *)
Definition Point_Equal (p q : string) : Outcome bool :=
  Returns (String.eqb p q).

(** The collaborators of [demo] with a parser of keys that knows a second
    algorithm: an encoding that begins with the byte 1 is a key, but no
    ECDSA key. *)
Definition suite_keys : Suite := {|
  sha256_Sum := digest 32;
  sha512_Sum384 := digest 48;
  Point := string;
  Scalar := string;
  Point_String := fun p => p;
  schnorr_Sign := sign;
  schnorr_Verify := verify;
  ecdsa_Key := bytes;
  x509_ParsePKIXPublicKey := fun der =>
    match der with
    | [] => (other_PublicKey, Some (errors_New "x509: malformed key"))
    | b :: _ =>
        if bool_decide (b = x01) then (other_PublicKey, None)
        else (ecdsa_PublicKey der, None)
    end;
  asn1_Unmarshal := fun s => ((Z.of_nat (length s), 0%Z), None);
  ecdsa_Verify := fun k hash r s => bool_decide (r = Z.of_nat (length k))
|}.

(** Calls on a set of rules, among them some that name [_evolve]. *)
Definition calls : list Rules_call :=
  [ call_DeleteRules evolve;
    call_DeleteRules "read";
    call_UpdateRule evolve (expr_of "ed25519:bob");
    call_AddRule "write" (expr_of "ed25519:bob");
    call_AddRule evolve (expr_of "ed25519:bob") ].

(** Darcs under the injective stand-in for SHA-256. *)
Definition e0 : @Darc suite_inj :=
  @NewDarc suite_inj {[ evolve := expr_of "ed25519:alice" ]}
    (list_byte_of_string "e0").

Definition alice_inj : @Signer suite_inj :=
  {| Signer_Ed25519 := Some {| SignerEd25519_Point := "alice" : @Point suite_inj;
                                SignerEd25519_Secret := "alice" : @Scalar suite_inj |};
     Signer_X509EC := None |}.

Definition e1_draft : @Darc suite_inj :=
  @NewDarc suite_inj {[ evolve := expr_of "ed25519:alice" ]}
    (list_byte_of_string "e1").

Definition e1 : @Darc suite_inj :=
  (@Darc_Evolve suite_inj e1_draft [Some e0] (Some alice_inj)).1.

(** An election chain: the block of the election, three ballots of which the
    first and the last are of user 1, a mix and a partial.  The data of a
    block is a tag followed by the fields of its transaction. *)
Definition Ballot : Type := Z * Z.
Definition Ballot_User (b : Ballot) : Z := b.1.

Definition byte_value (b : byte) : Z := Z.of_N (Byte.to_N b).

Definition transaction (ballot : option Ballot) (mix partial : option Z)
    (user : Z) : lib.Transaction Ballot Z Z :=
  {| lib.Transaction_Ballot := ballot;
     lib.Transaction_Mix := mix;
     lib.Transaction_Partial := partial;
     lib.Transaction_User := user |}.

Definition UnmarshalTransaction (data : bytes)
  : option (lib.Transaction Ballot Z Z) :=
  match data with
  | [tag] =>
      if bool_decide (tag = x00) then Some (transaction None None None 0)
      else None
  | [tag; v] =>
      if bool_decide (tag = x02)
      then Some (transaction None (Some (byte_value v)) None 0)
      else if bool_decide (tag = x03)
      then Some (transaction None None (Some (byte_value v)) 0)
      else None
  | [tag; u; c] =>
      if bool_decide (tag = x01)
      then Some (transaction (Some (byte_value u, byte_value c)) None None
                   (byte_value u))
      else None
  | _ => None
  end.

Definition block (data : bytes) (hash : byte) (next : list byte)
  : lib.SkipBlock :=
  {| lib.SkipBlock_Data := data;
     lib.SkipBlock_ForwardLink :=
       (fun to => Some {| lib.ForwardLink_To := [to] |}) <$> next;
     lib.SkipBlock_Hash := [hash] |}.

Definition b0 := block [x00] x00 [x01].
Definition b1 := block [x01; x01; x0a] x01 [x02].
Definition b2 := block [x01; x02; x14] x02 [x03].
Definition b3 := block [x01; x01; x0b] x03 [x04].
Definition b4 := block [x02; x05] x04 [x05].
Definition b5 := block [x03; x07] x05 [].

Definition chain : list lib.SkipBlock := [b0; b1; b2; b3; b4; b5].

Definition GetSingleBlock (id : lib.SkipBlockID)
  : option lib.SkipBlock * option error :=
  match list_find (fun b => lib.SkipBlock_Hash b = id) chain with
  | Some (_, b) => (Some b, None)
  | None => (None, Some (errors_New "no such block"))
  end.

Definition GetSingleBlockByIndex (genesis : lib.SkipBlockID) (i : Z)
  : option lib.SkipBlock * option error :=
  if bool_decide (genesis = [x00])
  then match chain !! Z.to_nat i with
       | Some b => (Some b, None)
       | None => (None, Some (errors_New "no such block"))
       end
  else (None, Some (errors_New "no such chain")).

Definition GetByID (id : lib.SkipBlockID) : option lib.SkipBlock :=
  (GetSingleBlock id).1.

Definition election : lib.Election :=
  {| lib.Election_Creator := 1;
     lib.Election_Users := [1; 2];
     lib.Election_ID := [x00];
     lib.Election_Voted := [] |}.

End scenario.

(** * Properties *)

(** ** Rules *)

Section rules_properties.
Implicit Types (r : Rules) (a b : Action) (e : Expr).

Lemma isEvolution_true a : isEvolution a = true ↔ a = evolve.
Proof. unfold isEvolution. case_decide; naive_solver. Qed.

Lemma Rules_updateRule_spec r a e :
  let '(r', err) := Rules_updateRule r a e in
  (is_Some err ↔ r !! a = None)
  ∧ (is_Some err → r' = r)
  ∧ (err = None → r' !! a = Some e ∧ ∀ b, b ≠ a → r' !! b = r !! b).
Proof.
  unfold Rules_updateRule. destruct (r !! a) as [old|] eqn:Hra.
  - split_and!.
    + split; [intros [? [=]] | done].
    + intros [? [=]].
    + intros _. split; [apply lookup_insert_eq|].
      intros b Hb. by apply lookup_insert_ne.
  - split_and!; [naive_solver | done | done].
Qed.

(** The methods on an allocated map: [AddRule] fails exactly on a present
    action and otherwise inserts; [UpdateRule] and [DeleteRules] fail exactly
    on [_evolve] or an absent action and otherwise replace, respectively
    remove, the entry; [UpdateEvolution] replaces the entry of [_evolve] when
    there is one.  A failing call leaves the rules as they were, and a
    successful one changes the entry of the named action only. *)
Lemma Rules_operations_allocated r a e :
  (let '(r', err) := Rules_AddRule r a e in
   (is_Some err ↔ is_Some (r !! a))
   ∧ (is_Some err → r' = r)
   ∧ (err = None → r' !! a = Some e ∧ ∀ b, b ≠ a → r' !! b = r !! b))
  ∧ (let '(r', err) := Rules_UpdateRule r a e in
     (is_Some err ↔ a = evolve ∨ r !! a = None)
     ∧ (is_Some err → r' = r)
     ∧ (err = None → r' !! a = Some e ∧ ∀ b, b ≠ a → r' !! b = r !! b))
  ∧ (let '(r', err) := Rules_DeleteRules r a in
     (is_Some err ↔ a = evolve ∨ r !! a = None)
     ∧ (is_Some err → r' = r)
     ∧ (err = None → r' !! a = None ∧ ∀ b, b ≠ a → r' !! b = r !! b))
  ∧ (let '(r', err) := Rules_UpdateEvolution r e in
     (is_Some (r !! evolve) → err = None)
     ∧ (is_Some err → r' = r)
     ∧ (err = None →
        r' !! evolve = Some e ∧ ∀ b, b ≠ evolve → r' !! b = r !! b)).
Proof.
  split_and!.
  - unfold Rules_AddRule. destruct (r !! a) as [old|] eqn:Hra.
    + split_and!; [naive_solver | done | done].
    + split_and!.
      * split; [intros [? [=]] | intros [? [=]]].
      * intros [? [=]].
      * intros _. split; [apply lookup_insert_eq|].
        intros b Hb. by apply lookup_insert_ne.
  - unfold Rules_UpdateRule.
    destruct (isEvolution a) eqn:Hev.
    + apply isEvolution_true in Hev. split_and!; [naive_solver | done | done].
    + assert (a ≠ evolve) as Hne
        by (intros ?%isEvolution_true; congruence).
      pose proof (Rules_updateRule_spec r a e) as Hspec.
      destruct (Rules_updateRule r a e) as [r' err].
      destruct Hspec as (Herr & Hsame & Hok). split_and!; naive_solver.
  - unfold Rules_DeleteRules.
    destruct (isEvolution a) eqn:Hev.
    + apply isEvolution_true in Hev. split_and!; [naive_solver | done | done].
    + assert (a ≠ evolve) as Hne
        by (intros ?%isEvolution_true; congruence).
      destruct (r !! a) as [old|] eqn:Hra.
      * split_and!.
        -- split; [intros [? [=]] | intros [?|[=]]; done].
        -- intros [? [=]].
        -- intros _. split; [apply lookup_delete_eq|].
           intros b Hb. by apply lookup_delete_ne.
      * split_and!; [naive_solver | done | done].
  - unfold Rules_UpdateEvolution.
    pose proof (Rules_updateRule_spec r evolve e) as Hspec.
    destruct (Rules_updateRule r evolve e) as [r' err].
    destruct Hspec as (Herr & Hsame & Hok). split_and!; [|done|done].
    intros [old Hold]. destruct err as [x|]; [|done].
    assert (r !! evolve = None) by (apply Herr; eauto). congruence.
Qed.

(** On an allocated map the methods of a [Rules] value are the functions on
    the map. *)
Lemma RulesValue_allocated (m : Rules) a e :
  RulesValue_AddRule (Some m) a e
  = (Some (Rules_AddRule m a e).1, Returns (Rules_AddRule m a e).2)
  ∧ RulesValue_UpdateRule (Some m) a e
    = (Some (Rules_UpdateRule m a e).1, Returns (Rules_UpdateRule m a e).2)
  ∧ RulesValue_DeleteRules (Some m) a
    = (Some (Rules_DeleteRules m a).1, Returns (Rules_DeleteRules m a).2)
  ∧ RulesValue_UpdateEvolution (Some m) e
    = (Some (Rules_UpdateEvolution m e).1,
       Returns (Rules_UpdateEvolution m e).2)
  ∧ RulesValue_Contains (Some m) a = Rules_Contains m a
  ∧ RulesValue_get (Some m) a = Rules_get m a.
Proof.
  unfold RulesValue_AddRule, RulesValue_UpdateRule, RulesValue_DeleteRules,
    RulesValue_UpdateEvolution, RulesValue_updateRule, RulesValue_Contains,
    RulesValue_get, RulesValue_store, Rules_AddRule, Rules_UpdateRule,
    Rules_DeleteRules, Rules_UpdateEvolution, Rules_updateRule,
    Rules_Contains, Rules_get.
  simpl. destruct (isEvolution a), (m !! a), (m !! evolve); done.
Qed.

(** C6.  On a [Rules] value that refers to an allocated map: [AddRule] fails
    exactly on a present action and otherwise inserts; [UpdateRule] and
    [DeleteRules] fail exactly on [_evolve] or an absent action and otherwise
    replace, respectively remove, the entry; [UpdateEvolution] replaces the
    entry of [_evolve] when there is one; a failing call leaves the rules as
    they were, and a successful one changes the entry of the named action
    only.  On the nil map [AddRule] panics on the assignment, and the three
    others return an error; the value stays nil. *)
Theorem C6_rules_operations (m : Rules) a e :
  (∃ m' err,
     RulesValue_AddRule (Some m) a e = (Some m', Returns err)
     ∧ (is_Some err ↔ is_Some (m !! a))
     ∧ (is_Some err → m' = m)
     ∧ (err = None → m' !! a = Some e ∧ ∀ b, b ≠ a → m' !! b = m !! b))
  ∧ (∃ m' err,
       RulesValue_UpdateRule (Some m) a e = (Some m', Returns err)
       ∧ (is_Some err ↔ a = evolve ∨ m !! a = None)
       ∧ (is_Some err → m' = m)
       ∧ (err = None → m' !! a = Some e ∧ ∀ b, b ≠ a → m' !! b = m !! b))
  ∧ (∃ m' err,
       RulesValue_DeleteRules (Some m) a = (Some m', Returns err)
       ∧ (is_Some err ↔ a = evolve ∨ m !! a = None)
       ∧ (is_Some err → m' = m)
       ∧ (err = None → m' !! a = None ∧ ∀ b, b ≠ a → m' !! b = m !! b))
  ∧ (∃ m' err,
       RulesValue_UpdateEvolution (Some m) e = (Some m', Returns err)
       ∧ (is_Some (m !! evolve) → err = None)
       ∧ (is_Some err → m' = m)
       ∧ (err = None →
          m' !! evolve = Some e ∧ ∀ b, b ≠ evolve → m' !! b = m !! b))
  ∧ RulesValue_AddRule None a e = (None, Panics NilMapAssignment)
  ∧ (∃ err, RulesValue_UpdateRule None a e = (None, Returns (Some err)))
  ∧ (∃ err, RulesValue_DeleteRules None a = (None, Returns (Some err)))
  ∧ (∃ err, RulesValue_UpdateEvolution None e = (None, Returns (Some err))).
Proof.
  destruct (RulesValue_allocated m a e) as (-> & -> & -> & -> & _).
  pose proof (Rules_operations_allocated m a e) as (Hadd & Hupd & Hdel & Hevo).
  destruct (Rules_AddRule m a e) as [m1 err1],
    (Rules_UpdateRule m a e) as [m2 err2],
    (Rules_DeleteRules m a) as [m3 err3],
    (Rules_UpdateEvolution m e) as [m4 err4].
  split_and!; try by eauto.
  - unfold RulesValue_UpdateRule, RulesValue_updateRule.
    destruct (isEvolution a); simpl; eauto.
  - unfold RulesValue_DeleteRules. destruct (isEvolution a); simpl; eauto.
Qed.

End rules_properties.

(** ** Go values: indexing, prefixes *)

Lemma index_last {A} (l : list A) :
  index l (len l - 1) =
  match last l with
  | Some a => Returns a
  | None => Panics IndexOutOfRange
  end.
Proof.
  unfold index, len. destruct l as [|x l]; [done|].
  rewrite last_lookup.
  replace (Z.of_nat (length (x :: l)) - 1)%Z with (Z.of_nat (length l))
    by (simpl; lia).
  destruct (Z.ltb_spec (Z.of_nat (length l)) 0); [lia|].
  by rewrite Nat2Z.id.
Qed.

Lemma index_in_range {A} (l : list A) (i : nat) :
  (i < length l)%nat → ∃ a, index l (Z.of_nat i) = Returns a.
Proof.
  intros Hi. unfold index.
  destruct (Z.ltb_spec (Z.of_nat i) 0); [lia|].
  rewrite Nat2Z.id. destruct (lookup_lt_is_Some_2 l i Hi) as [a ->]. eauto.
Qed.

Lemma len_zero {A} (l : list A) : (len l =? 0)%Z = true ↔ l = [].
Proof.
  unfold len. destruct l; simpl; done.
Qed.

Lemma len_nonzero {A} (l : list A) : l ≠ [] → (len l =? 0)%Z = false.
Proof.
  intros Hl. destruct (len l =? 0)%Z eqn:E; [|done].
  by apply len_zero in E.
Qed.

Lemma prefix_darc_colon s :
  String.prefix "darc:" s = true → String.prefix "darc" s = true.
Proof.
  intros Hp.
  apply String.prefix_correct in Hp. apply String.prefix_correct.
  do 5 (destruct s as [|? s]; [done|]).
  simpl in *. congruence.
Qed.

(** ** Evolution and verification *)

Section darc_properties.
Context `{Suite} `{Engine}.

(** C3.  On an empty path [Evolve] does not return the error
    ["path should not be empty"]: it reads [path[len(path)-1]] before the test
    of the length and panics there, the signature of the receiver already
    cleared. *)
Theorem C3_Evolve_empty_path_panics (d : Darc) (s : option Signer) :
  Darc_Evolve d [] s =
  ({| Darc_Version := Darc_Version d;
      Darc_Description := Darc_Description d;
      Darc_BaseID := Darc_BaseID d;
      Darc_Rules := Darc_Rules d;
      Darc_Signature := None |}, Panics IndexOutOfRange).
Proof. reflexivity. Qed.

(** C9.  When [Evolve] returns an error on a non-empty path, the receiver
    has been written all the same: its signature is nil, its version is that
    of the last darc of the path plus one (in [uint64]) and its base ID is
    the base ID of that darc; description and rules are as before. *)
Theorem C9_Evolve_not_atomic (d d' : Darc) (path : list (option Darc))
    (prevOwner : option Signer) (e : error) :
  path ≠ [] →
  Darc_Evolve d path prevOwner = (d', Returns (Some e)) →
  ∃ prev,
    last path = Some (Some prev)
    ∧ Darc_Signature d' = None
    ∧ Darc_Version d' = wrap64 (Darc_Version prev + 1)
    ∧ Darc_BaseID d' = Darc_GetBaseID prev
    ∧ Darc_Description d' = Darc_Description d
    ∧ Darc_Rules d' = Darc_Rules d.
Proof.
  intros Hpath. unfold Darc_Evolve.
  rewrite index_last, (len_nonzero _ Hpath).
  destruct (last path) as [[prev|]|]; simpl; [|done|done].
  intros Hev. exists prev.
  destruct (NewDarcSignature _ _ _) as [[[sig|] [err|]]| |];
    simplify_eq; simpl; done.
Qed.

(** C8.  [Identity.Verify] on an identity of kind darc returns the error
    ["cannot verify a darc-signature"], whatever the message and signature;
    on one of kind Ed25519 it returns what [schnorr.Verify] returns for the
    stored point.  On one of kind X509EC it returns the error of the parser
    of the key or of the signature if there is one, and for a key that is
    an ECDSA key what the ECDSA check of the SHA-384 digest returns; for a
    key that parses and is of another algorithm, and a signature that
    decodes, the type assertion panics and nothing is returned. *)
Theorem C8_Identity_Verify_dispatch (id : Identity) (msg sig : bytes) :
  (Identity_Type id = 0 →
   Identity_Verify id msg sig
   = Returns (Some (errors_New "cannot verify a darc-signature")))
  ∧ (Identity_Type id = 1 →
     ∃ ide, Identity_Ed25519 id = Some ide
       ∧ Identity_Verify id msg sig
         = Returns (schnorr_Verify (IdentityEd25519_Point ide) msg sig))
  ∧ (Identity_Type id = 2 →
     ∃ idkc, Identity_X509EC id = Some idkc
       ∧ Identity_Verify id msg sig = IdentityX509EC_Verify idkc msg sig
       ∧ (∀ public e,
            x509_ParsePKIXPublicKey (IdentityX509EC_Public idkc)
            = (public, Some e) →
            Identity_Verify id msg sig = Returns (Some e))
       ∧ (∀ public rs e,
            x509_ParsePKIXPublicKey (IdentityX509EC_Public idkc)
            = (public, None) →
            asn1_Unmarshal sig = (rs, Some e) →
            Identity_Verify id msg sig = Returns (Some e))
       ∧ (∀ k r s,
            x509_ParsePKIXPublicKey (IdentityX509EC_Public idkc)
            = (ecdsa_PublicKey k, None) →
            asn1_Unmarshal sig = ((r, s), None) →
            Identity_Verify id msg sig
            = Returns (if ecdsa_Verify k (sha512_Sum384 msg) r s then None
                       else Some (errors_New "Wrong signature")))
       ∧ (∀ r s,
            x509_ParsePKIXPublicKey (IdentityX509EC_Public idkc)
            = (other_PublicKey, None) →
            asn1_Unmarshal sig = ((r, s), None) →
            Identity_Verify id msg sig = Panics InterfaceConversion)).
Proof.
  unfold Identity_Type, Identity_Verify, Identity_switch.
  destruct (Identity_Darc id), (Identity_Ed25519 id) as [ide|],
    (Identity_X509EC id) as [idkc|]; split_and!; try done.
  - intros _. by exists ide.
  - intros _. by exists ide.
  - intros _. exists idkc. unfold IdentityX509EC_Verify.
    destruct (x509_ParsePKIXPublicKey _) as [public err].
    destruct (asn1_Unmarshal sig) as [[r s] err2].
    split_and!; [done|done|..].
    + by intros ?? [= -> ->].
    + by intros ??? [= -> ->] [= _ ->].
    + intros ??? [= -> ->] [= -> -> ->]. by destruct (ecdsa_Verify _ _ _ _).
    + by intros ?? [= -> ->] [= -> -> ->].
Qed.

(** What [Verify], run with its own callback [noDarc], asks of the inner
    [Verify]: its answer on the nil darc, nothing else. *)
Lemma evolutionOracle_noDarc (V1 V2 : option Darc → Outcome (option error))
    (ids : list string) :
  V1 None = V2 None →
  evolutionOracle V1 noDarc ids = evolutionOracle V2 noDarc ids.
Proof.
  intros HV. unfold evolutionOracle, noDarc. cbv zeta. by rewrite HV.
Qed.

Lemma verifyOneEvolution_noDarc (V1 V2 : option Darc → Outcome (option error))
    (newDarc prevDarc : option Darc) :
  V1 None = V2 None →
  verifyOneEvolution V1 newDarc prevDarc noDarc
  = verifyOneEvolution V2 newDarc prevDarc noDarc.
Proof.
  intros HV. unfold verifyOneEvolution, checkEvolutionPermission.
  destruct newDarc as [nd|]; simpl; [|done].
  destruct (Darc_BaseID nd); [|done].
  destruct prevDarc as [pd|]; simpl; [|done].
  do 2 (destruct (negb _); [done|]).
  destruct (Darc_Signature nd) as [sig|]; simpl; [|done].
  by rewrite (evolutionOracle_noDarc V1 V2 _ HV).
Qed.

Lemma VerifyWithCB_loop_noDarc (V1 V2 : option Darc → Outcome (option error))
    (path : list (option Darc)) (i : nat) (prev : option Darc) :
  V1 None = V2 None →
  VerifyWithCB_loop V1 noDarc i prev path
  = VerifyWithCB_loop V2 noDarc i prev path.
Proof.
  intros HV. revert i prev.
  induction path as [|dPath rest IH]; intros i prev; simpl; [done|].
  rewrite (verifyOneEvolution_noDarc V1 V2 dPath prev HV).
  destruct (match prev with None => _ | Some _ => _ end) as [[]| |];
    simpl; rewrite ?IH; done.
Qed.

Lemma VerifyWithCB_body_noDarc (V1 V2 : option Darc → Outcome (option error))
    (d : option Darc) :
  V1 None = V2 None →
  VerifyWithCB_body V1 d noDarc = VerifyWithCB_body V2 d noDarc.
Proof.
  intros HV. unfold VerifyWithCB_body.
  destruct d as [dd|]; [|done].
  destruct (Darc_Version dd =? 0)%Z; [done|].
  destruct (Darc_Signature dd) as [sig|]; [|done].
  destruct (len (Signature_Path sig) =? 0)%Z; [done|].
  rewrite (VerifyWithCB_loop_noDarc V1 V2 _ _ _ HV).
  destruct (VerifyWithCB_loop V2 noDarc 0 None _) as [[e|]| |]; simpl; try done.
  destruct (Darc_GetSignerDarc dd) as [[signer [e|]]| |]; simpl; try done.
  apply verifyOneEvolution_noDarc, HV.
Qed.

(** Two levels of calls are all a run of [Verify] has: with any more fuel
    the result is the same. *)
Lemma Verify_fuel_enough (n : nat) (d : option Darc) :
  VerifyWithCB_fuel (2 + n) d noDarc = Darc_Verify d.
Proof.
  change (VerifyWithCB_body (fun d' => VerifyWithCB_fuel (S n) d' noDarc) d noDarc
          = VerifyWithCB_body (fun d' => VerifyWithCB_fuel 1 d' noDarc) d noDarc).
  by apply VerifyWithCB_body_noDarc.
Qed.

Lemma Verify_is_VerifyWithCB (d : option Darc) :
  Darc_VerifyWithCB d noDarc = Darc_Verify d.
Proof. apply (Verify_fuel_enough 1 d). Qed.

Lemma Verify_nil : Darc_Verify None = Returns (Some (errors_New "darc is nil")).
Proof. reflexivity. Qed.

(** C7.  A term [s] that begins with ["darc:"] and for which the callback
    has no darc is unsatisfied: [Verify] on the nil darc returns the error
    ["darc is nil"], and the oracle returns false without a panic. *)
Theorem C7_missing_darc_unsatisfied (getDarc : string → option Darc)
    (ids : list string) (s : string) :
  String.prefix "darc:" s = true →
  getDarc s = None →
  Darc_Verify (getDarc s) = Returns (Some (errors_New "darc is nil"))
  ∧ evolutionOracle Darc_Verify getDarc ids s = Returns false.
Proof.
  intros Hp%prefix_darc_colon Hnil. unfold evolutionOracle.
  rewrite Hp, Hnil. done.
Qed.

(** [Identity.Verify] reads no slice by index. *)
Lemma Identity_Verify_in_bounds (id : Identity) (msg sig : bytes) :
  Identity_Verify id msg sig ≠ Panics IndexOutOfRange.
Proof.
  unfold Identity_Verify, IdentityX509EC_Verify.
  destruct (Identity_switch id) as [| |idkc|]; try done.
  destruct (x509_ParsePKIXPublicKey _) as [[k|] [e|]]; try done;
    destruct (asn1_Unmarshal _) as [[r s] [e|]]; try done.
  by destruct (ecdsa_Verify _ _ _ _).
Qed.

Lemma CheckRequest_loop_in_bounds (digest : bytes) (signatures : list bytes)
    (ids : list (option Identity)) (i : nat) :
  (i + length ids ≤ length signatures)%nat →
  CheckRequest_loop digest signatures i ids ≠ Panics IndexOutOfRange.
Proof.
  revert i. induction ids as [|id ids IH]; intros i Hlen; simpl in *; [done|].
  destruct (index_in_range signatures i) as [sig ->]; [lia|]. simpl.
  destruct id as [id|]; simpl; [|done].
  pose proof (Identity_Verify_in_bounds id digest sig) as Hv.
  destruct (Identity_Verify id digest sig) as [[e|]|p|]; simpl; try done.
  apply IH. lia.
Qed.

(** C10.  With at least as many signatures as identities the loop of
    [CheckRequest] reads [r.Signatures[i]] within bounds.  [CheckRequest]
    does not test the lengths: a request that names the darc and a known
    action but carries identities and no signature makes it panic on the
    index. *)
Theorem C10_CheckRequest_signature_index (d : Darc) (r : Request) :
  ((length (Request_Identities r) ≤ length (Request_Signatures r))%nat →
   ∀ digest,
     CheckRequest_loop digest (Request_Signatures r) 0 (Request_Identities r)
     ≠ Panics IndexOutOfRange)
  ∧ (bytes_Equal (Darc_GetID d) (Request_ID r) = true →
     Rules_Contains (Darc_Rules d) (Request_Action r) = true →
     Request_Identities r ≠ [] →
     Request_Signatures r = [] →
     Darc_CheckRequest d r = Panics IndexOutOfRange).
Proof.
  split.
  - intros Hlen digest. apply CheckRequest_loop_in_bounds. lia.
  - intros Hid Hact Hids Hsigs. unfold Darc_CheckRequest.
    rewrite Hid, Hact, Hsigs. simpl.
    destruct (Request_Identities r); done.
Qed.

End darc_properties.

(** ** Hashes *)

Lemma byte_of_Z_value (v : Z) : Z.of_N (Byte.to_N (byte_of_Z v)) = v mod 256.
Proof.
  unfold byte_of_Z. change 255 with (Z.ones 8). rewrite Z.land_ones by lia.
  change (2 ^ 8) with 256.
  pose proof (Z.mod_pos_bound v 256 ltac:(lia)) as Hb.
  destruct (Byte.of_N (Z.to_N (v mod 256))) as [b|] eqn:E.
  - apply Byte.to_of_N in E. rewrite E. lia.
  - apply Byte.of_N_None_iff in E. lia.
Qed.

Lemma le_bytes_value (v : Z) (n k : nat) :
  Uint64_of_le
    (map (fun i : nat => byte_of_Z (Z.shiftr v (8 * Z.of_nat i))) (seq k n))
  = (v / 2 ^ (8 * Z.of_nat k)) mod 2 ^ (8 * Z.of_nat n).
Proof.
  revert k. induction n as [|n IH]; intros k.
  - simpl. by rewrite Z.mod_1_r.
  - cbn [seq map Uint64_of_le foldr]. fold (Uint64_of_le).
    rewrite IH, byte_of_Z_value, Z.shiftr_div_pow2 by lia.
    replace (8 * Z.of_nat (S n)) with (8 + 8 * Z.of_nat n) by lia.
    replace (8 * Z.of_nat (S k)) with (8 * Z.of_nat k + 8) by lia.
    rewrite !Z.pow_add_r by lia. change (2 ^ 8) with 256.
    rewrite <- Z.div_div by lia.
    rewrite Z.rem_mul_r by lia. reflexivity.
Qed.

Lemma PutUint64_little_endian (v : Z) :
  0 ≤ v < 2 ^ 64 → Uint64_of_le (PutUint64 v) = v.
Proof.
  intros Hv. unfold PutUint64. rewrite le_bytes_value.
  change (2 ^ (8 * Z.of_nat 0)) with 1. change (2 ^ (8 * Z.of_nat 8)) with (2 ^ 64).
  rewrite Z.div_1_r. by apply Z.mod_small.
Qed.

Section hash_properties.
Context `{Suite}.

Lemma append_nil_bytes (b : bytes) : slice_bytes (append_nil b) = b.
Proof. by destruct b. Qed.


Lemma PutUint64_length (v : Z) : length (PutUint64 v) = 8%nat.
Proof. reflexivity. Qed.

(** Writing name and expression of each action in turn writes their
    concatenation. *)
Lemma write_rules (r : Rules) (actions : list string) (h : bytes) :
  fold_left
    (fun h a => h_Write (h_Write h (list_byte_of_string a)) (Rules_get r a))
    actions h
  = h ++ concat (map (fun a => list_byte_of_string a ++ Rules_get r a) actions).
Proof.
  revert h. induction actions as [|a actions IH]; intros h; simpl.
  - by rewrite app_nil_r.
  - rewrite IH. unfold h_Write. by rewrite <- !app_assoc.
Qed.

(** The sorted list of the actions of [r]: whatever order the [range]
    visited the keys in, [sort.Strings] leaves this list. *)
Lemma sort_Strings_range (r : Rules) (keys acts : list string) :
  keys ≡ₚ Rules_range r →
  StronglySorted String.le acts →
  NoDup acts →
  (∀ a, a ∈ acts ↔ is_Some (r !! a)) →
  sort_Strings keys = acts.
Proof.
  intros Hkeys Hsorted Hnodup Hdom. unfold sort_Strings.
  apply (StronglySorted_unique String.le); [apply StronglySorted_merge_sort; apply _|done|].
  rewrite merge_sort_Permutation, Hkeys.
  apply NoDup_Permutation; [apply NoDup_fst_map_to_list|done|].
  intros a. rewrite Hdom. unfold Rules_range. rewrite list_elem_of_fmap.
  split.
  - intros [[a' e] [-> Hin%elem_of_map_to_list]]. by exists e.
  - intros [e He]. exists (a, e). by rewrite elem_of_map_to_list.
Qed.

Lemma sort_Strings_sorted (keys : list string) :
  StronglySorted String.le (sort_Strings keys).
Proof. apply StronglySorted_merge_sort; apply _. Qed.

(** C4.  The ID of a darc is the SHA-256 digest of its version in 8
    little-endian bytes, its description, its base ID and then, for each
    action in increasing order of the names, the name and the expression.
    ([PutUint64] is that encoding: [PutUint64_little_endian].)  This holds
    whatever the order in which the keys of the rules come out of the map; the signature is not read, so darcs that agree on version,
    description, base ID and rules have one ID, and so have rules built by
    adding the same actions in another order. *)
Theorem C4_GetID_digest (d : Darc) (keys acts : list string) :
  keys ≡ₚ Rules_range (Darc_Rules d) →
  StronglySorted String.le acts →
  NoDup acts →
  (∀ a, a ∈ acts ↔ is_Some (Darc_Rules d !! a)) →
  slice_bytes (Darc_GetID_ranging keys d)
  = sha256_Sum
      (PutUint64 (Darc_Version d) ++ Darc_Description d
       ++ slice_bytes (Darc_BaseID d)
       ++ concat (map (fun a => list_byte_of_string a
                                ++ Rules_get (Darc_Rules d) a) acts))
  ∧ Darc_GetID_ranging keys d = Darc_GetID d
  ∧ (∀ d2 : Darc,
       Darc_Version d2 = Darc_Version d →
       Darc_Description d2 = Darc_Description d →
       slice_bytes (Darc_BaseID d2) = slice_bytes (Darc_BaseID d) →
       Darc_Rules d2 = Darc_Rules d →
       Darc_GetID d2 = Darc_GetID d)
  ∧ (∀ (r : Rules) a e b f,
       a ≠ b →
       (Rules_AddRule (Rules_AddRule r a e).1 b f).1
       = (Rules_AddRule (Rules_AddRule r b f).1 a e).1).
Proof.
  intros Hkeys Hsorted Hnodup Hdom.
  assert (∀ ks, ks ≡ₚ Rules_range (Darc_Rules d) → sort_Strings ks = acts)
    as Hsort by (intros ks Hks; by apply (sort_Strings_range (Darc_Rules d))).
  split_and!.
  - unfold Darc_GetID_ranging, h_Sum. cbv zeta.
    rewrite append_nil_bytes, write_rules, (Hsort keys Hkeys).
    unfold h_Write, sha256_New. simpl. by rewrite <- !app_assoc.
  - unfold Darc_GetID, Darc_GetID_ranging. cbv zeta.
    by rewrite (Hsort keys Hkeys), (Hsort (Rules_range _)).
  - intros d2 Hv Hdesc Hbase Hrules.
    unfold Darc_GetID, Darc_GetID_ranging. cbv zeta.
    by rewrite Hv, Hdesc, Hbase, Hrules.
  - intros r a e b f Hab. unfold Rules_AddRule.
    destruct (r !! a) eqn:Ha, (r !! b) eqn:Hb; simpl;
      rewrite ?lookup_insert_ne by done; rewrite ?Ha, ?Hb; simpl; try done.
    by apply insert_insert_ne.
Qed.




End hash_properties.

(** ** Evolution closure and delegation *)

Section delegation_properties.
Context `{Suite} `{Engine}.

Lemma h_Sum_Some (h : bytes) :
  (∀ m, length (sha256_Sum m) = 32%nat) → h_Sum h = Some (sha256_Sum h).
Proof.
  intros Hlen. unfold h_Sum. specialize (Hlen h).
  by destruct (sha256_Sum h).
Qed.

Lemma GetID_Some (d : Darc) :
  (∀ m, length (sha256_Sum m) = 32%nat) →
  ∃ b, Darc_GetID d = Some b ∧ length b = 32%nat.
Proof.
  intros Hlen. unfold Darc_GetID, Darc_GetID_ranging. cbv zeta.
  rewrite h_Sum_Some by done. eauto.
Qed.

Lemma GetID_Signature (v : Z) (desc : bytes) (base : ID) (r : Rules)
    (s1 s2 : option Signature) :
  Darc_GetID (Build_Darc v desc base r s1) = Darc_GetID (Build_Darc v desc base r s2).
Proof. reflexivity. Qed.

Lemma existsb_decide_eq (ids : list string) (s : string) :
  existsb (fun id => if decide (id = s) then true else false) ids
  = bool_decide (s ∈ ids).
Proof.
  induction ids as [|id ids IH]; simpl; [done|].
  rewrite IH. destruct (decide (id = s)) as [->|Hne]; simpl.
  - symmetry. apply bool_decide_eq_true. set_solver.
  - apply bool_decide_ext. set_solver.
Qed.

Lemma checkEvolutionPermission_noDarc (V : option Darc → Outcome (option error)) (expr : Expr) (signer : string) (e0 : error) :
  Engine_extensional →
  V None = Returns (Some e0) →
  String.prefix "darc" signer = false →
  DefaultParser expr [signer] = Returns (true, None) →
  checkEvolutionPermission V expr noDarc [signer] = Returns None.
Proof.
  intros Hext HV Hp Hdef. unfold checkEvolutionPermission.
  rewrite (Hext _ (fun s => Returns (bool_decide (s ∈ [signer]))) expr).
  - unfold DefaultParser in Hdef. by rewrite Hdef.
  - intros s. unfold evolutionOracle, noDarc. cbv zeta. rewrite HV, existsb_decide_eq.
    destruct (String.prefix "darc" s) eqn:Hs; [|done].
    simpl. f_equal. symmetry. apply bool_decide_eq_false. intros ->%list_elem_of_singleton. congruence.
Qed.


(** C1.  Let [d0] be a genesis darc and [owner] a signer whose identity
    string satisfies the evolution rule of [d0].  If [d1.Evolve([d0], owner)]
    succeeds, the evolved darc verifies and its base ID is the ID of [d0].
    Assumed of the collaborators: digests have 32 bytes, the evaluator reads
    its oracle through its answers, and a signature made by [schnorr.Sign]
    with the secret of [owner] verifies under the point of [owner]. *)
Theorem C1_evolution_closure (d0 d1 d1' : Darc) (owner : Signer)
    (id : Identity) :
  Darc_Version d0 = 0 →
  (∀ m, length (sha256_Sum m) = 32%nat) →
  Engine_extensional →
  (∀ eds msg sig,
     Signer_Ed25519 owner = Some eds →
     schnorr_Sign (SignerEd25519_Secret eds) msg = (sig, None) →
     schnorr_Verify (SignerEd25519_Point eds) msg sig = None) →
  Signer_Identity owner = Some id →
  DefaultParser (Rules_GetEvolutionExpr (Darc_Rules d0)) [Identity_String id]
  = Returns (true, None) →
  Darc_Evolve d1 [Some d0] (Some owner) = (d1', Returns None) →
  Darc_Verify (Some d1') = Returns None
  ∧ Darc_GetBaseID d1' = Darc_GetID d0.
Proof.
  intros Hv0 Hlen Hext Hcrypto Hid Hsat Hev.
  assert (Darc_GetBaseID d0 = Darc_GetID d0) as Hb0
    by (unfold Darc_GetBaseID; by rewrite Hv0).
  unfold Darc_Evolve in Hev. simpl in Hev.
  rewrite Hv0, Hb0 in Hev. change (wrap64 (0 + 1)) with 1 in Hev.
  destruct (GetID_Some d0 Hlen) as (id0 & Hid0 & Hlen0).
  set (dn := Build_Darc 1 _ _ _ None) in Hev.
  destruct (GetID_Some dn Hlen) as (idn & Hidn & Hlenn).
  rewrite Hidn in Hev. unfold slice_len in Hev. simpl in Hev. rewrite Hlenn in Hev.
  simpl in Hev. rewrite h_Sum_Some in Hev by done.
  unfold Signer_Sign, Signer_Identity in Hev, Hid.
  destruct (Signer_Ed25519 owner) as [eds|] eqn:Heds; cycle 1.
  { destruct (Signer_X509EC owner); simpl in Hev; simplify_eq. }
  unfold SignerEd25519_Sign in Hev.
  destruct (schnorr_Sign _ _) as [sig [e|]] eqn:Hsign; simpl in Hev; [simplify_eq|].
  injection Hev as <-. injection Hid as <-.
  specialize (Hcrypto eds _ _ eq_refl Hsign).
  split; [|by rewrite <- Hb0 at 1].
  unfold Darc_Verify.
  change (VerifyWithCB_fuel 2) with (VerifyWithCB_body (fun d' => VerifyWithCB_fuel 1 d' noDarc)).
  unfold VerifyWithCB_body. simpl. rewrite Hv0. simpl.
  unfold Darc_GetSignerDarc. simpl. rewrite Hv0. simpl.
  unfold verifyOneEvolution. simpl. rewrite Hid0.
  unfold Darc_GetBaseID. simpl. rewrite Hv0, Hid0. simpl.
  unfold bytes_Equal. rewrite bool_decide_eq_true_2 by done. simpl.
  erewrite checkEvolutionPermission_noDarc; [|done|reflexivity|reflexivity|done].
  simpl.
  unfold Signature_verify. simpl. rewrite Hid0. simpl.
  rewrite bool_decide_eq_true_2 by done. simpl.
  subst dn. rewrite Hid0 in Hidn, Hcrypto.
  rewrite (GetID_Signature _ _ _ _ _ None), Hidn.
  rewrite h_Sum_Some by done.
  unfold Identity_Verify, IdentityEd25519_Verify. simpl in *. by rewrite Hcrypto.
Qed.

Lemma isPathMember_loop (s : string) (path : list (option Darc)) :
  Forall is_Some path →
  ∃ b, PathContains_loop (isPathMember s) tt path = Returns b
       ∧ (b = true ↔ ∃ x, Some x ∈ path ∧ Darc_GetIdentityString x = s).
Proof.
  induction 1 as [|[x|] path Hx Hpath (b & Hb & Hiff)]; simpl;
    [|clear Hx|by destruct Hx].
  - exists false. split; [done|]. split; [done|].
    intros (x & Hx & _). by apply not_elem_of_nil in Hx.
  - destruct (bool_decide_reflect (Darc_GetIdentityString x = s)) as [Hs|Hs].
    + exists true. split; [done|]. split; [|done].
      intros _. exists x. split; [left|done].
    + exists b. split; [done|]. rewrite Hiff. split.
      * intros (y & Hy & Hys). exists y. split; [by right|done].
      * intros (y & Hy & Hys). exists y. split; [|done].
        apply elem_of_cons in Hy as [[= ->]|Hy]; done.
Qed.

Lemma admitted_from_cons (ids : list string) (s : string) (x : Darc)
    (path : list (option Darc)) :
  admitted_from ids s (Some x :: path)
  ↔ (Darc_GetIdentityString x = s
     ∧ ∃ y, Some y ∈ Some x :: path ∧ admits ids y)
    ∨ admitted_from ids s path.
Proof.
  split.
  - intros (pre & x' & post & y & Hp & Hs & Hy & Hadm).
    destruct pre as [|p pre]; simplify_eq/=.
    + left. eauto.
    + right. by exists pre, x', post, y.
  - intros [(Hs & y & Hy & Hadm)|(pre & x' & post & y & Hp & Hs & Hy & Hadm)].
    + by exists [], x, path, y.
    + exists (Some x :: pre), x', post, y. by subst.
Qed.

Lemma searchOlder_loop (s : string) (ids : list string)
    (path : list (option Darc)) (started : bool) :
  Forall is_Some path →
  (∀ x, Some x ∈ path →
     ∃ r, DefaultParser (Rules_GetEvolutionExpr (Darc_Rules x)) ids = Returns r) →
  ∃ b, PathContains_loop (searchOlder s ids) started path = Returns b
       ∧ (b = true ↔
          (started = true ∧ ∃ y, Some y ∈ path ∧ admits ids y)
          ∨ admitted_from ids s path).
Proof.
  intros Hpath. revert started.
  induction Hpath as [|[x|] path Hx Hpath IH]; intros started Htotal;
    [|clear Hx|by destruct Hx].
  - exists false. split; [done|]. split; [done|].
    intros [(_ & y & Hy & _)|(pre & x & post & y & Hp & _)].
    + by apply not_elem_of_nil in Hy.
    + by destruct pre.
  - simpl.
    destruct (Htotal x) as [[ok err] Hx]; [left|].
    destruct (IH (if bool_decide (Darc_GetIdentityString x = s) then true else started))
      as (b & Hb & Hiff); [intros; apply Htotal; by right|].
    unfold searchOlder. simpl. setoid_rewrite admitted_from_cons.
    set (st := if bool_decide (Darc_GetIdentityString x = s) then true else started) in *.
    assert (st = true ↔ Darc_GetIdentityString x = s ∨ started = true) as Hst.
    { subst st. case_bool_decide; naive_solver. }
    assert (∀ y, Some y ∈ Some x :: path ↔ y = x ∨ Some y ∈ path) as Hin.
    { intros y. rewrite elem_of_cons. naive_solver. }
    destruct st; simpl.
    + rewrite Hx. simpl.
      assert (admits ids x ↔ ok = true ∧ err = None) as Hadm.
      { unfold admits. rewrite Hx. naive_solver. }
      destruct err as [e|]; [|destruct ok]; simpl.
      * exists b. split; [done|]. rewrite Hiff. setoid_rewrite Hin. naive_solver.
      * exists true. split; [done|]. setoid_rewrite Hin. naive_solver.
      * exists b. split; [done|]. rewrite Hiff. setoid_rewrite Hin. naive_solver.
    + exists b. split; [done|]. rewrite Hiff. naive_solver.
Qed.

(** C2 as amended.  Let [s] begin with ["darc:"], let the latest darc
    [d = getDarc(s)] verify and hold in its path, which has no nil entry, a
    darc of identity string [s], and let the identities not satisfy the
    evolution rule of [d].  Then the oracle returns, and the term is satisfied
    exactly when a darc of the path admits the identities that stands at or
    after a darc of identity string [s]: the darc named by [s] is itself
    scanned, earlier ones are not. *)
Theorem C2_older_darc_admits (getDarc : string → option Darc)
    (ids : list string) (s : string) (d : Darc) (sig : Signature) :
  String.prefix "darc:" s = true →
  getDarc s = Some d →
  Darc_Verify (Some d) = Returns None →
  Darc_Signature d = Some sig →
  Forall is_Some (Signature_Path sig) →
  (∃ x, Some x ∈ Signature_Path sig ∧ Darc_GetIdentityString x = s) →
  (∀ x, Some x ∈ Signature_Path sig →
     ∃ r, DefaultParser (Rules_GetEvolutionExpr (Darc_Rules x)) ids = Returns r) →
  (∃ r, DefaultParser (Rules_GetEvolutionExpr (Darc_Rules d)) ids = Returns r
        ∧ r ≠ (true, None)) →
  ∃ b, evolutionOracle Darc_Verify getDarc ids s = Returns b
       ∧ (b = true ↔ admitted_from ids s (Signature_Path sig)).
Proof.
  intros Hp%prefix_darc_colon Hget Hver Hsig Hnonnil Hmem Htotal
    ([ok err] & Hlatest & Hnot).
  unfold evolutionOracle. rewrite Hp, Hget, Hver. simpl.
  unfold Signature_PathContains. rewrite Hsig. simpl.
  destruct (isPathMember_loop s _ Hnonnil) as (b1 & -> & Hb1).
  apply Hb1 in Hmem as ->. simpl. rewrite Hlatest. simpl.
  destruct (searchOlder_loop s ids _ false Hnonnil Htotal) as (b & Hb & Hiff).
  exists b. split.
  - destruct err as [e|]; [done|]. destruct ok; [done|done].
  - rewrite Hiff. naive_solver.
Qed.

End delegation_properties.

(** * Further properties *)

(** * Further properties of the package *)

(** ** Copies and rules *)

Lemma fold_left_insert_list_to_map (entries : list (string * Expr)) :
  fold_left (fun (m : Rules) kv => <[kv.1 := kv.2]> m) entries (∅ : Rules)
  = list_to_map (reverse entries).
Proof.
  induction entries as [|[k v] entries IH] using rev_ind; [done|].
  by rewrite fold_left_app, reverse_snoc, IH.
Qed.

Lemma Rules_do_evolve (r : Rules) (c : Rules_call) :
  is_Some (r !! evolve) → Rules_do r c !! evolve = r !! evolve.
Proof.
  intros [old Hold]. destruct c as [a e|a e|a]; simpl.
  - unfold Rules_AddRule. destruct (r !! a) eqn:Ha; simpl; [done|].
    apply lookup_insert_ne. congruence.
  - unfold Rules_UpdateRule, Rules_updateRule.
    destruct (isEvolution a) eqn:Hev; [done|].
    destruct (r !! a) eqn:Ha; simpl; [|done].
    apply lookup_insert_ne. intros ->. by rewrite (proj2 (isEvolution_true _)) in Hev.
  - unfold Rules_DeleteRules.
    destruct (isEvolution a) eqn:Hev; [done|].
    destruct (r !! a) eqn:Ha; simpl; [|done].
    apply lookup_delete_ne. intros ->. by rewrite (proj2 (isEvolution_true _)) in Hev.
Qed.

Section package_properties.
Context `{Suite} `{Engine}.

(** X1.  A copy has the rules, the ID and the base ID of the darc it was
    made from, whatever the order in which the map hands out its entries; it
    carries no signature, and its stored base ID is never nil, also when the
    original's is. *)
Theorem Copy_keeps_identity (d : Darc) (entries : list (string * Expr)) :
  entries ≡ₚ map_to_list (Darc_Rules d) →
  let c := Darc_Copy_ranging entries d in
  c = Darc_Copy d
  ∧ Darc_Rules c = Darc_Rules d
  ∧ Darc_GetID c = Darc_GetID d
  ∧ Darc_Equal d c = true
  ∧ bytes_Equal (Darc_GetBaseID c) (Darc_GetBaseID d) = true
  ∧ Darc_Signature c = None
  ∧ ID_IsNull (Darc_BaseID c) = false.
Proof.
  intros Hperm.
  assert (∀ es, es ≡ₚ map_to_list (Darc_Rules d) →
            fold_left (fun (m : Rules) kv => <[kv.1 := kv.2]> m) es (∅ : Rules)
            = Darc_Rules d) as Hrules.
  { intros es Hes. rewrite fold_left_insert_list_to_map.
    etrans; [|apply (list_to_map_to_list (Darc_Rules d))].
    apply list_to_map_proper.
    - rewrite reverse_Permutation, Hes. apply NoDup_fst_map_to_list.
    - by rewrite reverse_Permutation. }
  assert (Darc_GetID (Darc_Copy_ranging entries d) = Darc_GetID d) as Hid.
  { unfold Darc_GetID, Darc_GetID_ranging, Darc_Copy_ranging. simpl.
    by rewrite (Hrules _ Hperm). }
  simpl. split_and!.
  - unfold Darc_Copy, Darc_Copy_ranging. by rewrite !Hrules.
  - by apply Hrules.
  - done.
  - unfold Darc_Equal, bytes_Equal. rewrite Hid. by apply bool_decide_eq_true.
  - unfold Darc_GetBaseID. rewrite Hid. simpl.
    unfold bytes_Equal. apply bool_decide_eq_true. by destruct (Darc_Version d =? 0)%Z.
  - done.
  - done.
Qed.

End package_properties.

(** X2.  No sequence of [AddRule], [UpdateRule] and [DeleteRules] touches the
    entry of [_evolve] once there is one: it stays, with its expression. *)
Theorem Rules_evolve_kept (r : Rules) (calls : list Rules_call) :
  is_Some (r !! evolve) →
  fold_left Rules_do calls r !! evolve = r !! evolve.
Proof.
  revert r. induction calls as [|c calls IH]; intros r Hr; simpl; [done|].
  rewrite IH, Rules_do_evolve; [done..|]. by rewrite Rules_do_evolve.
Qed.

(** X3.  On an allocated map, adding an action that is new and not [_evolve]
    and deleting it again gives back the rules; between the two the action is
    contained and reads as the expression added, an update of it succeeds and
    amounts to having added the new expression, and a second addition fails.
    On the nil map, where the action is new as well, the addition panics. *)
Theorem Rules_add_then_delete (r : Rules) (a : Action) (e e' : Expr) :
  r !! a = None →
  a ≠ evolve →
  ∃ r1,
    RulesValue_AddRule (Some r) a e = (Some r1, Returns None)
    ∧ RulesValue_Contains (Some r1) a = true
    ∧ RulesValue_get (Some r1) a = e
    ∧ RulesValue_DeleteRules (Some r1) a = (Some r, Returns None)
    ∧ RulesValue_UpdateRule (Some r1) a e'
      = ((RulesValue_AddRule (Some r) a e').1, Returns None)
    ∧ (∃ err, RulesValue_AddRule (Some r1) a e'
              = (Some r1, Returns (Some err)))
    ∧ RulesValue_Contains None a = false
    ∧ RulesValue_AddRule None a e = (None, Panics NilMapAssignment).
Proof.
  intros Ha Hne. exists (<[a := e]> r).
  assert (isEvolution a = false) as Hev.
  { destruct (isEvolution a) eqn:E; [|done]. by apply isEvolution_true in E. }
  unfold RulesValue_AddRule, RulesValue_Contains, RulesValue_get,
    RulesValue_DeleteRules, RulesValue_UpdateRule, RulesValue_updateRule,
    RulesValue_store.
  simpl. rewrite Hev, Ha, !lookup_insert_eq. simpl.
  split_and!; try done.
  - by rewrite delete_insert_id.
  - by rewrite insert_insert_eq.
  - eauto.
Qed.

(** ** Identities and signers *)

Lemma unhex_hex_digit (n : N) : (n < 16)%N → unhex_digit (hex_digit n) = n.
Proof.
  intros Hn.
  assert (n ∈ [0;1;2;3;4;5;6;7;8;9;10;11;12;13;14;15]%N) as Hin.
  { destruct n as [|p]; [set_solver|].
    do 4 (destruct p as [p|p|]; [| |set_solver]); lia. }
  repeat (apply elem_of_cons in Hin as [->|Hin]; [reflexivity|]).
  by apply elem_of_nil in Hin.
Qed.

Lemma hex_inj (b1 b2 : bytes) : hex b1 = hex b2 → b1 = b2.
Proof.
  revert b2. induction b1 as [|x b1 IH]; intros [|y b2] Heq; simpl in Heq;
    try done.
  injection Heq as Hhi Hlo Hrest.
  f_equal; [|by apply IH].
  assert (∀ z, (Byte.to_N z / 16 < 16)%N ∧ (Byte.to_N z mod 16 < 16)%N) as Hb.
  { intros z. pose proof (Byte.to_N_bounded z).
    split; [apply N.Div0.div_lt_upper_bound; lia|apply N.mod_lt; lia]. }
  assert (Byte.to_N x = Byte.to_N y) as Hxy.
  { rewrite (N.div_mod (Byte.to_N x) 16), (N.div_mod (Byte.to_N y) 16) by lia.
    rewrite <- (unhex_hex_digit (Byte.to_N x / 16)),
      <- (unhex_hex_digit (Byte.to_N x mod 16)) by apply Hb.
    rewrite Hhi, Hlo.
    by rewrite !unhex_hex_digit by apply Hb. }
  apply (inj Some). by rewrite <- (Byte.of_to_N x), <- (Byte.of_to_N y), Hxy.
Qed.

Lemma substring_0_0 (s : string) : substring 0 0 s = "".
Proof. by destruct s. Qed.

Section identity_properties.
Context `{Suite} `{Engine}.

(** X4.  The kinds a signer and its identity report agree: a signer without
    key has no identity, any other has an identity of its own type.  Only a
    signer holding an Ed25519 key signs, and only a message that is not nil;
    only such a signer hands out a private key. *)
Theorem Signer_kinds_agree (s : Signer) (msg : slice) :
  (Signer_Identity s = None ↔ Signer_Type s = -1)
  ∧ (∀ id, Signer_Identity s = Some id → Identity_Type id = Signer_Type s)
  ∧ (∀ sig, Signer_Sign s msg = (sig, None) →
       Signer_Type s = 1 ∧ msg ≠ None)
  ∧ ((Signer_GetPrivate s).2 = None ↔ Signer_Type s = 1).
Proof.
  unfold Signer_Identity, Signer_Type, Signer_Sign, Signer_GetPrivate,
    SignerX509EC_Sign.
  destruct (Signer_Ed25519 s) as [eds|], (Signer_X509EC s) as [kcs|];
    split_and!; try done; try (by intros id [= <-]);
    intros sig; destruct msg; simpl; try done.
Qed.

(** X5.  The identity string of an identity begins with ["darc"] exactly when
    the identity is of kind darc (type 0), and then with ["darc:"]: the test
    by which the oracle of [checkEvolutionPermission] takes a term for a darc
    agrees with the kinds.  The identity string of a darc is such a string. *)
Theorem Identity_String_darc_prefix (id : Identity) :
  (String.prefix "darc" (Identity_String id) = true ↔ Identity_Type id = 0)
  ∧ (String.prefix "darc:" (Identity_String id) = true ↔ Identity_Type id = 0)
  ∧ ∀ d, String.prefix "darc:" (Darc_GetIdentityString d) = true.
Proof.
  split_and!.
  - unfold Identity_String, Identity_TypeString, Identity_Type.
    destruct (Identity_switch id); rewrite String.prefix_correct; simpl;
      split; done.
  - unfold Identity_String, Identity_TypeString, Identity_Type.
    destruct (Identity_switch id); rewrite String.prefix_correct; simpl.
    all: rewrite ?substring_0_0; split; done.
  - intros d. apply String.prefix_correct.
    unfold Darc_GetIdentityString, Identity_String. simpl.
    by rewrite substring_0_0.
Qed.

Section equal.
Variable Point_Equal : Point → Point → Outcome bool.

(** X6.  [Identity.Equal] panics when either identity is nil.  Between two
    identities it holds only if they are of one type, never between two
    without any key; when the first is not of kind Ed25519 the call returns,
    and between identities of kind darc or X509EC it holds exactly when their
    identity strings are equal; between two of kind Ed25519 it is what
    [Point.Equal] does, a panic included. *)
Theorem Identity_Equal_strings (id id2 : Identity) :
  (∀ x, Identity_Equal Point_Equal None x = Panics NilDereference)
  ∧ Identity_Equal Point_Equal (Some id) None = Panics NilDereference
  ∧ (Identity_Equal Point_Equal (Some id) (Some id2) = Returns true →
     Identity_Type id = Identity_Type id2 ∧ Identity_Type id ≠ -1)
  ∧ (Identity_Type id ≠ 1 →
     ∃ b, Identity_Equal Point_Equal (Some id) (Some id2) = Returns b)
  ∧ (Identity_Type id ≠ 1 → Identity_Type id2 ≠ 1 →
     (Identity_Equal Point_Equal (Some id) (Some id2) = Returns true
      ↔ Identity_String id = Identity_String id2 ∧ Identity_Type id ≠ -1))
  ∧ (∀ ide ide2,
       Identity_switch id = kind_Ed25519 ide →
       Identity_switch id2 = kind_Ed25519 ide2 →
       Identity_Equal Point_Equal (Some id) (Some id2)
       = Point_Equal (IdentityEd25519_Point ide)
           (IdentityEd25519_Point ide2)).
Proof.
  unfold Identity_Equal, Identity_Type, Identity_String, Identity_TypeString,
    Identity_switch, IdentityDarc_Equal, IdentityX509EC_Equal,
    IdentityEd25519_Equal.
  cbn [deref mbind Outcome_bind].
  destruct (Identity_Darc id) as [idd|], (Identity_Ed25519 id) as [ide|],
    (Identity_X509EC id) as [idkc|], (Identity_Darc id2) as [idd2|],
    (Identity_Ed25519 id2) as [ide2|], (Identity_X509EC id2) as [idkc2|];
    simpl; (split_and!; [done|done|try done..]);
    try (intros; by eauto); try (by intros ?? [= <-] [= <-]).
  all: intros _ _.
  all: split;
    [ intros [= Hb]; first [ done | apply bool_decide_eq_true in Hb; by rewrite Hb ]
    | intros [Hs Hne]; try done; simpl in Hs; simplify_eq;
      repeat match goal with
             | Hh : hex _ = hex _ |- _ => apply hex_inj in Hh
             end;
      f_equal; by apply bool_decide_eq_true ].
Qed.

End equal.
End identity_properties.

(** ** Signatures, evolution and verification *)

Section chain_properties.
Context `{Suite} `{Engine}.

Lemma bytes_Equal_refl (a : slice) : bytes_Equal a a = true.
Proof. by apply bool_decide_eq_true. Qed.

Lemma bytes_Equal_true (a b : slice) :
  bytes_Equal a b = true ↔ slice_bytes a = slice_bytes b.
Proof. apply bool_decide_eq_true. Qed.

Lemma darcsMsg_loop_Some (acc : bytes) (ds : list Darc) :
  darcsMsg_loop acc (Some <$> ds)
  = Returns (acc ++ mjoin ((fun d => slice_bytes (Darc_GetID d)) <$> ds)).
Proof.
  revert acc. induction ds as [|d ds IH]; intros acc; simpl.
  - by rewrite app_nil_r.
  - rewrite IH. by rewrite <- app_assoc.
Qed.

Lemma darcsMsg_loop_nil (acc : bytes) (path : list (option Darc)) :
  None ∈ path → darcsMsg_loop acc path = Panics NilDereference.
Proof.
  revert acc. induction path as [|[d|] path IH]; intros acc Hin; simpl.
  - by apply not_elem_of_nil in Hin.
  - apply IH. by apply elem_of_cons in Hin as [|].
  - done.
Qed.

Lemma all_Some_fmap {A} (l : list (option A)) :
  Forall is_Some l → ∃ xs, l = Some <$> xs.
Proof.
  induction 1 as [|? l [x ->] _ [xs ->]]; [by exists []|]. by exists (x :: xs).
Qed.

Lemma not_all_Some {A} (l : list (option A)) :
  Forall is_Some l ∨ None ∈ l.
Proof.
  induction l as [|[x|] l [IH|IH]]; try (by left; repeat constructor);
    right; set_solver.
Qed.

Lemma darcsMsg_Some (ds : list Darc) :
  darcsMsg (Some <$> ds)
  = Returns (mjoin ((fun d => slice_bytes (Darc_GetID d)) <$> ds)).
Proof.
  unfold darcsMsg. destruct ds as [|d ds]; [done|].
  rewrite len_nonzero by done. apply darcsMsg_loop_Some.
Qed.

Lemma darcsMsg_returns (path : list (option Darc)) (msg : bytes) :
  darcsMsg path = Returns msg → Forall is_Some path.
Proof.
  intros Hmsg. destruct (not_all_Some path) as [|Hnil]; [done|].
  unfold darcsMsg in Hmsg. destruct path as [|p path].
  - by apply not_elem_of_nil in Hnil.
  - rewrite len_nonzero in Hmsg by done.
    by rewrite (darcsMsg_loop_nil _ _ Hnil) in Hmsg.
Qed.

(** X7.  [darcsMsg] of a path is the IDs of its darcs one after the other, so
    that the message of a path put together from two is the two messages put
    together; a nil entry anywhere in the path makes it panic. *)
Theorem darcsMsg_concat (ds ds2 : list Darc) (path : list (option Darc)) :
  darcsMsg (Some <$> ds)
  = Returns (mjoin ((fun d => slice_bytes (Darc_GetID d)) <$> ds))
  ∧ darcsMsg (Some <$> (ds ++ ds2))
    = (m1 ← darcsMsg (Some <$> ds); m2 ← darcsMsg (Some <$> ds2);
       Returns (m1 ++ m2))
  ∧ (None ∈ path → darcsMsg path = Panics NilDereference).
Proof.
  split_and!.
  - apply darcsMsg_Some.
  - rewrite !darcsMsg_Some, fmap_app. simpl. f_equal. apply (join_app (A:=byte)).
  - intros Hnil. unfold darcsMsg. destruct path as [|p path].
    + by apply not_elem_of_nil in Hnil.
    + rewrite len_nonzero by done. by apply darcsMsg_loop_nil.
Qed.

(** What a successful [NewDarcSignature] has done. *)
Lemma NewDarcSignature_inv (signer : option Signer) (id : ID)
    (path : list (option Darc)) (sig : option Signature) :
  NewDarcSignature signer id path = Returns (sig, None) →
  ∃ sg idy pathMsg raw,
    signer = Some sg
    ∧ slice_bytes id ≠ []
    ∧ path ≠ []
    ∧ darcsMsg path = Returns pathMsg
    ∧ Signer_Sign sg (hashAll [slice_bytes id; pathMsg]).1 = (raw, None)
    ∧ Signer_Identity sg = Some idy
    ∧ sig = Some {| Signature_Signature := raw;
                    Signature_Signer := idy;
                    Signature_Path := path |}.
Proof.
  unfold NewDarcSignature. intros Hnew.
  destruct signer as [sg|]; [|done].
  destruct (Z.of_nat (slice_len id) =? 0)%Z eqn:Hid; [done|].
  destruct (len path =? 0)%Z eqn:Hpath; [done|].
  destruct (darcsMsg path) as [pathMsg| |] eqn:Hmsg; simpl in Hnew; [|done..].
  destruct (Signer_Sign sg _) as [raw [e|]] eqn:Hsign; [done|].
  destruct (Signer_Identity sg) as [idy|] eqn:Hidy; simpl in Hnew; [|done].
  exists sg, idy, pathMsg, raw. split_and!; try done.
  - intros Hnil. unfold slice_len in Hid. by rewrite Hnil in Hid.
  - intros ->. done.
  - congruence.
Qed.

(** What [Signature.verify] checks. *)
Lemma Signature_verify_ok (s : Signature) (msg base : ID) :
  Signature_verify s msg base = Returns None
  ↔ is_Some base
    ∧ ∃ root rest pathMsg,
        Signature_Path s = Some root :: rest
        ∧ bytes_Equal (Darc_GetID root) base = true
        ∧ darcsMsg (Signature_Path s) = Returns pathMsg
        ∧ Identity_Verify (Signature_Signer s)
            (slice_bytes (hashAll [slice_bytes msg; pathMsg]).1)
            (Signature_Signature s) = Returns None.
Proof.
  unfold Signature_verify, Signature_GetPathMsg.
  destruct base as [b|]; [|split; [done|by intros [[? [=]] _]]].
  destruct (Signature_Path s) as [|[root|] rest] eqn:Hpath.
  - split; [done|]. by intros (_ & ? & ? & ? & [=] & _).
  - rewrite len_nonzero by done. simpl.
    destruct (bytes_Equal (Darc_GetID root) (Some b)) eqn:Heq; simpl.
    + destruct (darcsMsg (Some root :: rest)) as [pathMsg| |] eqn:Hmsg; simpl.
      * split.
        -- intros Hv. split; [done|]. by exists root, rest, pathMsg.
        -- intros (_ & ? & ? & ? & [= <- <-] & _ & [= <-] & Hv). done.
      * split; [done|]. by intros (_ & ? & ? & ? & _ & _ & [=] & _).
      * split; [done|]. by intros (_ & ? & ? & ? & _ & _ & [=] & _).
    + split; [done|]. intros (_ & ? & ? & ? & [= <- <-] & Hb & _). congruence.
  - rewrite len_nonzero by done. simpl.
    split; [done|]. by intros (_ & ? & ? & ? & [=] & _).
Qed.

(** What [verifyOneEvolution] checks. *)
Lemma verifyOneEvolution_ok (V : option Darc → Outcome (option error))
    (newDarc prevDarc : option Darc) (getDarc : string → option Darc) :
  verifyOneEvolution V newDarc prevDarc getDarc = Returns None
  ↔ ∃ nd pd sig,
      newDarc = Some nd ∧ prevDarc = Some pd
      ∧ is_Some (Darc_BaseID nd)
      ∧ bytes_Equal (Darc_GetBaseID nd) (Darc_GetBaseID pd) = true
      ∧ Darc_Version nd = wrap64 (Darc_Version pd + 1)
      ∧ Darc_Signature nd = Some sig
      ∧ checkEvolutionPermission V (Rules_GetEvolutionExpr (Darc_Rules pd))
          getDarc [Identity_String (Signature_Signer sig)] = Returns None
      ∧ Signature_verify sig (Darc_GetID nd) (Darc_GetBaseID pd) = Returns None.
Proof.
  unfold verifyOneEvolution.
  destruct newDarc as [nd|]; simpl; [|split; [done|by intros (?&?&?&[=]&_)]].
  destruct (Darc_BaseID nd) as [b|] eqn:Hb;
    [|split; [done|intros (?&?&?&[= <-]&_&[? Hx]&_); congruence]].
  destruct prevDarc as [pd|]; simpl; [|split; [done|by intros (?&?&?&_&[=]&_)]].
  destruct (bytes_Equal _ _) eqn:Hbase; simpl;
    [|split; [done|intros (?&?&?&[= <-]&[= <-]&_&?&_); congruence]].
  destruct (Z.eqb_spec (Darc_Version nd) (wrap64 (Darc_Version pd + 1)))
    as [Hv|Hv]; simpl;
    [|split; [done|intros (?&?&?&[= <-]&[= <-]&_&_&?&_); congruence]].
  destruct (Darc_Signature nd) as [sig|] eqn:Hsig; simpl;
    [|split; [done|intros (?&?&?&[= <-]&[= <-]&_&_&_&?&_); congruence]].
  destruct (checkEvolutionPermission _ _ _ _) as [[e|]| |] eqn:Hperm; simpl.
  all: split;
    [ first [ done | intros Hv'; exists nd, pd, sig; rewrite Hb;
                     split_and!; eauto ]
    | intros (?&?&sig'&[= <-]&[= <-]&_&_&_&Hs&Hp&Hv');
      rewrite Hsig in Hs; simplify_eq; congruence ].
Qed.

Lemma wrap64_succ (v : Z) : wrap64 (wrap64 v + 1) = wrap64 (v + 1).
Proof. unfold wrap64. by rewrite Zplus_mod_idemp_l. Qed.

(** The index of the loop shows in its error only. *)
Lemma VerifyWithCB_loop_index (V : option Darc → Outcome (option error))
    (getDarc : string → option Darc) (path : list (option Darc))
    (i j : nat) (prev : option Darc) :
  VerifyWithCB_loop V getDarc i prev path = Returns None →
  VerifyWithCB_loop V getDarc j prev path = Returns None.
Proof.
  revert i j prev. induction path as [|dPath path IH]; intros i j prev; [done|].
  simpl. destruct (match prev with None => _ | Some _ => _ end) as [[]| |];
    simpl; try done; [apply IH|].
  destruct (verifyOneEvolution V dPath prev getDarc) as [[e|]| |]; simpl;
    try done. apply IH.
Qed.

(** The loop over a path put together from two. *)
Lemma VerifyWithCB_loop_app (V : option Darc → Outcome (option error))
    (getDarc : string → option Darc) (l1 l2 : list (option Darc))
    (i j : nat) (prev : option Darc) :
  VerifyWithCB_loop V getDarc i prev l1 = Returns None →
  VerifyWithCB_loop V getDarc j (default prev (last l1)) l2 = Returns None →
  VerifyWithCB_loop V getDarc i prev (l1 ++ l2) = Returns None.
Proof.
  revert i prev. induction l1 as [|dPath l1 IH]; intros i prev H1 H2.
  - simpl in *. by apply (VerifyWithCB_loop_index _ _ _ j).
  - assert (default prev (last (dPath :: l1)) = default dPath (last l1)) as Hlast.
    { destruct l1 as [|x l1]; [reflexivity|].
      change (last (dPath :: x :: l1)) with (last (x :: l1)).
      destruct (last (x :: l1)) eqn:E; [done|]. by apply last_None in E. }
    rewrite Hlast in H2. simpl in *. revert H1.
    destruct (match prev with None => _ | Some _ => _ end) as [[]| |];
      simpl; try done; [intros; by apply IH|].
    destruct (verifyOneEvolution V dPath prev getDarc) as [[e|]| |]; simpl;
      try done. intros; by apply IH.
Qed.

(** The shape of a path that the loop accepts after [p]. *)
Lemma VerifyWithCB_loop_after (V : option Darc → Outcome (option error))
    (getDarc : string → option Darc) (path : list (option Darc))
    (i : nat) (p : Darc) :
  VerifyWithCB_loop V getDarc i (Some p) path = Returns None →
  Forall is_Some path
  ∧ ∀ (k : nat) x, path !! k = Some (Some x) →
      Darc_Version x = wrap64 (Darc_Version p + 1 + Z.of_nat k)
      ∧ is_Some (Darc_BaseID x)
      ∧ bytes_Equal (Darc_GetBaseID x) (Darc_GetBaseID p) = true.
Proof.
  revert i p. induction path as [|dPath path IH]; intros i p Hloop.
  - split; [done|]. by intros k x.
  - simpl in Hloop.
    destruct (verifyOneEvolution V dPath (Some p) getDarc) as [[e|]| |] eqn:Hone;
      simpl in Hloop; try done.
    apply verifyOneEvolution_ok in Hone
      as (nd & pd & sig & -> & [= <-] & Hb & Hbase & Hv & _).
    destruct (IH _ _ Hloop) as [Hall Hrest]. split; [by constructor|].
    intros [|k] x Hk; simpl in Hk.
    + injection Hk as <-. rewrite Z.add_0_r. done.
    + destruct (Hrest k x Hk) as (Hvx & Hbx & Hbasex). split_and!; [|done|].
      * rewrite Hvx, Hv. unfold wrap64.
        rewrite <- Z.add_assoc, Zplus_mod_idemp_l. f_equal. lia.
      * apply bytes_Equal_true. apply bytes_Equal_true in Hbasex, Hbase.
        congruence.
Qed.

(** The shape of a path that the loop accepts from the start. *)
Lemma VerifyWithCB_loop_start (V : option Darc → Outcome (option error))
    (getDarc : string → option Darc) (path : list (option Darc)) (i : nat) :
  path ≠ [] →
  VerifyWithCB_loop V getDarc i None path = Returns None →
  ∃ root rest,
    path = Some root :: rest
    ∧ Darc_Version root = 0
    ∧ Forall is_Some path
    ∧ ∀ (k : nat) x, path !! k = Some (Some x) →
        Darc_Version x = wrap64 (Z.of_nat k)
        ∧ bytes_Equal (Darc_GetBaseID x) (Darc_GetID root) = true.
Proof.
  intros Hne Hloop. destruct path as [|[root|] rest]; [done| |done].
  simpl in Hloop.
  destruct (Z.eqb_spec (Darc_Version root) 0) as [Hv|Hv]; simpl in Hloop.
  - exists root, rest. apply VerifyWithCB_loop_after in Hloop as [Hall Hrest].
    assert (Darc_GetBaseID root = Darc_GetID root) as Hroot
      by (unfold Darc_GetBaseID; by rewrite Hv).
    split_and!; [done..|by constructor|].
    intros [|k] x Hk; simpl in Hk.
    + injection Hk as <-. rewrite Hv, Hroot. split; [done|apply bytes_Equal_refl].
    + destruct (Hrest k x Hk) as (Hvx & _ & Hbx). rewrite <- Hroot. split; [|done].
      rewrite Hvx, Hv. f_equal. lia.
  - unfold verifyOneEvolution in Hloop. simpl in Hloop.
    by destruct (Darc_BaseID root).
Qed.

(** What [VerifyWithCB] checks of a darc that is not a genesis darc. *)
Lemma VerifyWithCB_body_ok (V : option Darc → Outcome (option error))
    (d : Darc) (getDarc : string → option Darc) :
  Darc_Version d ≠ 0 →
  VerifyWithCB_body V (Some d) getDarc = Returns None
  ↔ ∃ sig prev,
      Darc_Signature d = Some sig
      ∧ last (Signature_Path sig) = Some (Some prev)
      ∧ VerifyWithCB_loop V getDarc 0 None (Signature_Path sig) = Returns None
      ∧ verifyOneEvolution V (Some d) (Some prev) getDarc = Returns None.
Proof.
  intros Hv. unfold VerifyWithCB_body, Darc_GetSignerDarc.
  destruct (Z.eqb_spec (Darc_Version d) 0) as [|_]; [done|].
  destruct (Darc_Signature d) as [sig|] eqn:Hsig;
    [|split; [done|by intros (?&?&[=]&_)]].
  destruct (Signature_Path sig) as [|p0 path] eqn:Hpath.
  { simpl. split; [done|]. intros (?&?&[= <-]&Hl&_). by rewrite Hpath in Hl. }
  rewrite len_nonzero by done. rewrite <- Hpath, index_last.
  destruct (VerifyWithCB_loop V getDarc 0 None (Signature_Path sig))
    as [[e|]| |] eqn:Hloop; simpl;
    try (split; [done|intros (?&?&[= <-]&_&?&_); congruence]).
  destruct (last (Signature_Path sig)) as [[prev|]|] eqn:Hlast; simpl;
    try (split; [done|intros (?&?&[= <-]&?&_); congruence]).
  destruct (Z.eqb_spec (wrap64 (Darc_Version prev + 1)) (Darc_Version d))
    as [Hvp|Hvp]; simpl.
  - split.
    + intros Hone. by exists sig, prev.
    + intros (?&?&[= <-]&Hl&_&Hone). rewrite Hlast in Hl. by simplify_eq.
  - split; [done|]. intros (?&?&[= <-]&Hl&_&Hone). rewrite Hlast in Hl.
    simplify_eq. apply verifyOneEvolution_ok in Hone
      as (?&?&?&[= <-]&[= <-]&_&_&?&_). congruence.
Qed.

End chain_properties.

Section evolution_properties.
Context `{Suite} `{Engine}.

(** A signer that signs holds an Ed25519 key, and its signature is
    [schnorr.Sign] of the message. *)
Lemma Signer_Sign_ok (sg : Signer) (msg : slice) (raw : bytes) :
  Signer_Sign sg msg = (raw, None) →
  ∃ eds m,
    Signer_Ed25519 sg = Some eds ∧ msg = Some m
    ∧ schnorr_Sign (SignerEd25519_Secret eds) m = (raw, None)
    ∧ Signer_Identity sg = Some (NewIdentityEd25519 (SignerEd25519_Point eds)).
Proof.
  unfold Signer_Sign, Signer_Identity, SignerEd25519_Sign, SignerX509EC_Sign.
  destruct msg as [m|]; [|done].
  destruct (Signer_Ed25519 sg) as [eds|]; [|by destruct (Signer_X509EC sg)].
  intros Hs. by exists eds, m.
Qed.

(** What a successful [Evolve] has done. *)
Lemma Evolve_ok_inv (d d' : Darc) (path : list (option Darc))
    (prevOwner : option Signer) :
  Darc_Evolve d path prevOwner = (d', Returns None) →
  ∃ prev sg idy pathMsg raw,
    last path = Some (Some prev)
    ∧ prevOwner = Some sg
    ∧ Signer_Identity sg = Some idy
    ∧ darcsMsg path = Returns pathMsg
    ∧ Signer_Sign sg (hashAll [slice_bytes (Darc_GetID d'); pathMsg]).1
      = (raw, None)
    ∧ d' = {| Darc_Version := wrap64 (Darc_Version prev + 1);
              Darc_Description := Darc_Description d;
              Darc_BaseID := Darc_GetBaseID prev;
              Darc_Rules := Darc_Rules d;
              Darc_Signature :=
                Some {| Signature_Signature := raw;
                        Signature_Signer := idy;
                        Signature_Path := path |} |}.
Proof.
  unfold Darc_Evolve. rewrite index_last.
  destruct (last path) as [[prev|]|] eqn:Hlast; simpl; [|done..].
  destruct (len path =? 0)%Z; [done|].
  destruct (NewDarcSignature _ _ _) as [[[sig|] [e|]]| |] eqn:Hnew; try done.
  intros [= <-].
  apply NewDarcSignature_inv
    in Hnew as (sg & idy & pathMsg & raw & -> & _ & _ & Hmsg & Hsign & Hidy & [= ->]).
  by exists prev, sg, idy, pathMsg, raw.
Qed.

(** X8.  After a successful [Evolve] the darc stands one version after the
    last darc of the path, in the same series, with description and rules as
    they were; it carries the path it was given, which has no nil entry, and
    the identity of the signer, who holds an Ed25519 key; and [GetSignerDarc]
    hands back the last darc of the path. *)
Theorem Evolve_success (d d' : Darc) (path : list (option Darc))
    (prevOwner : option Signer) :
  Darc_Evolve d path prevOwner = (d', Returns None) →
  ∃ prev sg sig,
    last path = Some (Some prev)
    ∧ Darc_Version d' = wrap64 (Darc_Version prev + 1)
    ∧ Darc_BaseID d' = Darc_GetBaseID prev
    ∧ Darc_Description d' = Darc_Description d
    ∧ Darc_Rules d' = Darc_Rules d
    ∧ Darc_Signature d' = Some sig
    ∧ Signature_Path sig = path
    ∧ Forall is_Some path
    ∧ prevOwner = Some sg
    ∧ Signer_Type sg = 1
    ∧ Signer_Identity sg = Some (Signature_Signer sig)
    ∧ Darc_GetSignerDarc d' = Returns (Some prev, None).
Proof.
  intros (prev & sg & idy & pathMsg & raw & Hlast & -> & Hidy & Hmsg & Hsign & ->)
    %Evolve_ok_inv.
  exists prev, sg, (Build_Signature raw idy path). simpl.
  apply Signer_Sign_ok in Hsign as (eds & m & Heds & _).
  split_and!; try done.
  - by apply darcsMsg_returns in Hmsg.
  - unfold Signer_Type. by rewrite Heds.
  - unfold Darc_GetSignerDarc. simpl.
    rewrite len_nonzero by (by intros ->). rewrite index_last, Hlast. simpl.
    by rewrite Z.eqb_refl.
Qed.

(** X9.  A signature made by [NewDarcSignature] passes [Signature.verify] for
    the ID it was made for and a base that is the ID of the first darc of
    its path, given that what the signer's secret signs verifies under the
    signer's point. *)
Theorem NewDarcSignature_verifies (sg : Signer) (id base : ID)
    (path : list (option Darc)) (sig : Signature) (root : Darc) :
  (∀ eds msg raw,
     Signer_Ed25519 sg = Some eds →
     schnorr_Sign (SignerEd25519_Secret eds) msg = (raw, None) →
     schnorr_Verify (SignerEd25519_Point eds) msg raw = None) →
  NewDarcSignature (Some sg) id path = Returns (Some sig, None) →
  head path = Some (Some root) →
  is_Some base →
  bytes_Equal (Darc_GetID root) base = true →
  Signature_Path sig = path
  ∧ Signer_Identity sg = Some (Signature_Signer sig)
  ∧ Signature_verify sig id base = Returns None.
Proof.
  intros Hcrypto
    (sg' & idy & pathMsg & raw & [= <-] & _ & _ & Hmsg & Hsign & Hidy & [= ->])
    %NewDarcSignature_inv Hroot Hbase Heq.
  split_and!; [done..|].
  apply Signature_verify_ok. split; [done|]. simpl.
  destruct path as [|p rest]; simplify_eq/=.
  exists root, rest, pathMsg. split_and!; [done..|].
  apply Signer_Sign_ok in Hsign as (eds & m & Heds & Hm & Hraw & Hidy').
  rewrite Hidy' in Hidy. injection Hidy as <-.
  rewrite Hm. unfold Identity_Verify, IdentityEd25519_Verify. simpl.
  by rewrite (Hcrypto eds m raw Heds Hraw).
Qed.

(** An identity whose [Verify] accepts holds a key. *)
Lemma Identity_Verify_ok_kind (id : Identity) (msg sig : bytes) :
  Identity_Verify id msg sig = Returns None →
  Identity_Type id = 1 ∨ Identity_Type id = 2.
Proof.
  unfold Identity_Verify, Identity_Type.
  destruct (Identity_switch id); try done; eauto.
Qed.

(** X10.  What [VerifyWithCB] has checked when it accepts a darc that is not
    a genesis darc: the darc carries a signature with a path; it stands one
    version after the last darc of the path, in the same series, with a base
    ID that is not nil; the signer satisfies the evolution rule of that last
    darc; the signer holds a key, and its signature of the digest of the ID
    and the path message verifies; and the first darc of the path has the base
    ID as its ID. *)
Theorem VerifyWithCB_accepts (d : Darc) (getDarc : string → option Darc) :
  Darc_VerifyWithCB (Some d) getDarc = Returns None →
  Darc_Version d ≠ 0 →
  ∃ sig root rest prev pathMsg,
    Darc_Signature d = Some sig
    ∧ Signature_Path sig = Some root :: rest
    ∧ last (Signature_Path sig) = Some (Some prev)
    ∧ is_Some (Darc_BaseID d)
    ∧ Darc_Version d = wrap64 (Darc_Version prev + 1)
    ∧ bytes_Equal (Darc_GetBaseID d) (Darc_GetBaseID prev) = true
    ∧ bytes_Equal (Darc_GetID root) (Darc_GetBaseID prev) = true
    ∧ checkEvolutionPermission Darc_Verify
        (Rules_GetEvolutionExpr (Darc_Rules prev)) getDarc
        [Identity_String (Signature_Signer sig)] = Returns None
    ∧ (Identity_Type (Signature_Signer sig) = 1
       ∨ Identity_Type (Signature_Signer sig) = 2)
    ∧ darcsMsg (Signature_Path sig) = Returns pathMsg
    ∧ Identity_Verify (Signature_Signer sig)
        (slice_bytes (hashAll [slice_bytes (Darc_GetID d); pathMsg]).1)
        (Signature_Signature sig) = Returns None.
Proof.
  intros Hver Hv. unfold Darc_VerifyWithCB in Hver.
  apply VerifyWithCB_body_ok in Hver as (sig & prev & Hsig & Hlast & _ & Hone);
    [|done].
  apply verifyOneEvolution_ok in Hone
    as (? & ? & sig' & [= <-] & [= <-] & Hb & Hbase & Hvd & Hsig' & Hperm & Hsv).
  rewrite Hsig in Hsig'. injection Hsig' as <-.
  apply Signature_verify_ok in Hsv
    as (_ & root & rest & pathMsg & Hpath & Hroot & Hmsg & Hidv).
  exists sig, root, rest, prev, pathMsg.
  split_and!; try done. by apply Identity_Verify_ok_kind in Hidv.
Qed.

(** X11.  The path of a darc that [VerifyWithCB] accepts, the darc not being a
    genesis darc, is a whole history: no entry is nil, the first is a genesis
    darc, the darc at index [k] has version [k] (in [uint64]) and the ID of
    the first as its base ID, and the darc itself has the length of the path
    as its version and the same base ID. *)
Theorem VerifyWithCB_accepts_history (d : Darc)
    (getDarc : string → option Darc) :
  Darc_VerifyWithCB (Some d) getDarc = Returns None →
  Darc_Version d ≠ 0 →
  ∃ sig root,
    Darc_Signature d = Some sig
    ∧ head (Signature_Path sig) = Some (Some root)
    ∧ Darc_Version root = 0
    ∧ Forall is_Some (Signature_Path sig)
    ∧ (∀ (k : nat) x, Signature_Path sig !! k = Some (Some x) →
         Darc_Version x = wrap64 (Z.of_nat k)
         ∧ bytes_Equal (Darc_GetBaseID x) (Darc_GetID root) = true)
    ∧ Darc_Version d = wrap64 (len (Signature_Path sig))
    ∧ bytes_Equal (Darc_GetBaseID d) (Darc_GetID root) = true.
Proof.
  intros Hver Hv. unfold Darc_VerifyWithCB in Hver.
  apply VerifyWithCB_body_ok in Hver as (sig & prev & Hsig & Hlast & Hloop & Hone);
    [|done].
  assert (Signature_Path sig ≠ []) as Hne by (intros E; by rewrite E in Hlast).
  apply VerifyWithCB_loop_start in Hloop
    as (root & rest & Hpath & Hroot & Hall & Hshape); [|done].
  apply verifyOneEvolution_ok in Hone
    as (? & ? & _ & [= <-] & [= <-] & _ & Hbase & Hvd & _).
  rewrite last_lookup in Hlast.
  destruct (Hshape _ _ Hlast) as [Hvprev Hbprev].
  exists sig, root. split_and!; try done.
  - by rewrite Hpath.
  - rewrite Hvd, Hvprev, wrap64_succ. unfold len. f_equal.
    destruct (Signature_Path sig); [done|]. simpl. lia.
  - apply bytes_Equal_true. apply bytes_Equal_true in Hbase, Hbprev. congruence.
Qed.

End evolution_properties.

Section closure_properties.
Context `{Suite} `{Engine}.

(** X12.  Evolution keeps verifying.  Let [prev] be a darc that
    [VerifyWithCB] accepts, and let [Evolve] succeed on the path
    [Darc_chain prev], the history of [prev] followed by [prev], for a signer
    that [checkEvolutionPermission] admits to the evolution rule of [prev].
    Then [VerifyWithCB] accepts the evolved darc.  Assumed of the
    collaborators: digests have 32 bytes, and what the signer's secret signs
    verifies under the signer's point. *)
Theorem Evolve_keeps_verifying (prev d d' : Darc) (owner : Signer)
    (id : Identity) (getDarc : string → option Darc) :
  (∀ m, length (sha256_Sum m) = 32%nat) →
  (∀ eds msg raw,
     Signer_Ed25519 owner = Some eds →
     schnorr_Sign (SignerEd25519_Secret eds) msg = (raw, None) →
     schnorr_Verify (SignerEd25519_Point eds) msg raw = None) →
  Darc_VerifyWithCB (Some prev) getDarc = Returns None →
  Signer_Identity owner = Some id →
  checkEvolutionPermission Darc_Verify
    (Rules_GetEvolutionExpr (Darc_Rules prev)) getDarc [Identity_String id]
  = Returns None →
  Darc_Evolve d (Darc_chain prev) (Some owner) = (d', Returns None) →
  Darc_VerifyWithCB (Some d') getDarc = Returns None.
Proof.
  intros Hlen Hcrypto Hprev Hid Hperm Hev.
  apply Evolve_ok_inv in Hev
    as (prev' & sg & idy & pathMsg & raw & Hlast & [= <-] & Hidy & Hmsg & Hsign & ->).
  assert (prev' = prev) as ->.
  { unfold Darc_chain in Hlast. rewrite last_snoc in Hlast. by simplify_eq. }
  rewrite Hid in Hidy. injection Hidy as <-.
  set (sig := Build_Signature raw id (Darc_chain prev)) in *.
  set (d' := Build_Darc _ _ _ _ (Some sig)) in *.
  (* what the verification of [prev] gives *)
  assert (is_Some (Darc_GetBaseID prev)
          ∧ VerifyWithCB_loop Darc_Verify getDarc 0 None (Darc_chain prev)
            = Returns None
          ∧ ∃ root rest, Darc_chain prev = Some root :: rest
              ∧ bytes_Equal (Darc_GetID root) (Darc_GetBaseID prev) = true)
    as (Hbase & Hloop & root & rest & Hchain & Hroot).
  { unfold Darc_chain, Darc_GetBaseID.
    destruct (Z.eqb_spec (Darc_Version prev) 0) as [Hv0|Hv0].
    - destruct (GetID_Some prev Hlen) as (b & Hb & _). split_and!.
      + rewrite Hb. eauto.
      + simpl. by rewrite (proj2 (Z.eqb_eq _ _) Hv0).
      + exists prev, []. split; [done|apply bytes_Equal_refl].
    - unfold Darc_VerifyWithCB in Hprev.
      apply VerifyWithCB_body_ok in Hprev
        as (sp & lastp & Hsp & Hlastp & Hloopp & Hone); [|done].
      rewrite Hsp.
      pose proof Hone as Hone'.
      apply verifyOneEvolution_ok in Hone'
        as (? & ? & sp' & [= <-] & [= <-] & Hb & Hbeq & _ & Hsp' & _ & Hsv).
      rewrite Hsp in Hsp'. injection Hsp' as <-.
      apply Signature_verify_ok in Hsv
        as (_ & root & rest & _ & Hpath & Hroot & _).
      split_and!.
      + done.
      + apply (VerifyWithCB_loop_app _ _ _ _ 0 0); [done|].
        rewrite Hlastp. simpl. by rewrite Hone.
      + exists root, (rest ++ [Some prev]). rewrite Hpath. split; [done|].
        unfold Darc_GetBaseID in Hbeq, Hroot.
        rewrite (proj2 (Z.eqb_neq _ _) Hv0) in Hbeq.
        apply bytes_Equal_true. apply bytes_Equal_true in Hbeq, Hroot.
        congruence. }
  unfold Darc_VerifyWithCB.
  destruct (Z.eqb_spec (Darc_Version d') 0) as [Hv'|Hv'].
  { unfold VerifyWithCB_body. by rewrite (proj2 (Z.eqb_eq _ _) Hv'). }
  apply VerifyWithCB_body_ok; [done|].
  exists sig, prev. split_and!; [done|done|done|].
  apply verifyOneEvolution_ok. exists d', prev, sig.
  assert (Darc_GetBaseID d' = Darc_GetBaseID prev) as Hb'.
  { unfold Darc_GetBaseID at 1. by rewrite (proj2 (Z.eqb_neq _ _) Hv'). }
  split_and!; try done.
  - rewrite Hb'. apply bytes_Equal_refl.
  - apply Signature_verify_ok. split; [done|].
    exists root, rest, pathMsg. split_and!; [done..|].
    apply Signer_Sign_ok in Hsign as (eds & m & Heds & Hm & Hraw & Hidy').
    rewrite Hidy' in Hid. injection Hid as <-.
    rewrite Hm. unfold Identity_Verify, IdentityEd25519_Verify. simpl.
    by rewrite (Hcrypto eds m raw Heds Hraw).
Qed.

End closure_properties.

(** ** The oracle of [checkEvolutionPermission] *)

Section oracle_properties.
Context `{Suite} `{Engine}.

(** X13.  The oracle on a term that names a darc, for a latest darc [d] with
    a signature whose path has no nil entry, and an evaluator that returns
    on the evolution rules of [d] and of the darcs of the path.  When
    [d.Verify()] panics, so does the oracle.  When [d.Verify()] returns, the
    oracle returns, and the term is satisfied exactly when [d] verifies, a
    darc of the path has the term as its identity string, and the identities
    satisfy the evolution rule of [d] or of a darc of the path at or after
    one named by the term. *)
Theorem evolutionOracle_darc_term (getDarc : string → option Darc)
    (ids : list string) (s : string) (d : Darc) (sig : Signature) :
  String.prefix "darc" s = true →
  getDarc s = Some d →
  Darc_Signature d = Some sig →
  Forall is_Some (Signature_Path sig) →
  (∀ x, x = d ∨ Some x ∈ Signature_Path sig →
     ∃ r, DefaultParser (Rules_GetEvolutionExpr (Darc_Rules x)) ids = Returns r) →
  (∀ p, Darc_Verify (Some d) = Panics p →
     evolutionOracle Darc_Verify getDarc ids s = Panics p)
  ∧ (∀ verr, Darc_Verify (Some d) = Returns verr →
     ∃ b, evolutionOracle Darc_Verify getDarc ids s = Returns b
       ∧ (b = true ↔
          verr = None
          ∧ (∃ x, Some x ∈ Signature_Path sig ∧ Darc_GetIdentityString x = s)
          ∧ (admits ids d ∨ admitted_from ids s (Signature_Path sig)))).
Proof.
  intros Hp Hget Hsig Hnonnil Htotal. split.
  { intros p Hver. unfold evolutionOracle. by rewrite Hp, Hget, Hver. }
  intros verr Hver.
  unfold evolutionOracle. rewrite Hp, Hget, Hver. simpl.
  destruct verr as [e|]; simpl.
  { exists false. split; [done|]. split; [done|]. by intros [[=] _]. }
  unfold Signature_PathContains. rewrite Hsig. simpl.
  destruct (isPathMember_loop s _ Hnonnil) as (b1 & -> & Hb1). simpl.
  destruct b1; simpl; cycle 1.
  { exists false. split; [done|]. split; [done|].
    intros (_ & Hmem & _). by apply Hb1 in Hmem. }
  destruct (Htotal d) as [[ok err] Hlatest]; [by left|].
  rewrite Hlatest. simpl.
  assert (admits ids d ↔ ok = true ∧ err = None) as Hadm.
  { unfold admits. rewrite Hlatest. naive_solver. }
  destruct (searchOlder_loop s ids _ false Hnonnil) as (b & Hb & Hiff).
  { intros x Hx. apply Htotal. by right. }
  destruct err as [e|]; [|destruct ok].
  - exists b. split; [done|]. rewrite Hiff. naive_solver.
  - exists true. split; [done|]. naive_solver.
  - exists b. split; [done|]. rewrite Hiff. naive_solver.
Qed.

(** X14.  A darc without signature passes [Verify] when it is a genesis darc;
    handed out by the callback for a term that names a darc, it makes the
    oracle read the path of the nil signature: a panic, not an answer. *)
Theorem evolutionOracle_unsigned_darc (getDarc : string → option Darc)
    (ids : list string) (s : string) (d : Darc) :
  String.prefix "darc" s = true →
  getDarc s = Some d →
  Darc_Version d = 0 →
  Darc_Signature d = None →
  Darc_Verify (Some d) = Returns None
  ∧ evolutionOracle Darc_Verify getDarc ids s = Panics NilDereference.
Proof.
  intros Hp Hget Hv Hsig.
  assert (Darc_Verify (Some d) = Returns None) as Hver.
  { unfold Darc_Verify. simpl. by rewrite Hv. }
  split; [done|].
  unfold evolutionOracle. rewrite Hp, Hget, Hver. simpl.
  unfold Signature_PathContains. by rewrite Hsig.
Qed.

(** X15.  The ID covers the version: with SHA-256 taken as injective, darcs
    of different versions have different IDs, so a darc that [Evolve] has
    made is not [Equal] to the darc it was evolved from. *)
Theorem GetID_covers_version (d d2 : Darc) :
  (∀ a b, sha256_Sum a = sha256_Sum b → a = b) →
  0 ≤ Darc_Version d < 2 ^ 64 →
  0 ≤ Darc_Version d2 < 2 ^ 64 →
  (Darc_Equal d d2 = true → Darc_Version d = Darc_Version d2)
  ∧ (∀ dn path owner,
       Darc_Evolve dn path owner = (d2, Returns None) →
       last path = Some (Some d) →
       Darc_Equal d d2 = false).
Proof.
  intros Hinj Hv Hv2.
  assert (Darc_Equal d d2 = true → Darc_Version d = Darc_Version d2) as Heq.
  { unfold Darc_Equal, Darc_GetID, Darc_GetID_ranging, h_Sum. cbv zeta.
    rewrite bytes_Equal_true, !append_nil_bytes, !write_rules.
    intros E%Hinj. unfold h_Write, sha256_New in E.
    rewrite <- !app_assoc, !app_nil_l in E.
    apply app_inj_1 in E as [E _]; [|reflexivity].
    rewrite <- (PutUint64_little_endian (Darc_Version d)),
      <- (PutUint64_little_endian (Darc_Version d2)) by done.
    by rewrite E. }
  split; [done|].
  intros dn path owner
    (prev & sg & idy & pathMsg & raw & Hlast & _ & _ & _ & _ & Hd2)%Evolve_ok_inv
    Hlast'.
  rewrite Hlast in Hlast'. injection Hlast' as ->.
  apply not_true_is_false. intros E.
  apply Heq in E. rewrite Hd2 in E. simpl in E.
  unfold wrap64 in E.
  destruct (Z.eq_dec (Darc_Version d + 1) (2 ^ 64)) as [Hmax|Hmax].
  - rewrite Hmax, Z_mod_same_full in E. lia.
  - rewrite Z.mod_small in E by lia. lia.
Qed.

End oracle_properties.

(** ** Requests *)

Section request_properties.
Context `{Suite} `{Engine}.

Lemma index_nat {A} (l : list A) (i : nat) (a : A) :
  index l (Z.of_nat i) = Returns a ↔ l !! i = Some a.
Proof.
  unfold index. destruct (Z.ltb_spec (Z.of_nat i) 0); [lia|].
  rewrite Nat2Z.id. destruct (l !! i); naive_solver.
Qed.

(** What the loop of [CheckRequest] checks. *)
Lemma CheckRequest_loop_ok (digest : bytes) (signatures : list bytes)
    (ids : list (option Identity)) (i : nat) :
  CheckRequest_loop digest signatures i ids = Returns None
  ↔ ∃ xs, ids = Some <$> xs
      ∧ ∀ (k : nat) x, xs !! k = Some x →
          ∃ sig, signatures !! (i + k)%nat = Some sig
                 ∧ Identity_Verify x digest sig = Returns None.
Proof.
  revert i. induction ids as [|id ids IH]; intros i; simpl.
  - split; [|done]. intros _. exists []. split; [done|]. by intros k x.
  - destruct (index signatures (Z.of_nat i)) as [sig| |] eqn:Hsig; simpl.
    2,3: split; [done|]; intros ([|x xs] & [= ] & Hall); subst;
      destruct (Hall 0%nat x eq_refl) as (sig & Hs & _);
      rewrite Nat.add_0_r in Hs; apply index_nat in Hs; congruence.
    apply index_nat in Hsig.
    destruct id as [x|]; simpl;
      [|split; [done|by intros ([|? ?] & [=] & _)]].
    destruct (Identity_Verify x digest sig) as [[e|]| |] eqn:Hv; simpl.
    1,3,4: split; [done|]; intros ([|x' xs] & [= ] & Hall); subst;
      destruct (Hall 0%nat x' eq_refl) as (sig' & Hs & Hv');
      rewrite Nat.add_0_r in Hs; congruence.
    rewrite IH. split.
    + intros (xs & -> & Hall). exists (x :: xs). split; [done|].
      intros [|k] y Hy; simpl in Hy.
      * injection Hy as <-. exists sig. by rewrite Nat.add_0_r.
      * destruct (Hall k y Hy) as (sig' & Hs & Hv'). exists sig'.
        split; [|done]. by replace (i + S k)%nat with (S i + k)%nat by lia.
    + intros ([|x' xs] & [= ] & Hall); subst. exists xs. split; [done|].
      intros k y Hy. destruct (Hall (S k) y Hy) as (sig' & Hs & Hv').
      exists sig'. split; [|done].
      by replace (S i + k)%nat with (i + S k)%nat by lia.
Qed.

Lemma GetIdentityStrings_loop_Some (xs : list Identity) :
  GetIdentityStrings_loop (Some <$> xs) = Returns (Identity_String <$> xs).
Proof. induction xs as [|x xs IH]; csimpl; [done|]. by rewrite IH. Qed.

(** X16.  What [CheckRequest] has checked when it accepts: the request names
    the darc, its action has a rule, no identity is nil, there is a signature
    for each identity and each verifies over the hash of the request, and
    the rule of the action holds of the identity strings. *)
Theorem CheckRequest_accepts (d : Darc) (r : Request) :
  Darc_CheckRequest d r = Returns None →
  bytes_Equal (Darc_GetID d) (Request_ID r) = true
  ∧ is_Some (Darc_Rules d !! Request_Action r)
  ∧ (length (Request_Identities r) ≤ length (Request_Signatures r))%nat
  ∧ ∃ xs, Request_Identities r = Some <$> xs
      ∧ (∀ (k : nat) x, xs !! k = Some x →
           ∃ sig, Request_Signatures r !! k = Some sig
                  ∧ Identity_Verify x (slice_bytes (Request_Hash r).1) sig
                    = Returns None)
      ∧ DefaultParser (Rules_get (Darc_Rules d) (Request_Action r))
          (Identity_String <$> xs) = Returns (true, None).
Proof.
  unfold Darc_CheckRequest, Rules_Contains, Request_GetIdentityStrings.
  destruct (bytes_Equal _ _); simpl; [|done].
  destruct (Darc_Rules d !! Request_Action r) as [e|] eqn:Hrule; simpl; [|done].
  destruct (CheckRequest_loop _ _ _ _) as [[err|]| |] eqn:Hloop; simpl;
    try done.
  apply CheckRequest_loop_ok in Hloop as (xs & Hxs & Hall).
  rewrite Hxs, GetIdentityStrings_loop_Some. simpl.
  destruct (DefaultParser _ _) as [[ok [err|]]| |] eqn:Hexpr; simpl; try done.
  destruct ok; simpl; [|done]. intros _.
  split_and!; [done|by eauto|..].
  - rewrite length_fmap.
    destruct (decide (length xs ≤ length (Request_Signatures r))%nat) as [|Hn];
      [done|].
    destruct (lookup_lt_is_Some_2 xs (length (Request_Signatures r)))
      as [x Hx]; [lia|].
    destruct (Hall _ _ Hx) as (sig & Hs%lookup_lt_Some & _). simpl in Hs. lia.
  - exists xs. by split_and!.
Qed.

(** What a successful loop of [NewRequest] has filled in. *)
Lemma NewRequest_loop_ok (digest : slice) (signers : list (option Signer))
    (ids : list (option Identity)) (sigs : list bytes) :
  NewRequest_loop digest signers = Returns (ids, sigs, None) →
  ∃ sgs, signers = Some <$> sgs
    ∧ ids = Signer_Identity <$> sgs
    ∧ Forall2 (fun sg raw => Signer_Sign sg digest = (raw, None)) sgs sigs.
Proof.
  revert ids sigs. induction signers as [|[sg|] signers IH]; intros ids sigs;
    simpl; [| |done].
  - intros [= <- <-]. by exists [].
  - destruct (Signer_Sign sg digest) as [raw [e|]] eqn:Hsign; [done|].
    destruct (NewRequest_loop digest signers) as [[[ids' sigs'] [e|]]| |];
      simpl; try done.
    intros [= <- <-]. destruct (IH _ _ eq_refl) as (sgs & -> & -> & Hall).
    exists (sg :: sgs). split_and!; [done..|]. by constructor.
Qed.

(** X17.  A request that [NewRequest] hands out carries the ID, action and
    message it was given and, for each signer in turn, the identity of the
    signer and its signature of the hash of the request: as many identities
    and as many signatures as signers, every signer holding an Ed25519 key. *)
Theorem NewRequest_success (darcID : ID) (action : Action) (msg : bytes)
    (signers : list (option Signer)) (r : Request) :
  NewRequest darcID action msg signers = Returns (Some r, None) →
  Request_ID r = darcID ∧ Request_Action r = action ∧ Request_Msg r = msg
  ∧ length (Request_Identities r) = length signers
  ∧ length (Request_Signatures r) = length signers
  ∧ ∃ sgs, signers = Some <$> sgs
      ∧ Request_Identities r = Signer_Identity <$> sgs
      ∧ ∀ (k : nat) sg, sgs !! k = Some sg →
          Signer_Type sg = 1
          ∧ ∃ raw, Request_Signatures r !! k = Some raw
                   ∧ Signer_Sign sg (Request_Hash r).1 = (raw, None).
Proof.
  unfold NewRequest. simpl.
  destruct (NewRequest_loop _ signers) as [[[ids sigs] [e|]]| |] eqn:Hloop;
    simpl; try done.
  intros [= <-]. simpl.
  apply NewRequest_loop_ok in Hloop as (sgs & -> & -> & Hall).
  pose proof (Forall2_length _ _ _ Hall) as Hlen.
  split_and!; try done.
  - by rewrite !length_fmap.
  - by rewrite length_fmap.
  - exists sgs. split_and!; [done..|].
    intros k sg Hk.
    destruct (Forall2_lookup_l _ _ _ _ _ Hall Hk) as (raw & Hraw & Hsign).
    split; [|by exists raw].
    apply Signer_Sign_ok in Hsign as (eds & _ & Heds & _).
    unfold Signer_Type. by rewrite Heds.
Qed.

(** X18.  A request that [NewRequest] made for the ID of a darc and one of its
    actions passes [CheckRequest] on that darc when the rule of the action
    holds of the identity strings of the signers, given that what a signer's
    secret signs verifies under the signer's point. *)
Theorem NewRequest_passes_CheckRequest (d : Darc) (action : Action)
    (msg : bytes) (signers : list (option Signer)) (r : Request) :
  (∀ sg eds m raw,
     Some sg ∈ signers →
     Signer_Ed25519 sg = Some eds →
     schnorr_Sign (SignerEd25519_Secret eds) m = (raw, None) →
     schnorr_Verify (SignerEd25519_Point eds) m raw = None) →
  NewRequest (Darc_GetID d) action msg signers = Returns (Some r, None) →
  is_Some (Darc_Rules d !! action) →
  (∀ strs, Request_GetIdentityStrings r = Returns strs →
     DefaultParser (Rules_get (Darc_Rules d) action) strs
     = Returns (true, None)) →
  Darc_CheckRequest d r = Returns None.
Proof.
  intros Hcrypto Hnew [e Hrule] Hexpr.
  unfold NewRequest, Request_Hash in Hnew. cbv zeta in Hnew.
  cbn [Request_ID Request_Action Request_Msg] in Hnew.
  set (digest := h_Sum _) in Hnew.
  destruct (NewRequest_loop digest signers) as [[[ids sigs] [err|]]| |] eqn:Hloop;
    simpl in Hnew; try done.
  injection Hnew as <-.
  apply NewRequest_loop_ok in Hloop as (sgs & -> & -> & Hall).
  assert (∃ xs, Signer_Identity <$> sgs = Some <$> xs
            ∧ ∀ (k : nat) x, xs !! k = Some x →
                ∃ sig, sigs !! (0 + k)%nat = Some sig
                  ∧ Identity_Verify x (slice_bytes digest) sig = Returns None)
    as (xs & Hxs & Hver).
  { clear Hexpr. clearbody digest. revert Hcrypto.
    induction Hall as [|sg raw sgs sigs Hsign Hall IH]; intros Hcrypto.
    - exists []. split; [done|]. by intros k x.
    - destruct IH as (xs & Hxs & Hver).
      { intros sg' eds' m' raw' Hsg'. apply Hcrypto. rewrite fmap_cons.
        by right. }
      apply Signer_Sign_ok in Hsign as (eds & m & Heds & Hm & Hraw & Hidy).
      exists (NewIdentityEd25519 (SignerEd25519_Point eds) :: xs).
      split; [rewrite !fmap_cons; by rewrite Hidy, Hxs|].
      intros [|k] x Hx; simpl in Hx.
      + injection Hx as <-. exists raw. split; [done|].
        rewrite Hm. unfold Identity_Verify, IdentityEd25519_Verify. simpl.
        rewrite (Hcrypto sg eds m raw); [done| |done..].
        rewrite fmap_cons. by left.
      + apply Hver in Hx as (sig & Hs & Hv). by exists sig. }
  unfold Darc_CheckRequest, Rules_Contains, Request_GetIdentityStrings,
    Request_Hash in *.
  cbv zeta. cbn [Request_ID Request_Action Request_Msg Request_Identities
                 Request_Signatures] in *.
  fold digest. rewrite bytes_Equal_refl, Hrule. simpl.
  rewrite (proj2 (CheckRequest_loop_ok _ _ _ _)); [|by exists xs].
  simpl. rewrite Hxs, GetIdentityStrings_loop_Some in *. simpl.
  by rewrite (Hexpr _ eq_refl).
Qed.

End request_properties.

(** * Properties of the elections *)

Lemma swap_ends {A} (pre mid post : list A) (a b : A) :
  lib.swap (pre ++ a :: mid ++ b :: post) (length pre)
    (length pre + S (length mid))
  = pre ++ b :: mid ++ a :: post.
Proof.
  unfold lib.swap.
  assert ((pre ++ a :: mid ++ b :: post) !! length pre = Some a) as ->.
  { by rewrite lookup_app_r, Nat.sub_diag by lia. }
  assert ((pre ++ a :: mid ++ b :: post) !! (length pre + S (length mid))%nat
          = Some b) as ->.
  { rewrite lookup_app_r by lia.
    replace (length pre + S (length mid) - length pre)%nat
      with (S (length mid)) by lia.
    simpl. by rewrite lookup_app_r, Nat.sub_diag by lia. }
  rewrite insert_app_r_alt, Nat.sub_diag by lia. simpl.
  rewrite insert_app_r_alt by lia.
  replace (length pre + S (length mid) - length pre)%nat
    with (S (length mid)) by lia.
  simpl. by rewrite insert_app_r_alt, Nat.sub_diag by lia.
Qed.

Lemma reverse_loop_middle {A} (fuel : nat) (pre mid post : list A) :
  (length mid ≤ fuel)%nat →
  lib.reverse_loop fuel (len pre) (len pre + len mid - 1) (pre ++ mid ++ post)
  = pre ++ reverse mid ++ post.
Proof.
  revert pre mid post. induction fuel as [|fuel IH]; intros pre mid post Hfuel.
  - destruct mid; [done|simpl in Hfuel; lia].
  - cbn [lib.reverse_loop]. unfold len.
    destruct mid as [|a mid].
    { destruct (Z.ltb_spec (Z.of_nat (length pre))
                  (Z.of_nat (length pre) + Z.of_nat (length (@nil A)) - 1));
        [simpl in *; lia|done]. }
    destruct mid as [|b mid _] using rev_ind.
    { destruct (Z.ltb_spec (Z.of_nat (length pre))
                  (Z.of_nat (length pre) + Z.of_nat (length [a]) - 1));
        [simpl in *; lia|done]. }
    destruct (Z.ltb_spec (Z.of_nat (length pre))
                (Z.of_nat (length pre) + Z.of_nat (length (a :: mid ++ [b])) - 1))
      as [_|Hge]; [|simpl in Hge; rewrite length_app in Hge; simpl in Hge; lia].
    simpl in Hfuel. rewrite length_app in Hfuel. simpl in Hfuel.
    rewrite Nat2Z.id.
    replace (Z.to_nat (Z.of_nat (length pre)
                       + Z.of_nat (length (a :: mid ++ [b])) - 1))
      with (length pre + S (length mid))%nat
      by (simpl; rewrite length_app; simpl; lia).
    replace (pre ++ (a :: mid ++ [b]) ++ post)
      with (pre ++ a :: mid ++ b :: post)
      by (simpl; by rewrite <- app_assoc).
    rewrite swap_ends.
    replace (pre ++ b :: mid ++ a :: post)
      with ((pre ++ [b]) ++ mid ++ (a :: post)) by (by rewrite <- app_assoc).
    replace (Z.of_nat (length pre) + 1) with (len (pre ++ [b]))
      by (unfold len; rewrite length_app; simpl; lia).
    replace (Z.of_nat (length pre) + Z.of_nat (length (a :: mid ++ [b])) - 1 - 1)
      with (len (pre ++ [b]) + len mid - 1)
      by (unfold len; simpl; rewrite !length_app; simpl; lia).
    rewrite IH by lia.
    rewrite reverse_cons, reverse_snoc. simpl.
    by rewrite <- !app_assoc.
Qed.

Lemma reverse_in_place_reverse {A} (l : list A) :
  lib.reverse_in_place l = reverse l.
Proof.
  unfold lib.reverse_in_place.
  pose proof (reverse_loop_middle (length l) [] l [] (le_n _)) as Hmid.
  rewrite !app_nil_r in Hmid. simpl in Hmid. exact Hmid.
Qed.

Section election_properties.
Context {Ballot Mix Partial : Type}.
Variable Ballot_User : Ballot → Z.
Variable UnmarshalTransaction : bytes → option (lib.Transaction Ballot Mix Partial).
Variable GetSingleBlockByIndex :
  lib.SkipBlockID → Z → option lib.SkipBlock * option error.
Variable GetSingleBlock : lib.SkipBlockID → option lib.SkipBlock * option error.

Implicit Types (ballots unique : list Ballot) (mapping : gmap Z bool).

Lemma unique_loop_invariant mapping unique (b : Ballot) :
  (∀ x, is_Some (mapping !! x) ↔ x ∈ Ballot_User <$> unique) →
  mapping !! Ballot_User b = None →
  ∀ x, is_Some (<[Ballot_User b := true]> mapping !! x)
       ↔ x ∈ Ballot_User <$> (unique ++ [b]).
Proof.
  intros Hinv Hb x.
  rewrite lookup_insert_is_Some, fmap_app, elem_of_app, <- Hinv.
  assert (x ∈ Ballot_User <$> [b] ↔ Ballot_User b = x) as -> by set_solver.
  destruct (decide (Ballot_User b = x)) as [<-|]; [|naive_solver].
  rewrite Hb. naive_solver.
Qed.

Lemma empty_invariant (x : Z) :
  is_Some ((∅ : gmap Z bool) !! x) ↔ x ∈ Ballot_User <$> ([] : list Ballot).
Proof. rewrite lookup_empty. split; [by intros []|by intros ?%elem_of_nil]. Qed.

Lemma unique_loop_users mapping unique ballots (u : Z) :
  (∀ x, is_Some (mapping !! x) ↔ x ∈ Ballot_User <$> unique) →
  u ∈ Ballot_User <$> lib.unique_loop Ballot_User mapping unique ballots
  ↔ u ∈ Ballot_User <$> unique ∨ u ∈ Ballot_User <$> ballots.
Proof.
  revert mapping unique. induction ballots as [|b ballots IH];
    intros mapping unique Hinv; cbn [lib.unique_loop].
  - set_solver.
  - destruct (mapping !! Ballot_User b) as [t|] eqn:Hb.
    + rewrite IH by done.
      assert (Ballot_User b ∈ Ballot_User <$> unique) by (apply Hinv; eauto).
      set_solver.
    + rewrite IH by (by apply unique_loop_invariant). set_solver.
Qed.

Lemma unique_loop_snoc mapping unique ballots (b : Ballot) :
  (∀ x, is_Some (mapping !! x) ↔ x ∈ Ballot_User <$> unique) →
  lib.unique_loop Ballot_User mapping unique (ballots ++ [b])
  = let r := lib.unique_loop Ballot_User mapping unique ballots in
    if bool_decide (Ballot_User b ∈ Ballot_User <$> r) then r else r ++ [b].
Proof.
  revert mapping unique. induction ballots as [|a ballots IH];
    intros mapping unique Hinv; simpl.
  - destruct (mapping !! Ballot_User b) as [t|] eqn:Hb.
    + rewrite bool_decide_eq_true_2; [done|]. apply Hinv. eauto.
    + rewrite bool_decide_eq_false_2; [done|]. intros Hin%Hinv.
      rewrite Hb in Hin. by destruct Hin.
  - destruct (mapping !! Ballot_User a) as [t|] eqn:Ha.
    + by apply IH.
    + apply IH. by apply unique_loop_invariant.
Qed.

Lemma Box_unique_last_ballots ballots :
  lib.Box_unique Ballot_User ballots = lib.last_ballots Ballot_User ballots.
Proof.
  unfold lib.Box_unique. cbv zeta. rewrite !reverse_in_place_reverse.
  induction ballots as [|b ballots IH]; [done|].
  rewrite reverse_cons, unique_loop_snoc by apply empty_invariant.
  cbv zeta. simpl.
  assert (Ballot_User b ∈ Ballot_User <$>
            lib.unique_loop Ballot_User ∅ [] (reverse ballots)
          ↔ Ballot_User b ∈ Ballot_User <$> ballots) as Hiff.
  { rewrite unique_loop_users by apply empty_invariant.
    rewrite fmap_reverse, elem_of_reverse. set_solver. }
  rewrite (bool_decide_ext _ _ Hiff).
  case_bool_decide; [done|]. by rewrite reverse_snoc, IH.
Qed.

Lemma last_ballots_users ballots (u : Z) :
  u ∈ Ballot_User <$> lib.last_ballots Ballot_User ballots
  ↔ u ∈ Ballot_User <$> ballots.
Proof.
  induction ballots as [|b ballots IH]; simpl; [done|].
  case_bool_decide as Hb.
  - rewrite IH, elem_of_cons. naive_solver.
  - rewrite fmap_cons, !elem_of_cons, IH. done.
Qed.

(** X19.  [Box] keeps of the ballots it has collected, in their order, the
    last one of each user: the box holds one ballot for each user who cast
    one and none for anybody else, and a ballot is in it exactly when no
    later ballot of the same user follows it. *)
Theorem Box_keeps_last_ballot ballots :
  let box := lib.Box_unique Ballot_User ballots in
  NoDup (Ballot_User <$> box)
  ∧ sublist box ballots
  ∧ (∀ u, u ∈ Ballot_User <$> box ↔ u ∈ Ballot_User <$> ballots)
  ∧ (∀ before b after,
       ballots = before ++ b :: after →
       Ballot_User b ∉ Ballot_User <$> after →
       b ∈ box)
  ∧ (∀ b, b ∈ box →
       ∃ before after,
         ballots = before ++ b :: after
         ∧ Ballot_User b ∉ Ballot_User <$> after).
Proof.
  cbv zeta. rewrite Box_unique_last_ballots. split_and!.
  - induction ballots as [|b ballots IH]; simpl; [constructor|].
    case_bool_decide as Hb; [done|]. rewrite fmap_cons. constructor; [|done].
    by rewrite last_ballots_users.
  - induction ballots as [|b ballots IH]; simpl; [constructor|].
    case_bool_decide; by constructor.
  - apply last_ballots_users.
  - intros before b after -> Hlast. induction before as [|a before IH]; simpl.
    + rewrite bool_decide_eq_false_2 by done. by left.
    + case_bool_decide; [done|]. by right.
  - induction ballots as [|a ballots IH]; simpl; intros b Hb.
    + by apply elem_of_nil in Hb.
    + case_bool_decide as Ha.
      * destruct (IH b Hb) as (before & after & -> & Hlast).
        by exists (a :: before), after.
      * apply elem_of_cons in Hb as [->|Hb].
        -- by exists [], ballots.
        -- destruct (IH b Hb) as (before & after & -> & Hlast).
           by exists (a :: before), after.
Qed.

Lemma Box_loop_served (blocks : list lib.SkipBlock) (b0 : lib.SkipBlock)
    (fuel : nat) (acc : list Ballot) :
  lib.served GetSingleBlock (b0 :: blocks) →
  (length (b0 :: blocks) ≤ fuel)%nat →
  lib.Box_loop UnmarshalTransaction GetSingleBlock fuel (Some b0) acc
  = Returns (acc ++ lib.ballots_of UnmarshalTransaction (b0 :: blocks)).
Proof.
  revert b0 fuel acc. induction blocks as [|b1 blocks IH];
    intros b0 fuel acc Hserved Hfuel;
    (destruct fuel as [|fuel]; [simpl in Hfuel; lia|]);
    cbn [lib.Box_loop]; unfold lib.ballots_of; cbn [omap list_omap deref mbind
      Outcome_bind]; simpl in Hserved.
  - rewrite Hserved. simpl.
    destruct (UnmarshalTransaction _) as [t|]; simpl;
      [destruct (lib.Transaction_Ballot t)|]; simpl; by rewrite ?app_nil_r.
  - destruct Hserved as [(fl & links & Hlinks & Hfetch) Hserved].
    rewrite Hlinks. simpl. rewrite Hfetch.
    rewrite IH by (done || simpl in *; lia).
    unfold lib.ballots_of.
    destruct (UnmarshalTransaction (lib.SkipBlock_Data b0)) as [t|]; simpl;
      [destruct (lib.Transaction_Ballot t)|]; simpl; by rewrite <- ?app_assoc.
Qed.

(** X20.  On a chain that the client serves and that fits the fuel, [Box]
    returns the last ballot of each user among the ballots of the blocks, in
    the order of the chain.  It drops the error of a fetch: when the fetch of
    a forward link hands out no block, the next round reads the nil block and
    panics. *)
Theorem Box_of_served_chain (e : lib.Election) (b0 : lib.SkipBlock)
    (blocks : list lib.SkipBlock) (fuel : nat) :
  GetSingleBlockByIndex (lib.Election_ID e) 0 = (Some b0, None) →
  lib.served GetSingleBlock (b0 :: blocks) →
  (length (b0 :: blocks) ≤ fuel)%nat →
  lib.Election_Box Ballot_User UnmarshalTransaction GetSingleBlockByIndex
    GetSingleBlock fuel e
  = Returns (Some {| lib.Box_Ballots :=
                       lib.last_ballots Ballot_User
                         (lib.ballots_of UnmarshalTransaction (b0 :: blocks)) |},
             None)
  ∧ ∀ b fl links err acc,
      lib.SkipBlock_ForwardLink b = Some fl :: links →
      GetSingleBlock (lib.ForwardLink_To fl) = (None, err) →
      lib.Box_loop UnmarshalTransaction GetSingleBlock (2 + fuel) (Some b) acc
      = Panics NilDereference.
Proof.
  intros Hfirst Hserved Hfuel. split.
  - unfold lib.Election_Box. rewrite Hfirst.
    rewrite (Box_loop_served blocks) by done. simpl.
    by rewrite Box_unique_last_ballots.
  - intros b fl links err acc Hlinks Hfetch. cbn [lib.Box_loop plus].
    simpl. rewrite Hlinks. simpl. by rewrite Hfetch.
Qed.

Lemma Partials_loop_served (blocks : list lib.SkipBlock) (b0 : lib.SkipBlock)
    (fuel : nat) (acc : list Partial) :
  lib.served GetSingleBlock (b0 :: blocks) →
  (length (b0 :: blocks) ≤ fuel)%nat →
  lib.Partials_loop UnmarshalTransaction GetSingleBlock fuel (Some b0) acc
  = Returns (acc ++ lib.partials_of UnmarshalTransaction (b0 :: blocks)).
Proof.
  revert b0 fuel acc. induction blocks as [|b1 blocks IH];
    intros b0 fuel acc Hserved Hfuel;
    (destruct fuel as [|fuel]; [simpl in Hfuel; lia|]);
    cbn [lib.Partials_loop]; unfold lib.partials_of; cbn [omap list_omap];
    simpl in Hserved.
  - rewrite Hserved. simpl.
    destruct (UnmarshalTransaction _) as [t|]; simpl;
      [destruct (lib.Transaction_Partial t)|]; simpl; by rewrite ?app_nil_r.
  - destruct Hserved as [(fl & links & Hlinks & Hfetch) Hserved].
    rewrite Hlinks. simpl. rewrite Hfetch.
    rewrite IH by (done || simpl in *; lia).
    unfold lib.partials_of.
    destruct (UnmarshalTransaction (lib.SkipBlock_Data b0)) as [t|]; simpl;
      [destruct (lib.Transaction_Partial t)|]; simpl; by rewrite <- ?app_assoc.
Qed.

(** X21.  On a chain that the client serves and that fits the fuel, [Partials]
    returns the partials of the blocks in the order of the chain.  Unlike
    [Box] it stops at a fetch that fails and returns what it has, without an
    error. *)
Theorem Partials_of_served_chain (e : lib.Election) (b0 : lib.SkipBlock)
    (blocks : list lib.SkipBlock) (fuel : nat) :
  GetSingleBlockByIndex (lib.Election_ID e) 0 = (Some b0, None) →
  lib.served GetSingleBlock (b0 :: blocks) →
  (length (b0 :: blocks) ≤ fuel)%nat →
  lib.Election_Partials UnmarshalTransaction GetSingleBlockByIndex
    GetSingleBlock fuel e
  = Returns (lib.partials_of UnmarshalTransaction (b0 :: blocks), None)
  ∧ ∀ b fl links blk err acc,
      lib.SkipBlock_ForwardLink b = Some fl :: links →
      GetSingleBlock (lib.ForwardLink_To fl) = (blk, Some err) →
      lib.Partials_loop UnmarshalTransaction GetSingleBlock (1 + fuel)
        (Some b) acc
      = Returns (acc ++ lib.partials_of UnmarshalTransaction [b]).
Proof.
  intros Hfirst Hserved Hfuel. split.
  - unfold lib.Election_Partials. rewrite Hfirst.
    by rewrite (Partials_loop_served blocks).
  - intros b fl links blk err acc Hlinks Hfetch. cbn [lib.Partials_loop plus].
    rewrite Hlinks. simpl. rewrite Hfetch. unfold lib.partials_of. simpl.
    destruct (UnmarshalTransaction _) as [t|]; simpl;
      [destruct (lib.Transaction_Partial t)|]; simpl; by rewrite ?app_nil_r.
Qed.

End election_properties.

Section election_database_properties.
Context {Ballot Mix Partial : Type}.
Variable UnmarshalTransaction : bytes → option (lib.Transaction Ballot Mix Partial).
Variable GetSingleBlockByIndex :
  lib.SkipBlockID → Z → option lib.SkipBlock * option error.
Variable GetSingleBlock : lib.SkipBlockID → option lib.SkipBlock * option error.
Variable GetByID : lib.SkipBlockID → option lib.SkipBlock.

Lemma Mixes_loop_served (blocks : list lib.SkipBlock) (b0 : lib.SkipBlock)
    (fuel : nat) (acc : list Mix) :
  lib.served GetSingleBlock (b0 :: blocks) →
  (length (b0 :: blocks) ≤ fuel)%nat →
  lib.Mixes_loop UnmarshalTransaction GetSingleBlock fuel (Some b0) acc
  = Returns (acc ++ lib.mixes_of UnmarshalTransaction (b0 :: blocks)).
Proof.
  revert b0 fuel acc. induction blocks as [|b1 blocks IH];
    intros b0 fuel acc Hserved Hfuel;
    (destruct fuel as [|fuel]; [simpl in Hfuel; lia|]);
    cbn [lib.Mixes_loop]; unfold lib.mixes_of; cbn [omap list_omap deref mbind
      Outcome_bind]; simpl in Hserved.
  - rewrite Hserved. simpl.
    destruct (UnmarshalTransaction _) as [t|]; simpl;
      [destruct (lib.Transaction_Mix t)|]; simpl; by rewrite ?app_nil_r.
  - destruct Hserved as [(fl & links & Hlinks & Hfetch) Hserved].
    rewrite Hlinks. simpl. rewrite Hfetch.
    rewrite IH by (done || simpl in *; lia).
    unfold lib.mixes_of.
    destruct (UnmarshalTransaction (lib.SkipBlock_Data b0)) as [t|]; simpl;
      [destruct (lib.Transaction_Mix t)|]; simpl; by rewrite <- ?app_assoc.
Qed.

(** X22.  On a chain that the client serves and that fits the fuel, [Mixes]
    returns the mixes of the blocks in the order of the chain, blocks whose
    data is no transaction left out.  Like [Box] it drops the error of a
    fetch and panics on the nil block of a failed one. *)
Theorem Mixes_of_served_chain (e : lib.Election) (b0 : lib.SkipBlock)
    (blocks : list lib.SkipBlock) (fuel : nat) :
  GetSingleBlockByIndex (lib.Election_ID e) 0 = (Some b0, None) →
  lib.served GetSingleBlock (b0 :: blocks) →
  (length (b0 :: blocks) ≤ fuel)%nat →
  lib.Election_Mixes UnmarshalTransaction GetSingleBlockByIndex
    GetSingleBlock fuel e
  = Returns (lib.mixes_of UnmarshalTransaction (b0 :: blocks), None)
  ∧ ∀ b fl links err acc,
      lib.SkipBlock_ForwardLink b = Some fl :: links →
      GetSingleBlock (lib.ForwardLink_To fl) = (None, err) →
      lib.Mixes_loop UnmarshalTransaction GetSingleBlock (2 + fuel) (Some b) acc
      = Panics NilDereference.
Proof.
  intros Hfirst Hserved Hfuel. split.
  - unfold lib.Election_Mixes. rewrite Hfirst.
    by rewrite (Mixes_loop_served blocks).
  - intros b fl links err acc Hlinks Hfetch. cbn [lib.Mixes_loop plus].
    simpl. rewrite Hlinks. simpl. by rewrite Hfetch.
Qed.

Lemma last_cons_Some {A} (x : A) (l : list A) :
  last (x :: l) = Some (default x (last l)).
Proof.
  revert x. induction l as [|y l IH]; intros x; [done|].
  change (last (x :: y :: l)) with (last (y :: l)). rewrite IH.
  by destruct l.
Qed.

Lemma last_vote_cons (user : Z) (b : lib.SkipBlock)
    (rest : list lib.SkipBlock) :
  lib.last_vote UnmarshalTransaction user (b :: rest)
  = let here := if lib.votes UnmarshalTransaction user b
                then Some (lib.SkipBlock_Hash b) else None in
    if lib.closes UnmarshalTransaction b then here
    else match lib.last_vote UnmarshalTransaction user rest with
         | Some hash => Some hash
         | None => here
         end.
Proof.
  unfold lib.last_vote. cbn [lib.voting_blocks].
  destruct (lib.closes _ b); rewrite filter_cons;
    destruct (lib.votes _ user b); simpl; try done.
  - rewrite last_cons_Some. by destruct (last _).
  - by destruct (last _).
Qed.

Lemma setVoted_loop_stored (user : Z) (blocks : list lib.SkipBlock)
    (b0 : lib.SkipBlock) (fuel : nat) (e : lib.Election) :
  lib.stored GetByID (b0 :: blocks) →
  Forall (fun b => is_Some (UnmarshalTransaction (lib.SkipBlock_Data b)))
    (lib.voting_blocks UnmarshalTransaction (b0 :: blocks)) →
  (length (b0 :: blocks) ≤ fuel)%nat →
  lib.setVoted_loop UnmarshalTransaction GetByID fuel user (Some b0) e
  = (match lib.last_vote UnmarshalTransaction user (b0 :: blocks) with
     | Some hash => lib.Election_set_Voted e hash
     | None => e
     end, Returns tt).
Proof.
  revert b0 fuel e. induction blocks as [|b1 blocks IH];
    intros b0 fuel e Hstored Hall Hfuel;
    (destruct fuel as [|fuel]; [simpl in Hfuel; lia|]);
    rewrite last_vote_cons; cbn [lib.setVoted_loop];
    (assert (is_Some (UnmarshalTransaction (lib.SkipBlock_Data b0))) as [t Ht]
       by (cbn [lib.voting_blocks] in Hall;
           destruct (lib.closes _ b0); by apply Forall_cons_1 in Hall as [? _]));
    unfold lib.closes, lib.votes; rewrite Ht; cbn zeta.
  - simpl in Hstored. rewrite Hstored. simpl.
    destruct (_ && _), (_ || _); done.
  - destruct Hstored as [(fl & links & Hlinks & Hfetch) Hstored].
    cbn [lib.voting_blocks] in Hall. unfold lib.closes in Hall at 1.
    rewrite Ht in Hall.
    destruct (_ || _) eqn:Hclose; [by destruct (_ && _)|].
    apply Forall_cons_1 in Hall as [_ Hall].
    rewrite Hlinks. simpl. rewrite Hfetch.
    rewrite IH by (done || simpl in *; lia).
    destruct (_ && _), (lib.last_vote _ user (b1 :: blocks)); done.
Qed.

(** X23.  On a chain that the database holds and that fits the fuel, whose
    blocks all hold a transaction as far as the vote is open, [setVoted]
    returns nil and leaves in [e.Voted] the hash of the last block in which
    the user votes before the vote closes, the block with the first mix or
    partial included; without such a block the election is unchanged.  A
    block whose data is no transaction makes it panic, where [Box] passes
    over it. *)
Theorem setVoted_last_vote (e : lib.Election) (user : Z)
    (b0 : lib.SkipBlock) (blocks : list lib.SkipBlock) (fuel : nat) :
  GetByID (lib.Election_ID e) = Some b0 →
  lib.stored GetByID (b0 :: blocks) →
  Forall (fun b => is_Some (UnmarshalTransaction (lib.SkipBlock_Data b)))
    (lib.voting_blocks UnmarshalTransaction (b0 :: blocks)) →
  (length (b0 :: blocks) ≤ fuel)%nat →
  lib.Election_setVoted UnmarshalTransaction GetByID fuel e user
  = (match lib.last_vote UnmarshalTransaction user (b0 :: blocks) with
     | Some hash => lib.Election_set_Voted e hash
     | None => e
     end, Returns None)
  ∧ ∀ b e',
      UnmarshalTransaction (lib.SkipBlock_Data b) = None →
      lib.setVoted_loop UnmarshalTransaction GetByID (1 + fuel) user (Some b) e'
      = (e', Panics NilDereference).
Proof.
  intros Hfirst Hstored Hall Hfuel. split.
  - unfold lib.Election_setVoted. rewrite Hfirst.
    by rewrite (setVoted_loop_stored user blocks).
  - intros b e' Hb. cbn [lib.setVoted_loop plus]. by rewrite Hb.
Qed.

End election_database_properties.

Section genesis_properties.
Context `{Suite} `{Engine}.

(** X24.  A path that does not begin with a genesis darc.  For a darc that is
    no genesis darc and whose path begins with a darc of a version other than
    0, [VerifyWithCB] hands that darc to [verifyOneEvolution] with a nil
    predecessor: it returns the error of index 0 when the base ID of that darc
    is nil, and otherwise reads the base ID of the nil predecessor and
    panics. *)
Theorem VerifyWithCB_path_not_from_genesis (d x : Darc) (sig : Signature)
    (rest : list (option Darc)) (getDarc : string → option Darc) :
  Darc_Version d ≠ 0 →
  Darc_Signature d = Some sig →
  Signature_Path sig = Some x :: rest →
  Darc_Version x ≠ 0 →
  (Darc_BaseID x = None →
   Darc_VerifyWithCB (Some d) getDarc
   = Returns (Some (fmt_Errorf
       "verification failed on index %d with error: %v"
       [arg_uint 0; arg_error (errors_New "nil base ID")])))
  ∧ (is_Some (Darc_BaseID x) →
     Darc_VerifyWithCB (Some d) getDarc = Panics NilDereference).
Proof.
  intros Hd Hsig Hpath Hx.
  unfold Darc_VerifyWithCB, VerifyWithCB_body.
  apply Z.eqb_neq in Hd, Hx. rewrite Hd, Hsig, Hpath.
  cbn [len length]. rewrite Z.eqb_compare. cbn [VerifyWithCB_loop deref mbind
    Outcome_bind]. simpl. rewrite Hx. simpl.
  unfold verifyOneEvolution. simpl.
  split.
  - by intros ->.
  - by intros [b ->].
Qed.

Section init.
Variable InitOrExpr : list string → Expr.




End init.
End genesis_properties.

(** * Closed instances

    The theorems above at the collaborators of [demo], and the inputs on
    which the code departs from the wording of C2, C5, C6 and C8. *)

#[local] Existing Instance demo.suite.
#[local] Existing Instance demo.engine.

Lemma demo_digest_length (n : nat) (m : bytes) : length (demo.digest n m) = n.
Proof.
  unfold demo.digest. rewrite length_take, length_app, length_replicate. lia.
Qed.

Lemma demo_any_ext (o1 o2 : string → Outcome bool) (ts : list string) :
  (∀ s, o1 s = o2 s) → demo.any o1 ts = demo.any o2 ts.
Proof.
  intros Ho. induction ts as [|t ts IH]; simpl; [done|]. by rewrite Ho, IH.
Qed.

Lemma demo_engine_extensional : Engine_extensional.
Proof.
  intros o1 o2 expr Ho. simpl. unfold demo.ParseExpr.
  by rewrite (demo_any_ext o1 o2 _ Ho).
Qed.

Lemma demo_sign_verify (key : string) (msg sig : bytes) :
  demo.sign key msg = (sig, None) → demo.verify key msg sig = None.
Proof.
  unfold demo.sign, demo.verify. intros [= <-].
  by rewrite bool_decide_eq_true_2.
Qed.

Lemma demo_DefaultParser_returns (expr : Expr) (ids : list string) :
  ∃ r, DefaultParser expr ids = Returns r.
Proof.
  unfold DefaultParser. simpl. unfold demo.ParseExpr.
  destruct (existsb _ _); [eauto|].
  assert (∃ b, demo.any (λ s, Returns (bool_decide (s ∈ ids)))
                 (demo.terms "" (string_of_list_byte expr)) = Returns b)
    as [b ->]; [|simpl; eauto].
  induction (demo.terms "" (string_of_list_byte expr)) as [|t ts [b IH]];
    simpl; [eauto|]. rewrite IH. simpl. eauto.
Qed.

Example PutUint64_258 :
  PutUint64 258 = [x02; x01; x00; x00; x00; x00; x00; x00].
Proof. reflexivity. Qed.

Example sort_Strings_actions :
  sort_Strings ["read"; "_evolve"; "Write"] = ["Write"; "_evolve"; "read"].
Proof. reflexivity. Qed.

Example demo_d1_evolved :
  Darc_Evolve demo.d1_draft [Some demo.d0] (Some demo.alice)
  = (demo.d1, Returns None).
Proof. vm_compute. reflexivity. Qed.

Lemma C1_evolution_closure_witness :
  Darc_Verify (Some demo.d1) = Returns None
  ∧ Darc_GetBaseID demo.d1 = Darc_GetID demo.d0.
Proof.
  apply (C1_evolution_closure demo.d0 demo.d1_draft demo.d1 demo.alice
           demo.alice_identity).
  - reflexivity.
  - apply demo_digest_length.
  - apply demo_engine_extensional.
  - intros eds msg sig [= <-]. apply demo_sign_verify.
  - reflexivity.
  - vm_compute. reflexivity.
  - vm_compute. reflexivity.
Defined.

Example demo_d1_verifies : Darc_Verify (Some demo.d1) = Returns None.
Proof. vm_compute. reflexivity. Qed.

(** Scenario S4 of the specification: [bob] is not an owner of [d0], and a
    darc he evolves from it does not verify. *)
Example demo_wrong_owner :
  ∃ e, Darc_Verify (Some (Darc_Evolve demo.d1_draft [Some demo.d0]
                            (Some demo.bob)).1)
       = Returns (Some e).
Proof. vm_compute. eexists. reflexivity. Qed.

(** A darc without signature, such as a genesis darc, passes [Verify]; the
    oracle then reads the path of its nil signature. *)
Example demo_oracle_genesis :
  evolutionOracle Darc_Verify (fun _ => Some demo.d0) demo.alice_ids "darc:00"
  = Panics NilDereference.
Proof. vm_compute. reflexivity. Qed.

(** C2 as stated fails.  The path of [d1] is [d0] alone, whose identity
    string is the term asked for; [alice] evolves [d0] but not [d1].  The oracle scans [d0] itself
    and is satisfied, although no darc stands after [d0] in the path. *)
Lemma C2_strictly_after_counterexample :
  let s := Darc_GetIdentityString demo.d0 in
  String.prefix "darc:" s = true
  ∧ demo.latest s = Some demo.d1
  ∧ Darc_Verify (Some demo.d1) = Returns None
  ∧ (Signature_Path <$> Darc_Signature demo.d1) = Some [Some demo.d0]
  ∧ DefaultParser (Rules_GetEvolutionExpr (Darc_Rules demo.d1)) demo.alice_ids
    = Returns (false, None)
  ∧ evolutionOracle Darc_Verify demo.latest demo.alice_ids s = Returns true
  ∧ ¬ admitted_after demo.alice_ids s [Some demo.d0].
Proof.
  split_and!; try (vm_compute; reflexivity).
  intros (pre & x & post & y & Hpath & _ & Hy & _).
  destruct pre as [|p pre]; simplify_eq/=.
  - by apply not_elem_of_nil in Hy.
  - by destruct pre.
Qed.

Lemma C2_older_darc_admits_witness :
  ∃ b, evolutionOracle Darc_Verify demo.latest demo.alice_ids
         (Darc_GetIdentityString demo.d0) = Returns b
       ∧ (b = true ↔
          admitted_from demo.alice_ids (Darc_GetIdentityString demo.d0)
            [Some demo.d0]).
Proof.
  apply (C2_older_darc_admits demo.latest demo.alice_ids
           (Darc_GetIdentityString demo.d0) demo.d1
           {| Signature_Signature :=
                (Signer_Sign demo.alice
                   (hashAll [slice_bytes (Darc_GetID demo.d1);
                             slice_bytes (Darc_GetID demo.d0)]).1).1;
              Signature_Signer := demo.alice_identity;
              Signature_Path := [Some demo.d0] |}).
  - vm_compute. reflexivity.
  - vm_compute. reflexivity.
  - vm_compute. reflexivity.
  - vm_compute. reflexivity.
  - repeat constructor. eexists. reflexivity.
  - exists demo.d0. split; [left|reflexivity].
  - intros x _. apply demo_DefaultParser_returns.
  - exists (false, None). split; [vm_compute; reflexivity|discriminate].
Defined.

Lemma C4_GetID_digest_witness :
  slice_bytes (Darc_GetID_ranging ["read"; "_evolve"] demo.d_two)
  = sha256_Sum
      (PutUint64 0 ++ list_byte_of_string "two" ++ []
       ++ (list_byte_of_string "_evolve" ++ demo.expr_of "ed25519:alice")
       ++ (list_byte_of_string "read" ++ demo.expr_of "ed25519:bob")).
Proof.
  pose proof (C4_GetID_digest demo.d_two ["read"; "_evolve"] ["_evolve"; "read"])
    as Hdigest.
  destruct Hdigest as [Hdigest _].
  - vm_compute. first [reflexivity | apply perm_swap].
  - refine (bool_decide_unpack _ _). vm_compute. exact I.
  - refine (bool_decide_unpack _ _). vm_compute. exact I.
  - intros a. change (Darc_Rules demo.d_two) with demo.two_rules.
    unfold demo.two_rules. rewrite lookup_insert_is_Some, lookup_singleton_is_Some.
    rewrite !elem_of_cons, elem_of_nil. unfold evolve.
    destruct (decide ("read" = a)); naive_solver.
  - rewrite Hdigest. simpl. by rewrite app_nil_r.
Defined.




Lemma C6_rules_operations_witness :
  (RulesValue_AddRule (Some demo.two_rules) "read" []).1
  = Some demo.two_rules.
Proof.
  destruct (C6_rules_operations demo.two_rules "read" [])
    as ((m' & err & -> & Herr & Hsame & _) & _).
  simpl. f_equal. apply Hsame, Herr.
  exists (demo.expr_of "ed25519:bob"). reflexivity.
Defined.

(** C6 as stated fails on the nil map, the zero value of [Rules]: the action
    is not present, and [AddRule] neither inserts it nor returns; it panics
    on the assignment. *)
Lemma C6_nil_map_counterexample :
  RulesValue_Contains None "read" = false
  ∧ RulesValue_AddRule None "read" (demo.expr_of "ed25519:bob")
    = (None, Panics NilMapAssignment)
  ∧ ¬ (∃ r' err, RulesValue_AddRule None "read" (demo.expr_of "ed25519:bob")
                 = (r', Returns err)).
Proof.
  split_and!; [reflexivity..|]. by intros (r' & err & [=]).
Qed.

Lemma C7_missing_darc_unsatisfied_witness :
  Darc_Verify (noDarc "darc:00") = Returns (Some (errors_New "darc is nil"))
  ∧ evolutionOracle Darc_Verify noDarc demo.alice_ids "darc:00" = Returns false.
Proof.
  apply (C7_missing_darc_unsatisfied noDarc demo.alice_ids "darc:00").
  - vm_compute. reflexivity.
  - reflexivity.
Defined.

(** C8 on a key that parses and is no ECDSA key: the call panics. *)
Lemma C8_Identity_Verify_dispatch_witness :
  Identity_Verify (H := scenario.suite_keys)
    (NewIdentityX509EC (H := scenario.suite_keys) [x01]) [] []
  = Panics InterfaceConversion.
Proof.
  destruct (C8_Identity_Verify_dispatch (H := scenario.suite_keys)
              (NewIdentityX509EC (H := scenario.suite_keys) [x01]) [] [])
    as (_ & _ & Hx).
  destruct Hx as (idkc & Hid & _ & _ & _ & _ & Hpanic); [reflexivity|].
  injection Hid as <-. apply (Hpanic 0 0); reflexivity.
Defined.

Lemma C9_Evolve_not_atomic_witness :
  ∃ prev,
    last [Some demo.d0] = Some (Some prev)
    ∧ Darc_Signature (Darc_Evolve demo.d1 [Some demo.d0] None).1 = None
    ∧ Darc_Version (Darc_Evolve demo.d1 [Some demo.d0] None).1
      = wrap64 (Darc_Version prev + 1)
    ∧ Darc_BaseID (Darc_Evolve demo.d1 [Some demo.d0] None).1
      = Darc_GetBaseID prev
    ∧ Darc_Description (Darc_Evolve demo.d1 [Some demo.d0] None).1
      = Darc_Description demo.d1
    ∧ Darc_Rules (Darc_Evolve demo.d1 [Some demo.d0] None).1
      = Darc_Rules demo.d1.
Proof.
  apply (C9_Evolve_not_atomic demo.d1 _ [Some demo.d0] None
           (errors_New_cat "error creating a darc signature for evolution: "
              (errors_New "signer missing"))).
  - discriminate.
  - vm_compute. reflexivity.
Defined.

Example demo_signed_request_accepted :
  Darc_CheckRequest demo.d0 demo.signed_request = Returns None.
Proof. vm_compute. reflexivity. Qed.

Lemma C10_CheckRequest_signature_index_witness :
  CheckRequest_loop [] (Request_Signatures demo.signed_request) 0
    (Request_Identities demo.signed_request) ≠ Panics IndexOutOfRange
  ∧ Darc_CheckRequest demo.d0 demo.unsigned_request = Panics IndexOutOfRange.
Proof.
  split.
  - apply (C10_CheckRequest_signature_index demo.d0 demo.signed_request).
    simpl. lia.
  - apply (C10_CheckRequest_signature_index demo.d0 demo.unsigned_request).
    + vm_compute. reflexivity.
    + vm_compute. reflexivity.
    + discriminate.
    + reflexivity.
Defined.

(** * Closed instances of the further properties *)

Lemma Copy_keeps_identity_witness :
  let c := Darc_Copy_ranging (reverse (map_to_list demo.two_rules)) demo.d_two in
  c = Darc_Copy demo.d_two
  ∧ Darc_Rules c = Darc_Rules demo.d_two
  ∧ Darc_GetID c = Darc_GetID demo.d_two
  ∧ Darc_Equal demo.d_two c = true
  ∧ bytes_Equal (Darc_GetBaseID c) (Darc_GetBaseID demo.d_two) = true
  ∧ Darc_Signature c = None
  ∧ ID_IsNull (Darc_BaseID c) = false.
Proof.
  apply (Copy_keeps_identity demo.d_two (reverse (map_to_list demo.two_rules))).
  apply reverse_Permutation.
Defined.

Lemma Rules_evolve_kept_witness :
  fold_left Rules_do scenario.calls demo.two_rules !! evolve
  = demo.two_rules !! evolve.
Proof.
  apply (Rules_evolve_kept demo.two_rules scenario.calls).
  exists (demo.expr_of "ed25519:alice"). reflexivity.
Defined.

Lemma Rules_add_then_delete_witness :
  ∃ r1,
    RulesValue_AddRule (Some demo.two_rules) "write" (demo.expr_of "a")
    = (Some r1, Returns None)
    ∧ RulesValue_Contains (Some r1) "write" = true
    ∧ RulesValue_get (Some r1) "write" = demo.expr_of "a"
    ∧ RulesValue_DeleteRules (Some r1) "write"
      = (Some demo.two_rules, Returns None)
    ∧ RulesValue_UpdateRule (Some r1) "write" (demo.expr_of "b")
      = ((RulesValue_AddRule (Some demo.two_rules) "write"
            (demo.expr_of "b")).1, Returns None)
    ∧ (∃ err, RulesValue_AddRule (Some r1) "write" (demo.expr_of "b")
              = (Some r1, Returns (Some err)))
    ∧ RulesValue_Contains None "write" = false
    ∧ RulesValue_AddRule None "write" (demo.expr_of "a")
      = (None, Panics NilMapAssignment).
Proof.
  apply (Rules_add_then_delete demo.two_rules "write" (demo.expr_of "a")
           (demo.expr_of "b")).
  - reflexivity.
  - discriminate.
Defined.

Lemma Signer_kinds_agree_witness :
  (Signer_Identity demo.alice = None ↔ Signer_Type demo.alice = -1)
  ∧ (∀ id, Signer_Identity demo.alice = Some id →
       Identity_Type id = Signer_Type demo.alice)
  ∧ (∀ sig, Signer_Sign demo.alice (Some [x01]) = (sig, None) →
       Signer_Type demo.alice = 1 ∧ Some [x01] ≠ None)
  ∧ ((Signer_GetPrivate demo.alice).2 = None ↔ Signer_Type demo.alice = 1).
Proof. exact (Signer_kinds_agree demo.alice (Some [x01])). Defined.

Lemma Identity_String_darc_prefix_witness :
  (String.prefix "darc" (Identity_String demo.alice_identity) = true
   ↔ Identity_Type demo.alice_identity = 0)
  ∧ (String.prefix "darc:" (Identity_String demo.alice_identity) = true
     ↔ Identity_Type demo.alice_identity = 0)
  ∧ ∀ d, String.prefix "darc:" (Darc_GetIdentityString d) = true.
Proof. exact (Identity_String_darc_prefix demo.alice_identity). Defined.

Lemma Identity_Equal_strings_witness :
  let id := NewIdentityDarc (Darc_GetID demo.d0) in
  let id2 := NewIdentityX509EC [x01] in
  (∀ x, Identity_Equal scenario.Point_Equal None x = Panics NilDereference)
  ∧ Identity_Equal scenario.Point_Equal (Some id) None
    = Panics NilDereference
  ∧ (Identity_Equal scenario.Point_Equal (Some id) (Some id2) = Returns true →
     Identity_Type id = Identity_Type id2 ∧ Identity_Type id ≠ -1)
  ∧ (Identity_Type id ≠ 1 →
     ∃ b, Identity_Equal scenario.Point_Equal (Some id) (Some id2)
          = Returns b)
  ∧ (Identity_Type id ≠ 1 → Identity_Type id2 ≠ 1 →
     (Identity_Equal scenario.Point_Equal (Some id) (Some id2) = Returns true
      ↔ Identity_String id = Identity_String id2 ∧ Identity_Type id ≠ -1))
  ∧ (∀ ide ide2,
       Identity_switch id = kind_Ed25519 ide →
       Identity_switch id2 = kind_Ed25519 ide2 →
       Identity_Equal scenario.Point_Equal (Some id) (Some id2)
       = scenario.Point_Equal (IdentityEd25519_Point ide)
           (IdentityEd25519_Point ide2)).
Proof.
  exact (Identity_Equal_strings scenario.Point_Equal
           (NewIdentityDarc (Darc_GetID demo.d0)) (NewIdentityX509EC [x01])).
Defined.

Lemma darcsMsg_concat_witness :
  darcsMsg (Some <$> [demo.d0])
  = Returns (mjoin ((fun d => slice_bytes (Darc_GetID d)) <$> [demo.d0]))
  ∧ darcsMsg (Some <$> ([demo.d0] ++ [demo.d1]))
    = (m1 ← darcsMsg (Some <$> [demo.d0]);
       m2 ← darcsMsg (Some <$> [demo.d1]);
       Returns (m1 ++ m2))
  ∧ (None ∈ [Some demo.d0; None] →
     darcsMsg [Some demo.d0; None] = Panics NilDereference).
Proof. exact (darcsMsg_concat [demo.d0] [demo.d1] [Some demo.d0; None]). Defined.

Lemma Evolve_success_witness :
  ∃ prev sg sig,
    last (Darc_chain demo.d1) = Some (Some prev)
    ∧ Darc_Version scenario.d2 = wrap64 (Darc_Version prev + 1)
    ∧ Darc_BaseID scenario.d2 = Darc_GetBaseID prev
    ∧ Darc_Description scenario.d2 = Darc_Description scenario.d2_draft
    ∧ Darc_Rules scenario.d2 = Darc_Rules scenario.d2_draft
    ∧ Darc_Signature scenario.d2 = Some sig
    ∧ Signature_Path sig = Darc_chain demo.d1
    ∧ Forall is_Some (Darc_chain demo.d1)
    ∧ Some demo.bob = Some sg
    ∧ Signer_Type sg = 1
    ∧ Signer_Identity sg = Some (Signature_Signer sig)
    ∧ Darc_GetSignerDarc scenario.d2 = Returns (Some prev, None).
Proof.
  apply (Evolve_success scenario.d2_draft scenario.d2 (Darc_chain demo.d1)
           (Some demo.bob)).
  vm_compute. reflexivity.
Defined.

Lemma NewDarcSignature_verifies_witness :
  Signature_Path scenario.d1_signature = [Some demo.d0]
  ∧ Signer_Identity demo.alice = Some (Signature_Signer scenario.d1_signature)
  ∧ Signature_verify scenario.d1_signature (Darc_GetID demo.d1)
      (Darc_GetID demo.d0) = Returns None.
Proof.
  apply (NewDarcSignature_verifies demo.alice (Darc_GetID demo.d1)
           (Darc_GetID demo.d0) [Some demo.d0] scenario.d1_signature demo.d0).
  - intros eds msg raw [= <-]. apply demo_sign_verify.
  - vm_compute. reflexivity.
  - reflexivity.
  - eexists. vm_compute. reflexivity.
  - vm_compute. reflexivity.
Defined.

Lemma VerifyWithCB_accepts_witness :
  ∃ sig root rest prev pathMsg,
    Darc_Signature demo.d1 = Some sig
    ∧ Signature_Path sig = Some root :: rest
    ∧ last (Signature_Path sig) = Some (Some prev)
    ∧ is_Some (Darc_BaseID demo.d1)
    ∧ Darc_Version demo.d1 = wrap64 (Darc_Version prev + 1)
    ∧ bytes_Equal (Darc_GetBaseID demo.d1) (Darc_GetBaseID prev) = true
    ∧ bytes_Equal (Darc_GetID root) (Darc_GetBaseID prev) = true
    ∧ checkEvolutionPermission Darc_Verify
        (Rules_GetEvolutionExpr (Darc_Rules prev)) noDarc
        [Identity_String (Signature_Signer sig)] = Returns None
    ∧ (Identity_Type (Signature_Signer sig) = 1
       ∨ Identity_Type (Signature_Signer sig) = 2)
    ∧ darcsMsg (Signature_Path sig) = Returns pathMsg
    ∧ Identity_Verify (Signature_Signer sig)
        (slice_bytes (hashAll [slice_bytes (Darc_GetID demo.d1); pathMsg]).1)
        (Signature_Signature sig) = Returns None.
Proof.
  apply (VerifyWithCB_accepts demo.d1 noDarc).
  - vm_compute. reflexivity.
  - vm_compute. discriminate.
Defined.

Lemma VerifyWithCB_accepts_history_witness :
  ∃ sig root,
    Darc_Signature scenario.d2 = Some sig
    ∧ head (Signature_Path sig) = Some (Some root)
    ∧ Darc_Version root = 0
    ∧ Forall is_Some (Signature_Path sig)
    ∧ (∀ (k : nat) x, Signature_Path sig !! k = Some (Some x) →
         Darc_Version x = wrap64 (Z.of_nat k)
         ∧ bytes_Equal (Darc_GetBaseID x) (Darc_GetID root) = true)
    ∧ Darc_Version scenario.d2 = wrap64 (len (Signature_Path sig))
    ∧ bytes_Equal (Darc_GetBaseID scenario.d2) (Darc_GetID root) = true.
Proof.
  apply (VerifyWithCB_accepts_history scenario.d2 noDarc).
  - vm_compute. reflexivity.
  - vm_compute. discriminate.
Defined.

Lemma Evolve_keeps_verifying_witness :
  Darc_VerifyWithCB (Some scenario.d2) noDarc = Returns None.
Proof.
  apply (Evolve_keeps_verifying demo.d1 scenario.d2_draft scenario.d2
           demo.bob scenario.bob_identity noDarc).
  - apply demo_digest_length.
  - intros eds msg raw [= <-]. apply demo_sign_verify.
  - vm_compute. reflexivity.
  - reflexivity.
  - vm_compute. reflexivity.
  - vm_compute. reflexivity.
Defined.

Lemma evolutionOracle_darc_term_witness :
  let s := Darc_GetIdentityString demo.d0 in
  (∀ p, Darc_Verify (Some demo.d1) = Panics p →
     evolutionOracle Darc_Verify demo.latest demo.alice_ids s = Panics p)
  ∧ (∀ verr, Darc_Verify (Some demo.d1) = Returns verr →
     ∃ b, evolutionOracle Darc_Verify demo.latest demo.alice_ids s = Returns b
       ∧ (b = true ↔
          verr = None
          ∧ (∃ x, Some x ∈ Signature_Path scenario.d1_signature
                  ∧ Darc_GetIdentityString x = s)
          ∧ (admits demo.alice_ids demo.d1
             ∨ admitted_from demo.alice_ids s
                 (Signature_Path scenario.d1_signature)))).
Proof.
  apply (evolutionOracle_darc_term demo.latest demo.alice_ids
           (Darc_GetIdentityString demo.d0) demo.d1 scenario.d1_signature).
  - vm_compute. reflexivity.
  - vm_compute. reflexivity.
  - vm_compute. reflexivity.
  - repeat constructor. eexists. reflexivity.
  - intros x _. apply demo_DefaultParser_returns.
Defined.

(** The oracle on the darc that [Verify] panics on. *)
Example scenario_oracle_panics :
  evolutionOracle Darc_Verify (fun _ => Some scenario.d2_short)
    demo.alice_ids "darc:00"
  = Panics NilDereference.
Proof. vm_compute. reflexivity. Qed.

Lemma evolutionOracle_unsigned_darc_witness :
  Darc_Verify (Some demo.d0) = Returns None
  ∧ evolutionOracle Darc_Verify (fun _ => Some demo.d0) demo.alice_ids
      "darc:00" = Panics NilDereference.
Proof.
  apply (evolutionOracle_unsigned_darc (fun _ => Some demo.d0) demo.alice_ids
           "darc:00" demo.d0); reflexivity.
Defined.

Lemma GetID_covers_version_witness :
  (@Darc_Equal demo.suite_inj scenario.e0 scenario.e1 = true →
   Darc_Version scenario.e0 = Darc_Version scenario.e1)
  ∧ (∀ dn path owner,
       @Darc_Evolve demo.suite_inj dn path owner = (scenario.e1, Returns None) →
       last path = Some (Some scenario.e0) →
       @Darc_Equal demo.suite_inj scenario.e0 scenario.e1 = false).
Proof.
  apply (@GetID_covers_version demo.suite_inj scenario.e0 scenario.e1).
  - intros a b Hab. exact Hab.
  - vm_compute. split; [discriminate|reflexivity].
  - vm_compute. split; [discriminate|reflexivity].
Defined.

Lemma CheckRequest_accepts_witness :
  bytes_Equal (Darc_GetID demo.d0) (Request_ID demo.signed_request) = true
  ∧ is_Some (Darc_Rules demo.d0 !! Request_Action demo.signed_request)
  ∧ (length (Request_Identities demo.signed_request)
     ≤ length (Request_Signatures demo.signed_request))%nat
  ∧ ∃ xs, Request_Identities demo.signed_request = Some <$> xs
      ∧ (∀ (k : nat) x, xs !! k = Some x →
           ∃ sig, Request_Signatures demo.signed_request !! k = Some sig
                  ∧ Identity_Verify x
                      (slice_bytes (Request_Hash demo.signed_request).1) sig
                    = Returns None)
      ∧ DefaultParser
          (Rules_get (Darc_Rules demo.d0) (Request_Action demo.signed_request))
          (Identity_String <$> xs) = Returns (true, None).
Proof.
  apply (CheckRequest_accepts demo.d0 demo.signed_request).
  vm_compute. reflexivity.
Defined.

Lemma NewRequest_success_witness :
  let signers := [Some demo.alice] in
  Request_ID demo.signed_request = Darc_GetID demo.d0
  ∧ Request_Action demo.signed_request = evolve
  ∧ Request_Msg demo.signed_request = list_byte_of_string "hello"
  ∧ length (Request_Identities demo.signed_request) = length signers
  ∧ length (Request_Signatures demo.signed_request) = length signers
  ∧ ∃ sgs, signers = Some <$> sgs
      ∧ Request_Identities demo.signed_request = Signer_Identity <$> sgs
      ∧ ∀ (k : nat) sg, sgs !! k = Some sg →
          Signer_Type sg = 1
          ∧ ∃ raw, Request_Signatures demo.signed_request !! k = Some raw
                   ∧ Signer_Sign sg (Request_Hash demo.signed_request).1
                     = (raw, None).
Proof.
  apply (NewRequest_success (Darc_GetID demo.d0) evolve
           (list_byte_of_string "hello") [Some demo.alice]
           demo.signed_request).
  vm_compute. reflexivity.
Defined.

Lemma NewRequest_passes_CheckRequest_witness :
  Darc_CheckRequest demo.d0 demo.signed_request = Returns None.
Proof.
  apply (NewRequest_passes_CheckRequest demo.d0 evolve
           (list_byte_of_string "hello") [Some demo.alice]
           demo.signed_request).
  - intros sg eds m raw Hin Heds.
    apply list_elem_of_singleton in Hin. injection Hin as ->.
    injection Heds as <-. apply demo_sign_verify.
  - vm_compute. reflexivity.
  - eexists. vm_compute. reflexivity.
  - intros strs Hstrs. vm_compute in Hstrs.
    injection Hstrs as <-. vm_compute. reflexivity.
Defined.

Lemma Box_keeps_last_ballot_witness :
  let ballots := [(1, 10); (2, 20); (1, 11)] in
  let box := lib.Box_unique scenario.Ballot_User ballots in
  NoDup (scenario.Ballot_User <$> box)
  ∧ sublist box ballots
  ∧ (∀ u, u ∈ scenario.Ballot_User <$> box
          ↔ u ∈ scenario.Ballot_User <$> ballots)
  ∧ (∀ before b after,
       ballots = before ++ b :: after →
       scenario.Ballot_User b ∉ scenario.Ballot_User <$> after →
       b ∈ box)
  ∧ (∀ b, b ∈ box →
       ∃ before after,
         ballots = before ++ b :: after
         ∧ scenario.Ballot_User b ∉ scenario.Ballot_User <$> after).
Proof.
  exact (Box_keeps_last_ballot scenario.Ballot_User [(1, 10); (2, 20); (1, 11)]).
Defined.

Lemma scenario_chain_served :
  lib.served scenario.GetSingleBlock scenario.chain.
Proof.
  repeat split; try (eexists _, _; split; reflexivity).
Qed.

Example scenario_Box :
  lib.Election_Box scenario.Ballot_User scenario.UnmarshalTransaction
    scenario.GetSingleBlockByIndex scenario.GetSingleBlock 6 scenario.election
  = Returns (Some {| lib.Box_Ballots := [(2, 20); (1, 11)] |}, None).
Proof. vm_compute. reflexivity. Qed.

Lemma Box_of_served_chain_witness :
  lib.Election_Box scenario.Ballot_User scenario.UnmarshalTransaction
    scenario.GetSingleBlockByIndex scenario.GetSingleBlock 6 scenario.election
  = Returns (Some {| lib.Box_Ballots :=
                       lib.last_ballots scenario.Ballot_User
                         (lib.ballots_of scenario.UnmarshalTransaction
                            scenario.chain) |},
             None)
  ∧ ∀ b fl links err acc,
      lib.SkipBlock_ForwardLink b = Some fl :: links →
      scenario.GetSingleBlock (lib.ForwardLink_To fl) = (None, err) →
      lib.Box_loop scenario.UnmarshalTransaction scenario.GetSingleBlock
        (2 + 6) (Some b) acc
      = Panics NilDereference.
Proof.
  apply (Box_of_served_chain scenario.Ballot_User
           scenario.UnmarshalTransaction scenario.GetSingleBlockByIndex
           scenario.GetSingleBlock scenario.election scenario.b0
           [scenario.b1; scenario.b2; scenario.b3; scenario.b4; scenario.b5] 6).
  - reflexivity.
  - apply scenario_chain_served.
  - simpl. lia.
Defined.

Lemma Partials_of_served_chain_witness :
  lib.Election_Partials scenario.UnmarshalTransaction
    scenario.GetSingleBlockByIndex scenario.GetSingleBlock 6 scenario.election
  = Returns (lib.partials_of scenario.UnmarshalTransaction scenario.chain, None)
  ∧ ∀ b fl links blk err acc,
      lib.SkipBlock_ForwardLink b = Some fl :: links →
      scenario.GetSingleBlock (lib.ForwardLink_To fl) = (blk, Some err) →
      lib.Partials_loop scenario.UnmarshalTransaction scenario.GetSingleBlock
        (1 + 6) (Some b) acc
      = Returns (acc ++ lib.partials_of scenario.UnmarshalTransaction [b]).
Proof.
  apply (Partials_of_served_chain scenario.UnmarshalTransaction
           scenario.GetSingleBlockByIndex scenario.GetSingleBlock
           scenario.election scenario.b0
           [scenario.b1; scenario.b2; scenario.b3; scenario.b4; scenario.b5] 6).
  - reflexivity.
  - apply scenario_chain_served.
  - simpl. lia.
Defined.

Lemma Mixes_of_served_chain_witness :
  lib.Election_Mixes scenario.UnmarshalTransaction
    scenario.GetSingleBlockByIndex scenario.GetSingleBlock 6 scenario.election
  = Returns (lib.mixes_of scenario.UnmarshalTransaction scenario.chain, None)
  ∧ ∀ b fl links err acc,
      lib.SkipBlock_ForwardLink b = Some fl :: links →
      scenario.GetSingleBlock (lib.ForwardLink_To fl) = (None, err) →
      lib.Mixes_loop scenario.UnmarshalTransaction scenario.GetSingleBlock
        (2 + 6) (Some b) acc
      = Panics NilDereference.
Proof.
  apply (Mixes_of_served_chain scenario.UnmarshalTransaction
           scenario.GetSingleBlockByIndex scenario.GetSingleBlock
           scenario.election scenario.b0
           [scenario.b1; scenario.b2; scenario.b3; scenario.b4; scenario.b5] 6).
  - reflexivity.
  - apply scenario_chain_served.
  - simpl. lia.
Defined.

Example scenario_setVoted :
  lib.Election_setVoted scenario.UnmarshalTransaction scenario.GetByID 6
    scenario.election 1
  = (lib.Election_set_Voted scenario.election [x03], Returns None).
Proof. vm_compute. reflexivity. Qed.

Lemma setVoted_last_vote_witness :
  lib.Election_setVoted scenario.UnmarshalTransaction scenario.GetByID 6
    scenario.election 1
  = (match lib.last_vote scenario.UnmarshalTransaction 1 scenario.chain with
     | Some hash => lib.Election_set_Voted scenario.election hash
     | None => scenario.election
     end, Returns None)
  ∧ ∀ b e',
      scenario.UnmarshalTransaction (lib.SkipBlock_Data b) = None →
      lib.setVoted_loop scenario.UnmarshalTransaction scenario.GetByID (1 + 6)
        1 (Some b) e'
      = (e', Panics NilDereference).
Proof.
  apply (setVoted_last_vote scenario.UnmarshalTransaction scenario.GetByID
           scenario.election 1 scenario.b0
           [scenario.b1; scenario.b2; scenario.b3; scenario.b4; scenario.b5] 6).
  - reflexivity.
  - repeat split; try (eexists _, _; split; reflexivity).
  - repeat constructor; eexists; reflexivity.
  - simpl. lia.
Defined.

Example scenario_d2_short_panics :
  Darc_Verify (Some scenario.d2_short) = Panics NilDereference.
Proof. vm_compute. reflexivity. Qed.

Lemma VerifyWithCB_path_not_from_genesis_witness :
  (Darc_BaseID demo.d1 = None →
   Darc_VerifyWithCB (Some scenario.d2_short) noDarc
   = Returns (Some (fmt_Errorf
       "verification failed on index %d with error: %v"
       [arg_uint 0; arg_error (errors_New "nil base ID")])))
  ∧ (is_Some (Darc_BaseID demo.d1) →
     Darc_VerifyWithCB (Some scenario.d2_short) noDarc
     = Panics NilDereference).
Proof.
  apply (VerifyWithCB_path_not_from_genesis scenario.d2_short demo.d1
           {| Signature_Signature :=
                (Signer_Sign demo.bob
                   (hashAll [slice_bytes (Darc_GetID scenario.d2_short);
                             slice_bytes (Darc_GetID demo.d1)]).1).1;
              Signature_Signer := scenario.bob_identity;
              Signature_Path := [Some demo.d1] |} [] noDarc).
  - vm_compute. discriminate.
  - vm_compute. reflexivity.
  - reflexivity.
  - vm_compute. discriminate.
Defined.

